(** * View inverses of the functionalization pass

    A shallow embedding of [aten/src/ATen/FunctionalInverses.cpp] together
    with the part of the tensor runtime its functions call into, and the
    properties stated about them.

    Layout of the development:
    - [result]: the outcome of a call that may raise;
    - [c10]: 64-bit arithmetic, [IntArrayRef] reads and dimension wrapping;
    - [ATen]: strided tensors, the view operations and the scatter and
      reduction kernels the inverses delegate to;
    - [impl]: the functions of [FunctionalInverses.cpp], in source order;
    - the theorems. *)

From Stdlib Require Import ZArith Lia String.
From stdpp Require Import base tactics option list numbers.

Local Open Scope Z_scope.

(** ** Outcomes of fallible calls *)

(** The exceptions the modelled code can raise.  [InternalAssert] is what
    [TORCH_INTERNAL_ASSERT] raises, [IndexError] what [TORCH_CHECK_INDEX]
    raises, [CheckFailed] what [TORCH_CHECK] raises.  [OutOfBounds] stands
    for an unchecked read past the end of an [IntArrayRef]. *)
Inductive Error : Type :=
| InternalAssert (msg : string)
| IndexError
| CheckFailed
| OutOfBounds.

Inductive result (A : Type) : Type :=
| Ok (a : A)
| Err (e : Error).

Arguments Ok {A} a.
Arguments Err {A} e.

Definition bind {A B : Type} (m : result A) (k : A -> result B) : result B :=
  match m with
  | Ok a => k a
  | Err e => Err e
  end.

Notation "'let!' x ':=' m 'in' k" := (bind m (fun x => k))
  (at level 10, x pattern, m at level 100, k at level 200).

Definition check (b : bool) (e : Error) : result unit :=
  if b then Ok tt else Err e.

(** ** c10: integers, array references, dimension wrapping *)

Module c10.

(** [int64_t] arithmetic wraps around modulo [2^64]. *)
Definition wrap64 (z : Z) : Z := (z + 2 ^ 63) mod 2 ^ 64 - 2 ^ 63.

Definition int64_range (z : Z) : Prop := - 2 ^ 63 <= z < 2 ^ 63.

Definition add64 (a b : Z) : Z := wrap64 (a + b).
Definition mul64 (a b : Z) : Z := wrap64 (a * b).

(** [IntArrayRef::operator[]]: the read is unchecked in the source; a read
    outside the array is reported as [OutOfBounds]. *)
Definition at_index (l : list Z) (i : Z) : result Z :=
  if i <? 0 then Err OutOfBounds
  else match l !! Z.to_nat i with
       | Some x => Ok x
       | None => Err OutOfBounds
       end.

(** Modelled from the spec: the axis normalizer [maybe_wrap_dim] of
    [c10/core/WrapDimMinimal.h], which is not part of the sources at hand.
    It wraps a possibly negative axis index into [[0, rank)] and raises an
    index error outside [[-rank, rank)]; with [wrap_scalar] a rank of zero
    is treated as rank one, so that a scalar accepts the axes [-1] and [0]. *)
Definition maybe_wrap_dim_gen (dim dim_post_expr : Z) (wrap_scalar : bool)
  : result Z :=
  let! _ := check (negb (dim_post_expr <=? 0) || wrap_scalar) IndexError in
  let n := if dim_post_expr <=? 0 then 1 else dim_post_expr in
  let! _ := check (negb ((dim <? - n) || (dim >? n - 1))) IndexError in
  Ok (if dim <? 0 then dim + n else dim).

Definition maybe_wrap_dim (dim dim_post_expr : Z) : result Z :=
  maybe_wrap_dim_gen dim dim_post_expr true.

End c10.

(** ** ATen: strided tensors and the kernels the inverses call *)

Module ATen.

Inductive ScalarType : Type :=
| Byte | Char | Short | Int | Long | Half | Float | Double
| ComplexHalf | ComplexFloat | ComplexDouble | Bool | BFloat16.

(** A tensor handle: a storage buffer together with the geometry through
    which it is read.  Storage cells hold exact integers; they stand for
    the scalars of [scalar_type], whose rounding is outside the model. *)
Record Tensor : Type := mkTensor {
  storage : list Z;
  storage_offset : Z;
  sizes : list Z;
  strides : list Z;
  scalar_type : ScalarType;
}.

(** [Tensor()], the undefined tensor: one axis of size zero. *)
Definition undefined_tensor : Tensor :=
  mkTensor [] 0 [0] [1] Float.

Definition dim (t : Tensor) : Z := Z.of_nat (length (sizes t)).

Definition with_geometry (t : Tensor) (off : Z) (sz st : list Z) : Tensor :=
  mkTensor (storage t) off sz st (scalar_type t).

(** *** Element access *)

Fixpoint dot (idx st : list Z) : Z :=
  match idx, st with
  | i :: idx', s :: st' => i * s + dot idx' st'
  | _, _ => 0
  end.

Definition addr (t : Tensor) (idx : list Z) : Z :=
  storage_offset t + dot idx (strides t).

Definition read (s : list Z) (a : Z) : Z :=
  if a <? 0 then 0 else default 0 (s !! Z.to_nat a).

Definition get (t : Tensor) (idx : list Z) : Z :=
  read (storage t) (addr t idx).

(** The coordinates of a tensor of shape [sz]. *)
Definition valid_index (sz idx : list Z) : Prop :=
  Forall2 (fun i n => 0 <= i < n) idx sz.

Fixpoint all_indices (sz : list Z) : list (list Z) :=
  match sz with
  | [] => [[]]
  | n :: sz' =>
      flat_map (fun i => map (cons i) (all_indices sz')) (seqZ 0 n)
  end.

(** Two tensors hold the same value: same shape, same element at every
    coordinate. *)
Definition tensor_eq (a b : Tensor) : Prop :=
  sizes a = sizes b /\
  forall idx, valid_index (sizes a) idx -> get a idx = get b idx.

(** *** Fresh contiguous tensors *)

Fixpoint numel_of (sz : list Z) : Z :=
  match sz with
  | [] => 1
  | n :: sz' => n * numel_of sz'
  end.

(** Row-major strides; an axis of size zero counts as size one. *)
Fixpoint stride_prod (sz : list Z) : Z :=
  match sz with
  | [] => 1
  | n :: sz' => Z.max n 1 * stride_prod sz'
  end.

Fixpoint contiguous_strides (sz : list Z) : list Z :=
  match sz with
  | [] => []
  | _ :: sz' => stride_prod sz' :: contiguous_strides sz'
  end.

Fixpoint unravel (sz : list Z) (a : Z) : list Z :=
  match sz with
  | [] => []
  | _ :: sz' => a / stride_prod sz' :: unravel sz' (a mod stride_prod sz')
  end.

(** The tensor of shape [sz] whose element at [idx] is [f idx], laid out
    contiguously in a buffer of its own. *)
Definition materialize (sz : list Z) (ty : ScalarType) (f : list Z -> Z)
  : Tensor :=
  mkTensor
    (map (fun k => f (unravel sz (Z.of_nat k)))
         (seq 0 (Z.to_nat (numel_of sz))))
    0 sz (contiguous_strides sz) ty.

Definition clone (t : Tensor) : Tensor :=
  materialize (sizes t) (scalar_type t) (get t).

(** [view.copy_(src)] for a view [view] into the buffer of [out]: every
    cell addressed by a coordinate of [view] receives the element of [src]
    at that coordinate; the other cells keep their content. *)
Definition copy_ (out view src : Tensor) : Tensor :=
  mkTensor
    (imap (fun a x =>
             match find (fun j => addr view j =? Z.of_nat a)
                        (all_indices (sizes view)) with
             | Some j => get src j
             | None => x
             end)
          (storage out))
    (storage_offset out) (sizes out) (strides out) (scalar_type out).

(** *** Geometry helpers *)

Definition nth_or0 (l : list Z) (d : Z) : Z := default 0 (l !! Z.to_nat d).

Definition insert_at {A : Type} (d : nat) (x : A) (l : list A) : list A :=
  take d l ++ x :: drop d l.

Definition gather (l ds : list Z) : list Z := map (nth_or0 l) ds.

Definition swap (l : list Z) (i j : Z) : list Z :=
  <[Z.to_nat i := nth_or0 l j]> (<[Z.to_nat j := nth_or0 l i]> l).

Definition INT64_MAX : Z := 2 ^ 63 - 1.

Definition sumZ (l : list Z) : Z := foldr Z.add 0 l.

(** Modelled from the spec: [Tensor::size(dim)], the size of one axis; it
    wraps [dim] and, unlike [maybe_wrap_dim], rejects a tensor of rank
    zero. *)
Definition size (t : Tensor) (d : Z) : result Z :=
  let! d' := c10.maybe_wrap_dim_gen d (dim t) false in
  c10.at_index (sizes t) d'.

(** *** View operations

    The forward view operations are kernels of the array library, outside
    the sources at hand.  Each one returns a handle on the same storage
    with a new geometry, which is what makes its result a view of its
    argument. *)

(** Modelled from the spec: [unsqueeze(dim)], a new axis of size one at
    [dim]. *)
Definition unsqueeze (t : Tensor) (d : Z) : result Tensor :=
  let! d' := c10.maybe_wrap_dim d (dim t + 1) in
  let new_stride :=
    if d' >=? dim t then 1
    else nth_or0 (sizes t) d' * nth_or0 (strides t) d' in
  Ok (with_geometry t (storage_offset t)
        (insert_at (Z.to_nat d') 1 (sizes t))
        (insert_at (Z.to_nat d') new_stride (strides t))).

Fixpoint squeeze_geometry (sz st : list Z) : list Z * list Z :=
  match sz, st with
  | n :: sz', s :: st' =>
      let g := squeeze_geometry sz' st' in
      if n =? 1 then g else (n :: g.1, s :: g.2)
  | _, _ => ([], [])
  end.

(** Modelled from the spec: [squeeze()], every axis of size one is
    dropped. *)
Definition squeeze (t : Tensor) : Tensor :=
  let g := squeeze_geometry (sizes t) (strides t) in
  with_geometry t (storage_offset t) g.1 g.2.

(** Modelled from the spec: [squeeze(dim)], the axis [dim] is dropped if
    its size is one. *)
Definition squeeze_dim (t : Tensor) (d : Z) : result Tensor :=
  let! d' := c10.maybe_wrap_dim d (dim t) in
  if (dim t =? 0) || negb (nth_or0 (sizes t) d' =? 1) then Ok t
  else Ok (with_geometry t (storage_offset t)
             (delete (Z.to_nat d') (sizes t))
             (delete (Z.to_nat d') (strides t))).

Fixpoint wrap_dims (ds : list Z) (n : Z) : result (list Z) :=
  match ds with
  | [] => Ok []
  | d :: ds' =>
      let! d' := c10.maybe_wrap_dim d n in
      let! r := wrap_dims ds' n in
      Ok (d' :: r)
  end.

(** Modelled from the spec: [permute(dims)], axis [i] of the result is
    axis [dims[i]] of the argument; [dims] must name every axis exactly
    once. *)
Definition permute (t : Tensor) (dims : list Z) : result Tensor :=
  let! _ := check (bool_decide (length dims = length (sizes t))) CheckFailed in
  let! ds := wrap_dims dims (dim t) in
  let! _ := check (bool_decide (NoDup ds)) CheckFailed in
  Ok (with_geometry t (storage_offset t)
        (gather (sizes t) ds) (gather (strides t) ds)).

(** Modelled from the spec: [transpose(dim0, dim1)], the two axes are
    exchanged. *)
Definition transpose (t : Tensor) (dim0 dim1 : Z) : result Tensor :=
  let! d0 := c10.maybe_wrap_dim dim0 (dim t) in
  let! d1 := c10.maybe_wrap_dim dim1 (dim t) in
  if d0 =? d1 then Ok t
  else Ok (with_geometry t (storage_offset t)
             (swap (sizes t) d0 d1) (swap (strides t) d0 d1)).

(** Modelled from the spec: [t()], the transpose of a tensor of rank at
    most two. *)
Definition t (self : Tensor) : result Tensor :=
  let! _ := check (dim self <=? 2) CheckFailed in
  transpose self 0 (if dim self <? 2 then 0 else 1).

(** Modelled from the spec: [select(dim, index)], the sub-tensor at
    position [index] of [dim]. *)
Definition select (t : Tensor) (d index : Z) : result Tensor :=
  let! _ := check (negb (dim t =? 0)) IndexError in
  let! d' := c10.maybe_wrap_dim d (dim t) in
  let n := nth_or0 (sizes t) d' in
  let! _ := check ((- n <=? index) && (index <? n)) IndexError in
  let index' := if index <? 0 then index + n else index in
  Ok (with_geometry t
        (storage_offset t + index' * nth_or0 (strides t) d')
        (delete (Z.to_nat d') (sizes t))
        (delete (Z.to_nat d') (strides t))).

(** The bounds [slice] reads along an axis of size [n], after defaulting,
    wrapping of negative values and clamping. *)
Definition slice_bounds (n : Z) (start end_ : option Z) : Z * Z :=
  let start_val := default 0 start in
  let end_val := default INT64_MAX end_ in
  let start_val := if start_val =? INT64_MAX then 0 else start_val in
  let start_val := if start_val <? 0 then start_val + n else start_val in
  let end_val := if end_val <? 0 then end_val + n else end_val in
  let start_val :=
    if start_val <? 0 then 0
    else if start_val >=? n then n else start_val in
  let end_val :=
    if end_val <? start_val then start_val
    else if end_val >=? n then n else end_val in
  (start_val, end_val).

(** Modelled from the spec: [slice(dim, start, end, step)], every
    [step]-th position of the half-open range [[start, end)] of [dim]. *)
Definition slice (t : Tensor) (d : Z) (start end_ : option Z) (step : Z)
  : result Tensor :=
  let! _ := check (negb (dim t =? 0)) IndexError in
  let! d' := c10.maybe_wrap_dim d (dim t) in
  let! _ := check (0 <? step) CheckFailed in
  let n := nth_or0 (sizes t) d' in
  let b := slice_bounds n start end_ in
  let len := b.2 - b.1 in
  Ok (with_geometry t
        (storage_offset t + b.1 * nth_or0 (strides t) d')
        (<[Z.to_nat d' := (len + step - 1) / step]> (sizes t))
        (<[Z.to_nat d' := nth_or0 (strides t) d' * step]> (strides t))).

(** Modelled from the spec: [diagonal(offset, dim1, dim2)], the diagonal
    of the planes spanned by [dim1] and [dim2]; the two axes are dropped
    and the diagonal becomes the last axis. *)
Definition diagonal (t : Tensor) (offset dim1_ dim2_ : Z) : result Tensor :=
  let! dim1 := c10.maybe_wrap_dim dim1_ (dim t) in
  let! dim2 := c10.maybe_wrap_dim dim2_ (dim t) in
  let! _ := check (negb (dim1 =? dim2)) CheckFailed in
  let n1 := nth_or0 (sizes t) dim1 in
  let n2 := nth_or0 (sizes t) dim2 in
  let diag_size :=
    if offset >=? 0 then Z.max (Z.min n1 (n2 - offset)) 0
    else Z.max (Z.min (n1 + offset) n2) 0 in
  let off :=
    if diag_size =? 0 then storage_offset t
    else if offset >=? 0
         then storage_offset t + offset * nth_or0 (strides t) dim2
         else storage_offset t - offset * nth_or0 (strides t) dim1 in
  let hi := Z.to_nat (Z.max dim1 dim2) in
  let lo := Z.to_nat (Z.min dim1 dim2) in
  Ok (with_geometry t off
        (delete lo (delete hi (sizes t)) ++ [diag_size])
        (delete lo (delete hi (strides t))
           ++ [nth_or0 (strides t) dim1 + nth_or0 (strides t) dim2])).

(** Modelled from the spec: the output of index [i] of [unbind(dim)] is
    the selection [(dim = wrap(dim), index = i)]. *)
Definition unbind_at (t : Tensor) (i dim_ : Z) : result Tensor :=
  let! d := c10.maybe_wrap_dim dim_ (dim t) in
  let! n := size t d in
  let! _ := check ((0 <=? i) && (i <? n)) IndexError in
  select t d i.

(** Modelled from the spec: the output of index [i] of
    [split(split_size, dim)] is the slice of [wrap(dim)] that starts at
    [i * split_size] and has [split_size] positions, the last one as many
    as remain. *)
Definition split_at (t : Tensor) (i split_size dim_ : Z) : result Tensor :=
  let! d := c10.maybe_wrap_dim dim_ (dim t) in
  let! n := size t d in
  let! _ := check (0 <=? split_size) CheckFailed in
  let! _ := check ((0 <? split_size) || (n =? 0)) CheckFailed in
  let num_splits :=
    if split_size =? 0 then 1
    else Z.max ((n + split_size - 1) / split_size) 1 in
  let! _ := check ((0 <=? i) && (i <? num_splits)) IndexError in
  let last_split_size := split_size - (split_size * num_splits - n) in
  let len := if i <? num_splits - 1 then split_size else last_split_size in
  slice t d (Some (i * split_size)) (Some (i * split_size + len)) 1.

(** Modelled from the spec: the output of index [i] of
    [split_with_sizes(split_sizes, dim)] is the slice of [wrap(dim)] that
    starts at the sum of the sizes before [i] and has [split_sizes[i]]
    positions; the sizes are non-negative and add up to the size of the
    axis. *)
Definition split_with_sizes_at (t : Tensor) (i : Z) (split_sizes : list Z)
  (dim_ : Z) : result Tensor :=
  let! d := c10.maybe_wrap_dim dim_ (dim t) in
  let! n := size t d in
  let! _ := check (forallb (Z.leb 0) split_sizes) CheckFailed in
  let! _ := check (sumZ split_sizes =? n) CheckFailed in
  let! s := c10.at_index split_sizes i in
  let start := sumZ (take (Z.to_nat i) split_sizes) in
  slice t d (Some start) (Some (start + s)) 1.

(** The expansion geometry, computed from the last axis to the first on
    reversed lists: the axis at hand has size [n] and stride [s] (size one
    and the extent of the axis after it, [psz * pst], when the tensor has no
    such axis) and is asked to have size [tg]. *)
Fixpoint expand_geometry (tsz tst target : list Z) (psz pst : Z)
  : result (list Z * list Z) :=
  match target with
  | [] => Ok ([], [])
  | tg :: target' =>
      let has_dim := match tsz with [] => false | _ => true end in
      let n := match tsz with [] => 1 | n :: _ => n end in
      let s := match tst with [] => psz * pst | s :: _ => s end in
      let! tg' :=
        if tg =? -1
        then (let! _ := check has_dim CheckFailed in Ok n)
        else Ok tg in
      let! _ := check ((n =? tg') || (n =? 1)) CheckFailed in
      let! _ := check (0 <=? tg') CheckFailed in
      let s' := if n =? tg' then s else 0 in
      let! r := expand_geometry (tail tsz) (tail tst) target' tg' s' in
      Ok (tg' :: r.1, s' :: r.2)
  end.

(** Modelled from the spec: [expand(size)], axes of size one are
    repeated, and new leading axes are added, up to the shape [size]; the
    added extent has stride zero, so that all copies read the same cell. *)
Definition expand (t : Tensor) (size_ : list Z) (implicit : bool)
  : result Tensor :=
  let! _ := check (dim t <=? Z.of_nat (length size_)) CheckFailed in
  if dim t =? 0
  then
    let! _ := check (forallb (Z.leb 0) size_) CheckFailed in
    Ok (with_geometry t (storage_offset t)
          size_ (replicate (length size_) 0))
  else
    let! g :=
      expand_geometry (rev (sizes t)) (rev (strides t)) (rev size_) 1 1 in
    Ok (with_geometry t (storage_offset t) (rev g.1) (rev g.2)).

(** *** Scatter kernels *)

(** Modelled from the spec: [scatter(base, patch, region)] returns a copy
    of [base] with the described region replaced by [patch], elsewhere
    unchanged.  The kernels are outside the sources at hand; each one
    clones its first argument, takes the region as a view [op] of the
    clone and copies [src] into that view, after checking that [src] has
    the shape of the region. *)
Definition scatter_through (op : Tensor -> result Tensor)
  (self src : Tensor) : result Tensor :=
  let output := clone self in
  let! v := op output in
  let! _ := check (bool_decide (sizes v = sizes src)) CheckFailed in
  Ok (copy_ output v src).

(** Modelled from the spec: [slice_scatter(src, dim, start, end, step)],
    the scatter into the region of [slice]. *)
Definition slice_scatter (self src : Tensor) (d : Z) (start end_ : option Z)
  (step : Z) : result Tensor :=
  scatter_through (fun output => slice output d start end_ step) self src.

(** Modelled from the spec: [select_scatter(src, dim, index)], the
    scatter into the region of [select]. *)
Definition select_scatter (self src : Tensor) (d index : Z) : result Tensor :=
  scatter_through (fun output => select output d index) self src.

(** Modelled from the spec: [diagonal_scatter(src, offset, dim1, dim2)],
    the scatter into the region of [diagonal]. *)
Definition diagonal_scatter (self src : Tensor) (offset dim1 dim2 : Z)
  : result Tensor :=
  scatter_through (fun output => diagonal output offset dim1 dim2) self src.

(** *** Reductions and reinterpretations *)

(** The coordinate of the reduced tensor that a coordinate of the
    argument contributes to: zero along every reduced axis. *)
Definition keep_index (rd : list bool) (idx : list Z) : list Z :=
  zip_with (fun (r : bool) i => if r then 0 else i) rd idx.

(** Modelled from the spec: [sum(dims, keepdim = true)], the reduced axes
    given as a mask. *)
Definition sum_keepdim (t : Tensor) (rd : list bool) : Tensor :=
  materialize
    (zip_with (fun (r : bool) n => if r then 1 else n) rd (sizes t))
    (scalar_type t)
    (fun idx =>
       sumZ (map (get t)
               (filter (fun j => keep_index rd j = idx)
                       (all_indices (sizes t))))).

(** Modelled from the spec: [sum()], the rank-zero tensor holding the sum
    of all elements. *)
Definition sum_all (t : Tensor) : Tensor :=
  materialize [] (scalar_type t)
    (fun _ => sumZ (map (get t) (all_indices (sizes t)))).

(** Modelled from the spec: the layout test of the runtime; every axis
    whose size is not one has the stride of a row-major layout, and a
    tensor without elements passes. *)
Fixpoint dense_strides (sz st : list Z) : bool :=
  match sz, st with
  | n :: sz', s :: st' =>
      ((n =? 1) || (s =? numel_of sz')) && dense_strides sz' st'
  | _, _ => true
  end.

Definition is_contiguous (t : Tensor) : bool :=
  (numel_of (sizes t) =? 0) || dense_strides (sizes t) (strides t).

(** Modelled from the spec: the shape a [view] request stands for; one
    entry may be [-1] and is inferred from the element count, unless the
    other entries multiply to zero and leave it undetermined. *)
Definition infer_size (shape : list Z) (numel : Z) : result (list Z) :=
  let! _ := check (forallb (Z.leb (-1)) shape) CheckFailed in
  let infers := length (filter (eq (-1)) shape) in
  let! _ := check (infers <=? 1)%nat CheckFailed in
  let newsize := numel_of (filter (fun n => n <> -1) shape) in
  let! _ :=
    check ((numel =? newsize)
           || ((infers =? 1)%nat && (0 <? newsize)
               && (numel mod newsize =? 0)))
          CheckFailed in
  let! _ := check ((infers =? 0)%nat || negb (newsize =? 0)) CheckFailed in
  Ok (map (fun n => if n =? -1 then numel / newsize else n) shape).

(** Modelled from the spec: [view(shape)] reinterprets the
    contiguous-equivalent layout of its argument under another shape of
    the same element count; a violation is reported by the primitive.
    The model covers contiguous arguments only: it rejects every other
    layout, also the stride-compatible ones the primitive accepts, so
    what is proved of [view] is proved of contiguous arguments. *)
Definition view (t : Tensor) (shape : list Z) : result Tensor :=
  let! sz := infer_size shape (numel_of (sizes t)) in
  let! _ := check (is_contiguous t) CheckFailed in
  Ok (with_geometry t (storage_offset t) sz (contiguous_strides sz)).

(** Modelled from the spec: [_reshape_alias(sizes, strides)] reinterprets
    the storage of its argument under the given shape and strides. *)
Definition _reshape_alias (t : Tensor) (sz st : list Z) : result Tensor :=
  Ok (with_geometry t (storage_offset t) sz st).

(** Modelled from the spec: [sum_to(tensor, shape)], the sum-to-shape
    reduction of the expansion utilities.  Every axis of the tensor that
    the shape does not have is summed away, and every axis where the
    shape has size one and the tensor has not is summed and kept with
    size one. *)
Definition sum_to (tensor : Tensor) (shape : list Z) : result Tensor :=
  if bool_decide (shape = []) then Ok (sum_all tensor)
  else
    let leading_dims := dim tensor - Z.of_nat (length shape) in
    let! _ := check (0 <=? leading_dims) OutOfBounds in
    let reduce_dims :=
      replicate (Z.to_nat leading_dims) true
      ++ zip_with (fun s n => (s =? 1) && negb (n =? 1))
           shape (drop (Z.to_nat leading_dims) (sizes tensor)) in
    let tensor :=
      if existsb id reduce_dims then sum_keepdim tensor reduce_dims
      else tensor in
    if 0 <? leading_dims then view tensor shape else Ok tensor.

(** Modelled from the spec: [unfold(dimension, size, step)], the windows
    of [size] positions taken every [step] positions along [dimension];
    the axis counts the windows and a new last axis runs inside each
    window. *)
Definition unfold (t : Tensor) (dimension size_ step : Z) : result Tensor :=
  let! d := c10.maybe_wrap_dim dimension (dim t) in
  let max_size := if dim t =? 0 then 1 else nth_or0 (sizes t) d in
  let! _ := check (size_ <=? max_size) CheckFailed in
  let! _ := check (0 <? step) CheckFailed in
  let! _ := check (0 <=? size_) CheckFailed in
  Ok (with_geometry t (storage_offset t)
        (<[Z.to_nat d := (nth_or0 (sizes t) d - size_) / step + 1]> (sizes t)
         ++ [size_])
        (<[Z.to_nat d := step * nth_or0 (strides t) d]> (strides t)
         ++ [if dim t =? 0 then 1 else nth_or0 (strides t) d])).

(** The coordinate of the input that coordinate [j] of its windows
    reads: position [j[d] * step + k] along [d], for [k] the last entry
    of [j]. *)
Definition window_coord (d step : Z) (j : list Z) : list Z :=
  let k := nth_or0 j (Z.of_nat (length j) - 1) in
  let rest := take (length j - 1) j in
  <[Z.to_nat d := nth_or0 rest d * step + k]> rest.

(** Modelled from the spec: the window-accumulation primitive
    [unfold_backward(grad, input_sizes, dim, size, step)] accumulates the
    window contributions of [grad] onto the coordinate space of the
    input; where several windows cover a coordinate their contributions
    are summed, and a coordinate that no window covers receives zero. *)
Definition unfold_backward (grad : Tensor) (input_sizes : list Z)
  (dimension size_ step : Z) : result Tensor :=
  let! d := c10.maybe_wrap_dim dimension (Z.of_nat (length input_sizes)) in
  Ok (materialize input_sizes (scalar_type grad)
        (fun idx =>
           sumZ (map (get grad)
                   (filter (fun j => window_coord d step j = idx)
                           (all_indices (sizes grad)))))).

(** Modelled from the spec: [neg()], the element-wise negation, in a
    buffer of its own; negation is not defined on Bool tensors, which
    the kernel rejects. *)
Definition neg (t : Tensor) : result Tensor :=
  match scalar_type t with
  | Bool => Err CheckFailed
  | _ =>
      Ok (materialize (sizes t) (scalar_type t) (fun idx => - get t idx))
  end.

(** Modelled from the spec: [_neg_view()], the lazily negated alias of
    its argument: a handle with the geometry of the argument, addressing
    the same cells, through which every cell reads negated. *)
Definition _neg_view (t : Tensor) : Tensor :=
  mkTensor (map Z.opp (storage t)) (storage_offset t)
    (sizes t) (strides t) (scalar_type t).

(** The kernels whose effect on element values is outside the model:
    complex numbers and their lazy conjugation, and the reinterpretation
    of elements under another element type.  The inverses that call them
    are stated for every implementation. *)
Class Kernels : Type := {
  view_as_complex : Tensor -> result Tensor;
  view_as_real : Tensor -> result Tensor;
  resolve_conj : Tensor -> result Tensor;
  conj : Tensor -> result Tensor;
  view_dtype : Tensor -> ScalarType -> result Tensor;
}.

End ATen.

(** ** FunctionalInverses.cpp *)

Module impl.
Import ATen.

(** [TORCH_INTERNAL_ASSERT(cond, msg)] *)
Definition TORCH_INTERNAL_ASSERT (cond : bool) (msg : string) : result unit :=
  check cond (InternalAssert msg).

(** The loop of [permute_inverse]: [dims_[wrap(dims[i])] = i], for [i]
    counting up from its start value. *)
Fixpoint invert_dims (dims : list Z) (ndims i : Z) (dims_ : list Z)
  : result (list Z) :=
  match dims with
  | [] => Ok dims_
  | d :: rest =>
      let! w := c10.maybe_wrap_dim d ndims in
      invert_dims rest ndims (i + 1) (<[Z.to_nat w := i]> dims_)
  end.

(** [permute_inverse(self, dims)], the helper of two arguments. *)
Definition permute_inverse_dims (self : Tensor) (dims : list Z)
  : result Tensor :=
  let ndims := Z.of_nat (length dims) in
  let! dims_ := invert_dims dims ndims 0 (replicate (length dims) 0) in
  permute self dims_.

Fixpoint unsqueeze_to_loop (sizes : list Z) (dim : Z) (res : Tensor)
  : result Tensor :=
  match sizes with
  | [] => Ok res
  | n :: rest =>
      let! res' := if n =? 1 then unsqueeze res dim else Ok res in
      unsqueeze_to_loop rest (dim + 1) res'
  end.

(** [unsqueeze_to(self, sizes)] *)
Definition unsqueeze_to (self : Tensor) (sizes : list Z) : result Tensor :=
  unsqueeze_to_loop sizes 0 self.

(** [unsqueeze_to(self, dim, sizes)] *)
Definition unsqueeze_to_dim (self : Tensor) (dim : Z) (sizes : list Z)
  : result Tensor :=
  let! dim := c10.maybe_wrap_dim dim (Z.of_nat (length sizes)) in
  if 0 <? Z.of_nat (length sizes)
  then
    let! n := c10.at_index sizes dim in
    if n =? 1 then unsqueeze self dim else Ok self
  else Ok self.

Section Inverses.
Context `{K : Kernels}.

Definition _fw_primal_inverse (base mutated_view : Tensor) (level : Z)
  : result Tensor :=
  let! _ := TORCH_INTERNAL_ASSERT false
    "Attempted to call _fw_primal() during the functionalization pass. For now, this is not supported." in
  Ok undefined_tensor.

Definition view_as_real_inverse (base mutated_view : Tensor)
  : result Tensor :=
  view_as_complex mutated_view.

Definition view_as_complex_inverse (base mutated_view : Tensor)
  : result Tensor :=
  let! r := resolve_conj mutated_view in
  view_as_real r.

Definition _conj_inverse (base mutated_view : Tensor) : result Tensor :=
  conj mutated_view.

Definition _neg_view_inverse (base mutated_view : Tensor) : result Tensor :=
  neg mutated_view.

Definition as_strided_inverse (base mutated_view : Tensor)
  (size stride : list Z) (storage_offset : option Z) : result Tensor :=
  let! _ := TORCH_INTERNAL_ASSERT false
    "as_strided has not been implemented in the functionalization pass yet" in
  Ok undefined_tensor.

Definition diagonal_inverse (base mutated_view : Tensor)
  (offset dim1 dim2 : Z) : result Tensor :=
  diagonal_scatter base mutated_view offset dim1 dim2.

Definition expand_inverse (base mutated_view : Tensor) (size : list Z)
  (implicit : bool) : result Tensor :=
  sum_to mutated_view (sizes base).

Definition permute_inverse (base mutated_view : Tensor) (dims : list Z)
  : result Tensor :=
  permute_inverse_dims mutated_view dims.

Definition _reshape_alias_inverse (base mutated_view : Tensor)
  (size stride : list Z) : result Tensor :=
  _reshape_alias mutated_view (sizes base) (strides base).

Definition select_inverse (base mutated_view : Tensor) (dim index : Z)
  : result Tensor :=
  select_scatter base mutated_view dim index.

Definition detach_inverse (base mutated_view : Tensor) : result Tensor :=
  Ok mutated_view.

Definition slice_inverse (base mutated_view : Tensor) (dim : Z)
  (start end_ : option Z) (step : Z) : result Tensor :=
  slice_scatter base mutated_view dim start end_ step.

Definition split_inverse (base mutated_view : Tensor)
  (mutated_view_idx split_size dim : Z) : result Tensor :=
  let! dim := c10.maybe_wrap_dim dim (Z.of_nat (length (sizes base))) in
  let! dim_size := size base dim in
  let start := c10.mul64 mutated_view_idx split_size in
  let end_ := c10.add64 start split_size in
  let end_ := if end_ >? dim_size then dim_size else end_ in
  slice_scatter base mutated_view dim (Some start) (Some end_) 1.

(** The loop [for (i = 0; i < mutated_view_idx; ++i) start += split_sizes[i]],
    entered at counter [i] with [split_sizes] the entries from [i] on. *)
Fixpoint split_start (split_sizes : list Z) (i mutated_view_idx start : Z)
  : result Z :=
  if i <? mutated_view_idx then
    match split_sizes with
    | [] => Err OutOfBounds
    | s :: rest =>
        split_start rest (i + 1) mutated_view_idx (c10.add64 start s)
    end
  else Ok start.

Definition split_with_sizes_inverse (base mutated_view : Tensor)
  (mutated_view_idx : Z) (split_sizes : list Z) (dim : Z) : result Tensor :=
  let! dim := c10.maybe_wrap_dim dim (Z.of_nat (length (sizes base))) in
  let! dim_size := size base dim in
  let! start := split_start split_sizes 0 mutated_view_idx 0 in
  let! s := c10.at_index split_sizes mutated_view_idx in
  let end_ := c10.add64 start s in
  let end_ := if end_ >? dim_size then dim_size else end_ in
  slice_scatter base mutated_view dim (Some start) (Some end_) 1.

(** [squeeze_inverse(base, mutated_view)] *)
Definition squeeze_inverse (base mutated_view : Tensor) : result Tensor :=
  unsqueeze_to mutated_view (sizes base).

(** [squeeze_inverse(base, mutated_view, dim)] *)
Definition squeeze_inverse_dim (base mutated_view : Tensor) (dim : Z)
  : result Tensor :=
  unsqueeze_to_dim mutated_view dim (sizes base).

Definition t_inverse (base mutated_view : Tensor) : result Tensor :=
  t mutated_view.

Definition transpose_inverse (base mutated_view : Tensor) (dim0 dim1 : Z)
  : result Tensor :=
  transpose mutated_view dim0 dim1.

Definition unsqueeze_inverse (base mutated_view : Tensor) (dim : Z)
  : result Tensor :=
  squeeze_dim mutated_view dim.

Definition _indices_inverse (base mutated_view : Tensor) : result Tensor :=
  let! _ := TORCH_INTERNAL_ASSERT false
    "Attempted to call _indices() during the functionalization pass. For now, sparse tensors aren't supported during functionalization" in
  Ok undefined_tensor.

Definition _values_inverse (base mutated_view : Tensor) : result Tensor :=
  let! _ := TORCH_INTERNAL_ASSERT false
    "Attempted to call _values() during the functionalization pass. For now, sparse tensors aren't supported during functionalization" in
  Ok undefined_tensor.

Definition indices_inverse (base mutated_view : Tensor) : result Tensor :=
  let! _ := TORCH_INTERNAL_ASSERT false
    "Attempted to call indices() during the functionalization pass. For now, sparse tensors aren't supported during functionalization" in
  Ok undefined_tensor.

Definition values_inverse (base mutated_view : Tensor) : result Tensor :=
  let! _ := TORCH_INTERNAL_ASSERT false
    "Attempted to call values() during the functionalization pass. For now, sparse tensors aren't supported during functionalization" in
  Ok undefined_tensor.

Definition crow_indices_inverse (base mutated_view : Tensor)
  : result Tensor :=
  let! _ := TORCH_INTERNAL_ASSERT false
    "Attempted to call crow_indices() during the functionalization pass. For now, sparse tensors aren't supported during functionalization" in
  Ok undefined_tensor.

Definition col_indices_inverse (base mutated_view : Tensor)
  : result Tensor :=
  let! _ := TORCH_INTERNAL_ASSERT false
    "Attempted to call col_indices() during the functionalization pass. For now, sparse tensors aren't supported during functionalization" in
  Ok undefined_tensor.

Definition unbind_inverse (base mutated_view : Tensor)
  (mutated_view_idx dim : Z) : result Tensor :=
  let! dim := c10.maybe_wrap_dim dim (Z.of_nat (length (sizes base))) in
  select_scatter base mutated_view dim mutated_view_idx.

(** [view_inverse(base, mutated_view, size)] *)
Definition view_inverse (base mutated_view : Tensor) (size : list Z)
  : result Tensor :=
  view mutated_view (sizes base).

(** [view_inverse(base, mutated_view, dtype)] *)
Definition view_inverse_dtype (base mutated_view : Tensor)
  (dtype : ScalarType) : result Tensor :=
  view_dtype mutated_view (scalar_type base).

Definition unfold_inverse (base mutated_view : Tensor)
  (dimension size step : Z) : result Tensor :=
  unfold_backward mutated_view (sizes base) dimension size step.

Definition alias_inverse (base mutated_view : Tensor) : result Tensor :=
  Ok mutated_view.

End Inverses.
End impl.

(** ** Notions the laws are stated with *)

Import ATen impl.

(** A tensor handle is well formed when it has one stride per axis. *)
Definition wf (t : Tensor) : Prop := length (strides t) = length (sizes t).


(** Coordinate [j] of the view [b] reads coordinate [e j] of [a]. *)
Definition embeds (a b : Tensor) (e : list Z -> list Z) : Prop :=
  forall j, valid_index (sizes b) j ->
            valid_index (sizes a) (e j) /\ addr b j = addr a (e j).

(** The same handle on another buffer. *)
Definition with_storage (s : list Z) (t : Tensor) : Tensor :=
  mkTensor s (storage_offset t) (sizes t) (strides t) (scalar_type t).

Definition map_result {A B : Type} (f : A -> B) (m : result A) : result B :=
  match m with Ok a => Ok (f a) | Err e => Err e end.

(** The laws of a view operation [op] whose coordinate [j] reads the
    coordinate [e sz j] of an argument of shape [sz]: [op] only looks at
    the geometry of its argument, and distinct coordinates of the view
    read distinct coordinates of the argument. *)
Record view_law (op : Tensor -> result Tensor)
  (e : list Z -> list Z -> list Z) : Prop := {
  vl_storage : forall s t,
    op (with_storage s t) = map_result (with_storage s) (op t);
  vl_sizes : forall a a' v,
    sizes a = sizes a' -> op a = Ok v ->
    exists v', op a' = Ok v' /\ sizes v' = sizes v;
  vl_embeds : forall t v,
    wf t -> op t = Ok v -> embeds t v (e (sizes t));
  vl_inj : forall t v j j',
    op t = Ok v -> valid_index (sizes v) j -> valid_index (sizes v) j' ->
    e (sizes t) j = e (sizes t) j' -> j = j';
}.

(** The wrapped value of an axis or position that the runtime accepted. *)
Definition wrap_total (d n : Z) : Z := if d <? 0 then d + Z.max n 1 else d.

(** The coordinate of the argument that coordinate [j] of a [select],
    [slice] or [diagonal] reads. *)
Definition select_coord (sz : list Z) (d index : Z) (j : list Z) : list Z :=
  let d' := wrap_total d (Z.of_nat (length sz)) in
  insert_at (Z.to_nat d') (wrap_total index (nth_or0 sz d')) j.

Definition slice_coord (sz : list Z) (d : Z) (start end_ : option Z)
  (step : Z) (j : list Z) : list Z :=
  let d' := wrap_total d (Z.of_nat (length sz)) in
  let b := slice_bounds (nth_or0 sz d') start end_ in
  <[Z.to_nat d' := b.1 + nth_or0 j d' * step]> j.

Definition diag_size_of (n1 n2 offset : Z) : Z :=
  if offset >=? 0 then Z.max (Z.min n1 (n2 - offset)) 0
  else Z.max (Z.min (n1 + offset) n2) 0.

Definition diagonal_coord (sz : list Z) (offset dim1 dim2 : Z) (j : list Z)
  : list Z :=
  let n := Z.of_nat (length sz) in
  let d1 := wrap_total dim1 n in
  let d2 := wrap_total dim2 n in
  let k := nth_or0 j (Z.of_nat (length j) - 1) in
  let rest := take (length j - 1) j in
  let i1 := if offset >=? 0 then k else k - offset in
  let i2 := if offset >=? 0 then k + offset else k in
  insert_at (Z.to_nat (Z.max d1 d2)) (if d1 <? d2 then i2 else i1)
    (insert_at (Z.to_nat (Z.min d1 d2)) (if d1 <? d2 then i1 else i2) rest).

(** The coordinate of [squeeze()] that reads coordinate [idx]. *)
Fixpoint squeeze_index (sz idx : list Z) : list Z :=
  match sz, idx with
  | n :: sz', i :: idx' =>
      if n =? 1 then squeeze_index sz' idx' else i :: squeeze_index sz' idx'
  | _, _ => []
  end.

(** The shape [vsz] is an expansion of the shape [bsz]: it has the axes
    of [bsz] last, each with the size it has in [bsz] unless that size is
    one, and possibly more axes before them. *)
Definition expands_to (bsz vsz : list Z) : Prop :=
  (length bsz <= length vsz)%nat /\
  Forall2 (fun b n => b = n \/ b = 1)
          bsz (drop (length vsz - length bsz) vsz) /\
  Forall (fun n => 0 <= n) vsz.

(** The coordinate of the base that coordinate [j] of its expansion is a
    broadcast copy of. *)
Definition broadcast_coord (bsz j : list Z) : list Z :=
  zip_with (fun b i => if b =? 1 then 0 else i)
           bsz (drop (length j - length bsz) j).

(** The axes that [sum_to] reduces among those the two shapes share. *)
Definition reduce_mask (bsz al : list Z) : list bool :=
  zip_with (fun s n => (s =? 1) && negb (n =? 1)) bsz al.

(** A call fails with an internal assertion and returns nothing. *)
Definition fails_internally {A : Type} (m : result A) : Prop :=
  (exists msg, m = Err (InternalAssert msg)) /\ forall r, m <> Ok r.

(** *** View requests

    One constructor per view operation of the strided model, carrying the
    forward arguments. *)
Inductive ViewOp : Type :=
| Permute (dims : list Z)
| Transpose (dim0 dim1 : Z)
| T
| Squeeze
| SqueezeDim (dim_ : Z)
| Unsqueeze (dim_ : Z)
| Select (dim_ index : Z)
| Slice (dim_ : Z) (start end_ : option Z) (step : Z)
| Unbind (mutated_view_idx dim_ : Z)
| Split (mutated_view_idx split_size dim_ : Z)
| SplitWithSizes (mutated_view_idx : Z) (split_sizes : list Z) (dim_ : Z)
| Diagonal (offset dim1 dim2 : Z)
| View (size_ : list Z)
| Detach
| Alias
| NegView
| ReshapeAlias (size_ stride : list Z)
| Expand (size_ : list Z) (implicit : bool)
| Unfold (dimension size_ step : Z).

(** The forward operation of a request. *)
Definition forward (op : ViewOp) (a : Tensor) : result Tensor :=
  match op with
  | Permute dims => permute a dims
  | Transpose dim0 dim1 => transpose a dim0 dim1
  | T => t a
  | Squeeze => Ok (squeeze a)
  | SqueezeDim d => squeeze_dim a d
  | Unsqueeze d => unsqueeze a d
  | Select d index => select a d index
  | Slice d start end_ step => slice a d start end_ step
  | Unbind i d => unbind_at a i d
  | Split i split_size d => split_at a i split_size d
  | SplitWithSizes i split_sizes d => split_with_sizes_at a i split_sizes d
  | Diagonal offset dim1 dim2 => diagonal a offset dim1 dim2
  | View size_ => view a size_
  | Detach => Ok a
  | Alias => Ok a
  | NegView => Ok (_neg_view a)
  | ReshapeAlias size_ stride => _reshape_alias a size_ stride
  | Expand size_ implicit => expand a size_ implicit
  | Unfold dimension size_ step => unfold a dimension size_ step
  end.

(** The inverse of a request, as [FunctionalInverses.cpp] defines it. *)
Definition inverse (op : ViewOp) (base mutated_view : Tensor)
  : result Tensor :=
  match op with
  | Permute dims => permute_inverse base mutated_view dims
  | Transpose dim0 dim1 => transpose_inverse base mutated_view dim0 dim1
  | T => t_inverse base mutated_view
  | Squeeze => squeeze_inverse base mutated_view
  | SqueezeDim d => squeeze_inverse_dim base mutated_view d
  | Unsqueeze d => unsqueeze_inverse base mutated_view d
  | Select d index => select_inverse base mutated_view d index
  | Slice d start end_ step =>
      slice_inverse base mutated_view d start end_ step
  | Unbind i d => unbind_inverse base mutated_view i d
  | Split i split_size d => split_inverse base mutated_view i split_size d
  | SplitWithSizes i split_sizes d =>
      split_with_sizes_inverse base mutated_view i split_sizes d
  | Diagonal offset dim1 dim2 =>
      diagonal_inverse base mutated_view offset dim1 dim2
  | View size_ => view_inverse base mutated_view size_
  | Detach => detach_inverse base mutated_view
  | Alias => alias_inverse base mutated_view
  | NegView => _neg_view_inverse base mutated_view
  | ReshapeAlias size_ stride =>
      _reshape_alias_inverse base mutated_view size_ stride
  | Expand size_ implicit => expand_inverse base mutated_view size_ implicit
  | Unfold dimension size_ step =>
      unfold_inverse base mutated_view dimension size_ step
  end.

(** The requests whose inverse is a reduction rather than a write-back. *)
Definition reduces (op : ViewOp) : bool :=
  match op with Expand _ _ | Unfold _ _ _ => true | _ => false end.

(** The side conditions of a request at base [a] and mutated view [b']:
    the offsets the inverse of a split computes fit [int64_t]; for a
    [view(shape)] request the base has no negative size and the mutated
    view is contiguous, as the reshaping primitive asks of its argument
    (the base is contiguous whenever the modelled [view] accepts it); a
    [_reshape_alias(size, stride)] request is the one a reshape issues
    on a contiguous base, [size] a shape of the element count of the
    base and [stride] its row-major strides, and the mutated view is
    contiguous; the mutated view of a [_neg_view] is not a Bool tensor,
    on which negation is not defined. *)
Definition representable (op : ViewOp) (a b' : Tensor) : Prop :=
  match op with
  | Split i split_size _ => c10.int64_range ((i + 1) * split_size)
  | SplitWithSizes _ split_sizes _ => c10.int64_range (sumZ split_sizes)
  | View _ =>
      Forall (fun n => 0 <= n) (sizes a) /\ is_contiguous b' = true
  | NegView => scalar_type b' <> Bool
  | ReshapeAlias size_ stride =>
      is_contiguous a = true /\
      Forall (fun n => 0 <= n) size_ /\
      numel_of size_ = numel_of (sizes a) /\
      stride = contiguous_strides size_ /\
      is_contiguous b' = true
  | _ => True
  end.


(** *** Sample tensors *)

(** A contiguous tensor of the given shape holding [0, 1, 2, ...]. *)
Definition arange (sz : list Z) : Tensor :=
  mkTensor (seqZ 0 (numel_of sz)) 0 sz (contiguous_strides sz) Float.

(** A contiguous tensor of the given shape and content. *)
Definition tensor_of (sz data : list Z) : Tensor :=
  mkTensor data 0 sz (contiguous_strides sz) Float.

(** ** Basic facts about outcomes and dimension wrapping *)

Lemma bind_ok_inv {A B : Type} (m : result A) (k : A -> result B) (b : B) :
  bind m k = Ok b -> exists a, m = Ok a /\ k a = Ok b.
Proof. destruct m as [a|e]; simpl; [eauto | discriminate]. Qed.

Lemma check_ok_inv (b : bool) (e : Error) (u : unit) :
  check b e = Ok u -> b = true.
Proof. destruct b; [reflexivity | discriminate]. Qed.

(** Inverts hypotheses of the shape [(let! x := m in k) = Ok r]. *)
Ltac inv_ok :=
  repeat match goal with
  | H : bind _ _ = Ok _ |- _ =>
      let a := fresh "a" in
      let Ha := fresh "Ha" in
      apply bind_ok_inv in H; destruct H as (a & Ha & H)
  | H : check _ _ = Ok _ |- _ => apply check_ok_inv in H
  | H : Ok _ = Ok _ |- _ => injection H as H
  | H : Err _ = Ok _ |- _ => discriminate H
  end.

Lemma wrap64_id (z : Z) : c10.int64_range z -> c10.wrap64 z = z.
Proof.
  unfold c10.int64_range, c10.wrap64. intros H.
  rewrite Z.mod_small by lia. lia.
Qed.

Lemma maybe_wrap_dim_ok (dim n d : Z) :
  c10.maybe_wrap_dim dim n = Ok d ->
  - Z.max n 1 <= dim < Z.max n 1 /\
  d = (if dim <? 0 then dim + Z.max n 1 else dim) /\
  0 <= d < Z.max n 1.
Proof.
  unfold c10.maybe_wrap_dim, c10.maybe_wrap_dim_gen. intros H. inv_ok.
  apply negb_true_iff, orb_false_iff in Ha0. destruct Ha0 as [H1 H2].
  subst d.
  destruct (Z.leb_spec n 0); destruct (Z.ltb_spec dim 0); lia.
Qed.

Lemma maybe_wrap_dim_nonneg (dim n : Z) :
  0 <= dim < n -> c10.maybe_wrap_dim dim n = Ok dim.
Proof.
  intros H. unfold c10.maybe_wrap_dim, c10.maybe_wrap_dim_gen.
  destruct (Z.leb_spec n 0); [lia|]. simpl.
  destruct (Z.ltb_spec dim (- n)); [lia|].
  destruct (Z.gtb_spec dim (n - 1)); [lia|]. simpl.
  destruct (Z.ltb_spec dim 0); [lia | reflexivity].
Qed.

Lemma at_index_lookup (l : list Z) (i : Z) (x : Z) :
  0 <= i -> l !! Z.to_nat i = Some x -> c10.at_index l i = Ok x.
Proof.
  intros Hi Hl. unfold c10.at_index.
  destruct (Z.ltb_spec i 0); [lia|]. rewrite Hl. reflexivity.
Qed.

(** ** Lemmas about the tensor model *)

(** *** Partition offsets *)

Lemma sumZ_take_S (l : list Z) (k : nat) (x : Z) :
  l !! k = Some x -> sumZ (take (S k) l) = sumZ (take k l) + x.
Proof.
  revert k. induction l as [|y l IH]; intros [|k] Hk; simpl in *; try discriminate.
  - injection Hk as ->. lia.
  - rewrite (IH _ Hk). lia.
Qed.

Lemma split_start_spec (l : list Z) (i idx start : Z) :
  i <= idx ->
  idx - i <= Z.of_nat (length l) ->
  (forall k, (k <= Z.to_nat (idx - i))%nat ->
             c10.int64_range (start + sumZ (take k l))) ->
  split_start l i idx start = Ok (start + sumZ (take (Z.to_nat (idx - i)) l)).
Proof.
  revert i start. induction l as [|s l IH]; intros i start Hi Hlen Hr.
  - simpl in Hlen. assert (idx = i) as -> by lia. simpl.
    destruct (Z.ltb_spec i i); [lia|]. rewrite take_nil. simpl. f_equal. lia.
  - simpl split_start. destruct (Z.ltb_spec i idx) as [Hlt|Hge].
    + rewrite IH.
      * replace (Z.to_nat (idx - i)) with (S (Z.to_nat (idx - (i + 1)))) by lia.
        simpl. unfold c10.add64. rewrite wrap64_id.
        -- f_equal. lia.
        -- specialize (Hr 1%nat ltac:(lia)). simpl in Hr.
           replace (start + s) with (start + (s + 0)) by lia. exact Hr.
      * lia.
      * simpl in Hlen. lia.
      * intros k Hk. unfold c10.add64. rewrite wrap64_id.
        -- specialize (Hr (S k) ltac:(lia)). simpl in Hr.
           replace (start + s + sumZ (take k l)) with (start + (s + sumZ (take k l))) by lia.
           exact Hr.
        -- specialize (Hr 1%nat ltac:(lia)). simpl in Hr.
           replace (start + s) with (start + (s + 0)) by lia. exact Hr.
    + assert (idx = i) as -> by lia. replace (i - i) with 0 by lia.
      simpl. f_equal. lia.
Qed.

Lemma clip_min (e n : Z) : (if e >? n then n else e) = Z.min n e.
Proof. destruct (Z.gtb_spec e n); lia. Qed.

(** *** Coordinates and row-major offsets *)

Lemma valid_index_length (sz idx : list Z) :
  valid_index sz idx -> length idx = length sz.
Proof. apply Forall2_length. Qed.

Lemma valid_index_nil_inv (idx : list Z) : valid_index [] idx -> idx = [].
Proof. intros H. inversion H. reflexivity. Qed.

Lemma valid_index_cons_inv (n : Z) (sz idx : list Z) :
  valid_index (n :: sz) idx ->
  exists i idx', idx = i :: idx' /\ 0 <= i < n /\ valid_index sz idx'.
Proof. intros H. inversion H; subst. eauto. Qed.

Lemma elem_of_all_indices (sz idx : list Z) :
  idx ∈ all_indices sz <-> valid_index sz idx.
Proof.
  revert idx. induction sz as [|n sz IH]; intros idx; simpl.
  - rewrite list_elem_of_singleton. split.
    + intros ->. constructor.
    + apply valid_index_nil_inv.
  - rewrite list_elem_of_In, in_flat_map. split.
    + intros (i & Hi & Hidx). apply list_elem_of_In, elem_of_seqZ in Hi.
      apply list_elem_of_In, list_elem_of_fmap in Hidx.
      destruct Hidx as (idx' & -> & Hidx'). apply IH in Hidx'.
      constructor; [lia | exact Hidx'].
    + intros H. apply valid_index_cons_inv in H.
      destruct H as (i & idx' & -> & Hi & Hidx').
      exists i. split.
      * apply list_elem_of_In, elem_of_seqZ. lia.
      * apply list_elem_of_In, list_elem_of_fmap. exists idx'.
        split; [reflexivity | apply IH; exact Hidx'].
Qed.

Lemma stride_prod_pos (sz : list Z) : 0 < stride_prod sz.
Proof. induction sz as [|n sz IH]; simpl; [lia | nia]. Qed.

Lemma stride_prod_numel (sz : list Z) :
  Forall (fun n => 0 < n) sz -> stride_prod sz = numel_of sz.
Proof.
  induction 1 as [|n sz Hn _ IH]; simpl; [reflexivity|].
  rewrite IH. f_equal. lia.
Qed.

Lemma valid_index_sizes_pos (sz idx : list Z) :
  valid_index sz idx -> Forall (fun n => 0 < n) sz.
Proof.
  induction 1 as [|i n idx sz Hi _ IH]; constructor; [lia | exact IH].
Qed.

Lemma ravel_bounds (sz idx : list Z) :
  valid_index sz idx ->
  0 <= dot idx (contiguous_strides sz) < stride_prod sz.
Proof.
  induction 1 as [|i n idx sz Hi _ IH]; simpl; [lia|].
  pose proof (stride_prod_pos sz). nia.
Qed.

Lemma unravel_ravel (sz idx : list Z) :
  valid_index sz idx ->
  unravel sz (dot idx (contiguous_strides sz)) = idx.
Proof.
  induction 1 as [|i n idx sz Hi Hv IH]; simpl; [reflexivity|].
  pose proof (ravel_bounds sz idx Hv) as Hb.
  pose proof (stride_prod_pos sz) as Hp.
  f_equal.
  - rewrite Z.add_comm, Z.div_add by lia.
    rewrite Z.div_small by lia. lia.
  - rewrite Z.add_comm, Z_mod_plus_full.
    rewrite Z.mod_small by lia. exact IH.
Qed.

Lemma ravel_inj (sz idx idx' : list Z) :
  valid_index sz idx -> valid_index sz idx' ->
  dot idx (contiguous_strides sz) = dot idx' (contiguous_strides sz) ->
  idx = idx'.
Proof.
  intros H H' Heq.
  rewrite <- (unravel_ravel sz idx H), <- (unravel_ravel sz idx' H').
  rewrite Heq. reflexivity.
Qed.

Lemma ravel_lt_numel (sz idx : list Z) :
  valid_index sz idx ->
  0 <= dot idx (contiguous_strides sz) < numel_of sz.
Proof.
  intros H. rewrite <- (stride_prod_numel sz).
  - apply ravel_bounds. exact H.
  - eapply valid_index_sizes_pos. exact H.
Qed.

(** *** Reading, fresh tensors and copies *)

Lemma read_lookup (s : list Z) (a : Z) (x : Z) :
  0 <= a -> s !! Z.to_nat a = Some x -> read s a = x.
Proof.
  intros Ha Hx. unfold read. destruct (Z.ltb_spec a 0); [lia|].
  rewrite Hx. reflexivity.
Qed.

Lemma get_materialize (sz : list Z) (ty : ScalarType) (f : list Z -> Z)
  (idx : list Z) :
  valid_index sz idx -> get (materialize sz ty f) idx = f idx.
Proof.
  intros H. unfold get, addr, materialize.
  cbn [storage storage_offset strides]. rewrite Z.add_0_l.
  pose proof (ravel_lt_numel sz idx H) as Hb.
  apply read_lookup; [lia|].
  rewrite list_lookup_fmap, lookup_seq_lt by lia. cbn [fmap option_fmap option_map plus].
  rewrite Z2Nat.id by lia. rewrite unravel_ravel by exact H. reflexivity.
Qed.

Lemma get_clone (t : Tensor) (idx : list Z) :
  valid_index (sizes t) idx -> get (clone t) idx = get t idx.
Proof. apply get_materialize. Qed.

Lemma read_copy_ (out v src : Tensor) (a : Z) :
  0 <= a < Z.of_nat (length (storage out)) ->
  read (storage (copy_ out v src)) a
  = match find (fun j => addr v j =? a) (all_indices (sizes v)) with
    | Some j => get src j
    | None => read (storage out) a
    end.
Proof.
  intros Ha. unfold copy_. cbn [storage].
  destruct (lookup_lt_is_Some_2 (storage out) (Z.to_nat a)) as [x Hx]; [lia|].
  rewrite (read_lookup (storage out) a x) by (lia || exact Hx).
  apply read_lookup; [lia|].
  rewrite list_lookup_imap, Hx. cbn. rewrite Z2Nat.id by lia. reflexivity.
Qed.

Lemma length_storage_materialize sz ty f :
  Z.of_nat (length (storage (materialize sz ty f))) = Z.max 0 (numel_of sz).
Proof.
  unfold materialize. cbn [storage]. rewrite length_map, length_seq. lia.
Qed.

Lemma scatter_spec (base v src : Tensor) (e : list Z -> list Z) :
  embeds (clone base) v e ->
  (forall j j', valid_index (sizes v) j -> valid_index (sizes v) j' ->
                e j = e j' -> j = j') ->
  (forall j, valid_index (sizes v) j ->
             get (copy_ (clone base) v src) (e j) = get src j) /\
  (forall idx, valid_index (sizes base) idx ->
               (forall j, valid_index (sizes v) j -> e j <> idx) ->
               get (copy_ (clone base) v src) idx = get base idx).
Proof.
  intros He Hinj.
  assert (Hrd : forall idx, valid_index (sizes base) idx ->
     get (copy_ (clone base) v src) idx
     = match find (fun j => addr v j =? addr (clone base) idx)
                  (all_indices (sizes v)) with
       | Some j => get src j
       | None => get base idx
       end).
  { intros idx Hidx. unfold get at 1.
    change (addr (copy_ (clone base) v src) idx) with (addr (clone base) idx).
    pose proof (ravel_lt_numel _ _ Hidx) as Hb.
    rewrite read_copy_.
    - change (read (storage (clone base)) (addr (clone base) idx))
        with (get (clone base) idx).
      rewrite get_clone by exact Hidx. reflexivity.
    - unfold clone. rewrite length_storage_materialize.
      unfold addr. cbn. lia. }
  split.
  - intros j Hj. destruct (He j Hj) as [Hv Ha].
    rewrite Hrd by exact Hv.
    destruct (find _ _) as [j'|] eqn:Hf.
    + apply find_some in Hf. destruct Hf as [Hin Heq].
      apply list_elem_of_In, elem_of_all_indices in Hin.
      apply Z.eqb_eq in Heq. destruct (He j' Hin) as [Hv' Ha'].
      rewrite Ha' in Heq. unfold addr, clone in Heq. cbn in Heq.
      apply ravel_inj in Heq; [|assumption..].
      rewrite (Hinj j' j Hin Hj Heq). reflexivity.
    + exfalso. eapply find_none in Hf.
      2:{ apply list_elem_of_In, elem_of_all_indices. exact Hj. }
      cbn in Hf. apply Z.eqb_neq in Hf. congruence.
  - intros idx Hidx Hne. rewrite Hrd by exact Hidx.
    destruct (find _ _) as [j'|] eqn:Hf; [|reflexivity].
    exfalso. apply find_some in Hf. destruct Hf as [Hin Heq].
    apply list_elem_of_In, elem_of_all_indices in Hin.
    apply Z.eqb_eq in Heq. destruct (He j' Hin) as [Hv' Ha'].
    rewrite Ha' in Heq. unfold addr, clone in Heq. cbn in Heq.
    apply ravel_inj in Heq; [|assumption..].
    exact (Hne j' Hin Heq).
Qed.

(** *** Inserting and deleting an axis *)

Lemma dot_app (i1 i2 s1 s2 : list Z) :
  length i1 = length s1 ->
  dot (i1 ++ i2) (s1 ++ s2) = dot i1 s1 + dot i2 s2.
Proof.
  revert s1. induction i1 as [|i i1 IH]; intros [|s s1] Hlen;
    simpl in *; try discriminate; [reflexivity|].
  rewrite IH by lia. lia.
Qed.

Lemma dot_insert_at (d : nat) (i s : Z) (idx st : list Z) :
  length idx = length st ->
  dot (insert_at d i idx) (insert_at d s st) = i * s + dot idx st.
Proof.
  intros Hlen. unfold insert_at.
  rewrite dot_app by (rewrite !length_take; lia). simpl.
  rewrite <- (take_drop d idx) at 3. rewrite <- (take_drop d st) at 3.
  rewrite dot_app by (rewrite !length_take; lia). lia.
Qed.

Lemma insert_at_delete (d : nat) (x : Z) (l : list Z) :
  l !! d = Some x -> insert_at d x (delete d l) = l.
Proof.
  intros Hx. unfold insert_at. rewrite delete_take_drop.
  pose proof (lookup_lt_Some _ _ _ Hx) as Hd.
  rewrite take_app_length' by (rewrite length_take; lia).
  rewrite drop_app_length' by (rewrite length_take; lia).
  apply take_drop_middle. exact Hx.
Qed.

Lemma delete_insert_at (d : nat) (x : Z) (l : list Z) :
  (d <= length l)%nat -> delete d (insert_at d x l) = l.
Proof.
  intros Hd. unfold insert_at.
  rewrite delete_take_drop.
  rewrite take_app_length' by (rewrite length_take; lia).
  rewrite (cons_middle x), app_assoc.
  rewrite drop_app_length' by (rewrite length_app, length_take; simpl; lia).
  apply take_drop.
Qed.

Lemma lookup_insert_at (d : nat) (x : Z) (l : list Z) :
  (d <= length l)%nat -> insert_at d x l !! d = Some x.
Proof.
  intros Hd. unfold insert_at.
  rewrite lookup_app_r by (rewrite length_take; lia).
  rewrite length_take. replace (d - d `min` length l)%nat with 0%nat by lia.
  reflexivity.
Qed.

Lemma length_insert_at (d : nat) (x : Z) (l : list Z) :
  length (insert_at d x l) = S (length l).
Proof.
  unfold insert_at. rewrite length_app. simpl. rewrite length_take, length_drop. lia.
Qed.

Lemma dot_delete (d : nat) (idx st : list Z) (i s : Z) :
  length idx = length st ->
  idx !! d = Some i -> st !! d = Some s ->
  dot (delete d idx) (delete d st) = dot idx st - i * s.
Proof.
  intros Hlen Hi Hs.
  rewrite <- (insert_at_delete d i idx Hi) at 2.
  rewrite <- (insert_at_delete d s st Hs) at 2.
  rewrite dot_insert_at by (rewrite !length_delete; eauto; lia). lia.
Qed.

Lemma valid_index_insert_at (d : nat) (i n : Z) (sz idx : list Z) :
  0 <= i < n -> valid_index sz idx ->
  valid_index (insert_at d n sz) (insert_at d i idx).
Proof.
  intros Hi Hv. unfold insert_at, valid_index in *.
  apply Forall2_app; [apply Forall2_take; exact Hv|].
  constructor; [exact Hi | apply Forall2_drop; exact Hv].
Qed.

Lemma valid_index_delete (d : nat) (sz idx : list Z) :
  valid_index sz idx -> valid_index (delete d sz) (delete d idx).
Proof. apply Forall2_delete. Qed.

Lemma valid_index_lookup (sz idx : list Z) (d : nat) (n i : Z) :
  valid_index sz idx -> sz !! d = Some n -> idx !! d = Some i -> 0 <= i < n.
Proof.
  intros Hv Hn Hi. eapply Forall2_lookup_lr in Hv; eauto.
Qed.

Lemma insert_at_inj (d : nat) (x : Z) (l l' : list Z) :
  length l = length l' -> insert_at d x l = insert_at d x l' -> l = l'.
Proof.
  intros Hlen H. unfold insert_at in H.
  apply app_inj_1 in H; [|rewrite !length_take; lia].
  destruct H as [H1 H2]. injection H2 as H2.
  rewrite <- (take_drop d l), <- (take_drop d l'). congruence.
Qed.

Lemma nth_or0_lookup_lt (l : list Z) (d : Z) :
  0 <= d < Z.of_nat (length l) -> l !! Z.to_nat d = Some (nth_or0 l d).
Proof.
  intros Hd. unfold nth_or0.
  destruct (lookup_lt_is_Some_2 l (Z.to_nat d)) as [x Hx]; [lia|].
  rewrite Hx. reflexivity.
Qed.

(** *** Region views: select *)

Lemma select_ok_inv (t v : Tensor) (d index : Z) :
  select t d index = Ok v ->
  let d' := wrap_total d (dim t) in
  let n := nth_or0 (sizes t) d' in
  0 <= d' < dim t /\
  0 <= wrap_total index n < n /\
  v = with_geometry t
        (storage_offset t + wrap_total index n * nth_or0 (strides t) d')
        (delete (Z.to_nat d') (sizes t)) (delete (Z.to_nat d') (strides t)).
Proof.
  unfold select. intros H. inv_ok.
  apply negb_true_iff, Z.eqb_neq in Ha.
  apply maybe_wrap_dim_ok in Ha0. destruct Ha0 as (Hr & -> & Hd).
  apply andb_true_iff in Ha1. destruct Ha1 as [H1 H2].
  apply Z.leb_le in H1. apply Z.ltb_lt in H2.
  assert (Hdim : 0 <= dim t) by (unfold dim; lia).
  fold (wrap_total d (dim t)) in *. cbv zeta.
  set (d' := wrap_total d (dim t)) in *.
  set (n := nth_or0 (sizes t) d') in *.
  assert (Hw : wrap_total index n = if index <? 0 then index + n else index).
  { unfold wrap_total. destruct (Z.ltb_spec index 0); [|reflexivity].
    f_equal. lia. }
  rewrite Hw. split; [lia|]. split.
  - destruct (Z.ltb_spec index 0); lia.
  - symmetry. exact H.
Qed.

Lemma select_embeds (t v : Tensor) (d index : Z) :
  wf t -> select t d index = Ok v ->
  embeds t v (select_coord (sizes t) d index).
Proof.
  intros Hwf H. apply select_ok_inv in H. cbv zeta in H.
  destruct H as (Hd & Hi & ->).
  intros j Hj. unfold select_coord. fold (dim t).
  set (d' := wrap_total d (dim t)) in *.
  set (i' := wrap_total index (nth_or0 (sizes t) d')) in *.
  cbn [sizes with_geometry] in Hj.
  pose proof (nth_or0_lookup_lt (sizes t) d' Hd) as Hn.
  assert (Hs : strides t !! Z.to_nat d' = Some (nth_or0 (strides t) d')).
  { apply nth_or0_lookup_lt. rewrite Hwf. exact Hd. }
  split.
  - rewrite <- (insert_at_delete _ _ _ Hn).
    apply valid_index_insert_at; assumption.
  - unfold addr. cbn [storage_offset strides with_geometry].
    rewrite <- (insert_at_delete _ _ _ Hs) at 3.
    rewrite dot_insert_at.
    + lia.
    + apply valid_index_length in Hj. rewrite Hj, !length_delete; eauto.
Qed.

Lemma select_coord_inj (sz : list Z) (d index : Z) (j j' : list Z) :
  length j = length j' ->
  select_coord sz d index j = select_coord sz d index j' -> j = j'.
Proof. intros Hlen. unfold select_coord. apply insert_at_inj. exact Hlen. Qed.

Ltac case_binds :=
  repeat match goal with
  | |- context [bind ?m _] =>
      match m with
      | context [bind _ _] => fail 1
      | _ => destruct m; cbn [bind map_result]; try reflexivity
      end
  end.

Lemma select_with_storage (s : list Z) (t : Tensor) (d index : Z) :
  select (with_storage s t) d index
  = map_result (with_storage s) (select t d index).
Proof.
  unfold select. change (dim (with_storage s t)) with (dim t).
  cbn [sizes strides storage_offset with_storage].
  case_binds.
Qed.

(** *** The scatter kernels *)

Lemma wf_clone (t : Tensor) : wf (clone t).
Proof.
  unfold wf, clone, materialize. cbn [sizes strides].
  induction (sizes t) as [|n sz IH]; simpl; congruence.
Qed.

Lemma tensor_eq_refl (a : Tensor) : tensor_eq a a.
Proof. split; reflexivity. Qed.

Lemma scatter_through_spec op e (base src b : Tensor) :
  view_law op e ->
  op base = Ok b ->
  sizes src = sizes b ->
  exists r v',
    scatter_through op base src = Ok r /\
    sizes r = sizes base /\
    op r = Ok v' /\
    tensor_eq v' src /\
    (forall j, valid_index (sizes b) j ->
               get r (e (sizes base) j) = get src j) /\
    (forall idx, valid_index (sizes base) idx ->
                 (forall j, valid_index (sizes b) j ->
                            e (sizes base) j <> idx) ->
                 get r idx = get base idx).
Proof.
  intros L Hop Hsz.
  destruct (vl_sizes _ _ L base (clone base) b eq_refl Hop) as (v & Hv & Hvs).
  pose proof (vl_embeds _ _ L (clone base) v (wf_clone base) Hv) as He.
  change (sizes (clone base)) with (sizes base) in He.
  assert (Hinj : forall j j', valid_index (sizes v) j ->
            valid_index (sizes v) j' ->
            e (sizes base) j = e (sizes base) j' -> j = j').
  { intros j j'. apply (vl_inj _ _ L (clone base) v j j' Hv). }
  destruct (scatter_spec base v src (e (sizes base)) He Hinj) as [Hget Hframe].
  exists (copy_ (clone base) v src).
  exists (with_storage (storage (copy_ (clone base) v src)) v).
  split; [|split; [|split; [|split; [|split]]]].
  - unfold scatter_through. cbv zeta. rewrite Hv. cbn [bind].
    rewrite bool_decide_eq_true_2 by congruence. reflexivity.
  - reflexivity.
  - change (copy_ (clone base) v src)
      with (with_storage (storage (copy_ (clone base) v src)) (clone base)) at 1.
    rewrite (vl_storage _ _ L), Hv. reflexivity.
  - split; [cbn [sizes with_storage]; congruence|].
    intros j Hj. cbn [sizes with_storage] in Hj.
    rewrite <- (Hget j Hj).
    destruct (He j Hj) as [_ Ha].
    unfold get. cbn [storage with_storage].
    change (addr (with_storage _ v) j) with (addr v j).
    rewrite Ha. reflexivity.
  - intros j Hj. apply Hget. rewrite Hvs. exact Hj.
  - intros idx Hidx Hne. apply Hframe; [exact Hidx|].
    intros j Hj. apply Hne. rewrite <- Hvs. exact Hj.
Qed.

(** *** The laws of select *)

(** Transport of a successful call along equal shapes. *)
Ltac transport_binds H :=
  repeat match type of H with
  | bind ?m _ = Ok _ =>
      let E := fresh "E" in
      destruct m eqn:E; cbn [bind] in H |- *; [|discriminate H]
  end.

Lemma select_sizes (a a' v : Tensor) (d index : Z) :
  sizes a = sizes a' -> select a d index = Ok v ->
  exists v', select a' d index = Ok v' /\ sizes v' = sizes v.
Proof.
  intros Hsz H. unfold select, dim in *. rewrite <- Hsz.
  transport_binds H. injection H as <-.
  eexists. split; [reflexivity|]. cbn [sizes with_geometry]. congruence.
Qed.

Lemma select_view_law (d index : Z) :
  view_law (fun t => select t d index) (fun sz => select_coord sz d index).
Proof.
  split.
  - intros. apply select_with_storage.
  - intros. eapply select_sizes; eauto.
  - intros. apply select_embeds; assumption.
  - intros t v j j' _ Hj Hj'. apply select_coord_inj.
    apply valid_index_length in Hj, Hj'. congruence.
Qed.

(** *** Region views: slice *)

Lemma dot_insert_l (d : nat) (x i s : Z) (idx st : list Z) :
  idx !! d = Some i -> st !! d = Some s ->
  dot (<[d := x]> idx) st = dot idx st + (x - i) * s.
Proof.
  revert d st. induction idx as [|i0 idx IH]; intros [|d] [|s0 st] Hi Hs;
    simpl in *; try discriminate.
  - injection Hi as ->. injection Hs as ->. lia.
  - rewrite (IH d st Hi Hs). lia.
Qed.

Lemma dot_insert_r (d : nat) (x i s : Z) (idx st : list Z) :
  idx !! d = Some i -> st !! d = Some s ->
  dot idx (<[d := x]> st) = dot idx st + i * (x - s).
Proof.
  revert d st. induction idx as [|i0 idx IH]; intros [|d] [|s0 st] Hi Hs;
    simpl in *; try discriminate.
  - injection Hi as ->. injection Hs as ->. lia.
  - rewrite (IH d st Hi Hs). lia.
Qed.

Lemma slice_bounds_spec (n : Z) (start end_ : option Z) :
  let b := slice_bounds n start end_ in
  b.1 < b.2 -> 0 <= b.1 /\ b.2 <= n.
Proof.
  unfold slice_bounds, INT64_MAX. cbn [fst snd].
  generalize (default 0 start) (default (2 ^ 63 - 1) end_). intros s0 e0.
  repeat match goal with
  | |- context [?a <? ?b] => destruct (Z.ltb_spec a b)
  | |- context [?a >=? ?b] => destruct (Z.geb_spec a b)
  | |- context [?a =? ?b] => destruct (Z.eqb_spec a b)
  end; lia.
Qed.

Lemma slice_steps (len step k : Z) :
  0 < step -> 0 <= k < (len + step - 1) / step -> k * step < len.
Proof.
  intros Hs [Hk0 Hk].
  assert (k + 1 <= (len + step - 1) / step) by lia.
  assert ((k + 1) * step <= len + step - 1).
  { etransitivity; [apply Z.mul_le_mono_nonneg_r; [lia|eassumption]|].
    rewrite Z.mul_comm. apply Z.mul_div_le. lia. }
  lia.
Qed.

Lemma slice_ok_inv (t v : Tensor) (d : Z) (start end_ : option Z) (step : Z) :
  slice t d start end_ step = Ok v ->
  let d' := wrap_total d (dim t) in
  let b := slice_bounds (nth_or0 (sizes t) d') start end_ in
  0 <= d' < dim t /\ 0 < step /\
  v = with_geometry t
        (storage_offset t + b.1 * nth_or0 (strides t) d')
        (<[Z.to_nat d' := (b.2 - b.1 + step - 1) / step]> (sizes t))
        (<[Z.to_nat d' := nth_or0 (strides t) d' * step]> (strides t)).
Proof.
  unfold slice. intros H. inv_ok.
  apply negb_true_iff, Z.eqb_neq in Ha.
  apply maybe_wrap_dim_ok in Ha0. destruct Ha0 as (Hr & -> & Hd).
  apply Z.ltb_lt in Ha1.
  assert (Hdim : 0 <= dim t) by (unfold dim; lia).
  fold (wrap_total d (dim t)) in *. cbv zeta.
  split; [lia|]. split; [exact Ha1|]. symmetry. exact H.
Qed.

Lemma slice_embeds (t v : Tensor) (d : Z) (start end_ : option Z) (step : Z) :
  wf t -> slice t d start end_ step = Ok v ->
  embeds t v (slice_coord (sizes t) d start end_ step).
Proof.
  intros Hwf H. apply slice_ok_inv in H. cbv zeta in H.
  destruct H as (Hd & Hstep & ->).
  intros j Hj. unfold slice_coord. fold (dim t).
  set (d' := wrap_total d (dim t)) in *.
  set (b := slice_bounds (nth_or0 (sizes t) d') start end_) in *.
  cbn [sizes with_geometry] in Hj.
  pose proof (nth_or0_lookup_lt (sizes t) d' Hd) as Hn.
  assert (Hs : strides t !! Z.to_nat d' = Some (nth_or0 (strides t) d')).
  { apply nth_or0_lookup_lt. rewrite Hwf. exact Hd. }
  assert (Hjd : j !! Z.to_nat d' = Some (nth_or0 j d')).
  { apply nth_or0_lookup_lt. apply valid_index_length in Hj.
    rewrite Hj, length_insert. exact Hd. }
  assert (Hk : 0 <= nth_or0 j d' < (b.2 - b.1 + step - 1) / step).
  { eapply valid_index_lookup; [exact Hj| |exact Hjd].
    apply list_lookup_insert_eq. unfold dim in Hd. lia. }
  pose proof (slice_steps _ _ _ Hstep Hk) as Hlt.
  pose proof (slice_bounds_spec (nth_or0 (sizes t) d') start end_) as Hb.
  cbv zeta in Hb. fold b in Hb.
  split.
  - rewrite <- (list_insert_id (sizes t) (Z.to_nat d') _ Hn).
    rewrite <- (list_insert_insert_eq (sizes t) (Z.to_nat d') _
                  ((b.2 - b.1 + step - 1) / step)).
    apply Forall2_insert; [exact Hj|]. nia.
  - unfold addr. cbn [storage_offset strides with_geometry].
    rewrite (dot_insert_r _ _ _ _ _ _ Hjd Hs).
    rewrite (dot_insert_l _ _ _ _ _ _ Hjd Hs). lia.
Qed.

Lemma slice_coord_inj (t v : Tensor) (d : Z) (start end_ : option Z)
  (step : Z) (j j' : list Z) :
  slice t d start end_ step = Ok v ->
  valid_index (sizes v) j -> valid_index (sizes v) j' ->
  slice_coord (sizes t) d start end_ step j
  = slice_coord (sizes t) d start end_ step j' ->
  j = j'.
Proof.
  intros H Hj Hj' Heq. apply slice_ok_inv in H. cbv zeta in H.
  destruct H as (Hd & Hstep & ->). cbn [sizes with_geometry] in Hj, Hj'.
  unfold slice_coord in Heq. fold (dim t) in Heq.
  set (d' := wrap_total d (dim t)) in *.
  set (b := slice_bounds (nth_or0 (sizes t) d') start end_) in *.
  apply valid_index_length in Hj, Hj'. rewrite length_insert in Hj, Hj'.
  assert (Hjd : j !! Z.to_nat d' = Some (nth_or0 j d')).
  { apply nth_or0_lookup_lt. rewrite Hj. exact Hd. }
  assert (Hjd' : j' !! Z.to_nat d' = Some (nth_or0 j' d')).
  { apply nth_or0_lookup_lt. rewrite Hj'. exact Hd. }
  apply list_eq. intros k.
  destruct (decide (k = Z.to_nat d')) as [->|Hk].
  - apply (f_equal (fun l => l !! Z.to_nat d')) in Heq.
    rewrite !list_lookup_insert_eq in Heq by (unfold dim in Hd; lia).
    injection Heq as Heq. rewrite Hjd, Hjd'. f_equal. nia.
  - apply (f_equal (fun l => l !! k)) in Heq.
    rewrite !list_lookup_insert_ne in Heq by congruence. exact Heq.
Qed.

Lemma slice_with_storage (s : list Z) (t : Tensor) (d : Z)
  (start end_ : option Z) (step : Z) :
  slice (with_storage s t) d start end_ step
  = map_result (with_storage s) (slice t d start end_ step).
Proof.
  unfold slice. change (dim (with_storage s t)) with (dim t).
  cbn [sizes strides storage_offset with_storage].
  case_binds.
Qed.

Lemma slice_sizes (a a' v : Tensor) (d : Z) (start end_ : option Z)
  (step : Z) :
  sizes a = sizes a' -> slice a d start end_ step = Ok v ->
  exists v', slice a' d start end_ step = Ok v' /\ sizes v' = sizes v.
Proof.
  intros Hsz H. unfold slice, dim in *. rewrite <- Hsz.
  transport_binds H. injection H as <-.
  eexists. split; reflexivity.
Qed.

Lemma slice_view_law (d : Z) (start end_ : option Z) (step : Z) :
  view_law (fun t => slice t d start end_ step)
           (fun sz => slice_coord sz d start end_ step).
Proof.
  split.
  - intros. apply slice_with_storage.
  - intros. eapply slice_sizes; eauto.
  - intros. apply slice_embeds; assumption.
  - intros. eapply slice_coord_inj; eauto.
Qed.

(** *** Region views: diagonal *)

Lemma insert_at_eq_inv (d : nat) (x x' : Z) (l l' : list Z) :
  length l = length l' ->
  insert_at d x l = insert_at d x' l' -> x = x' /\ l = l'.
Proof.
  intros Hlen H. unfold insert_at in H.
  apply app_inj_1 in H; [|rewrite !length_take; lia].
  destruct H as [H1 H2]. injection H2 as Hx H2. split; [exact Hx|].
  rewrite <- (take_drop d l), <- (take_drop d l'). congruence.
Qed.

Lemma valid_index_snoc_inv (sz : list Z) (n : Z) (j : list Z) :
  valid_index (sz ++ [n]) j ->
  exists rest k, j = rest ++ [k] /\ valid_index sz rest /\ 0 <= k < n.
Proof.
  intros H. apply Forall2_app_inv_r in H.
  destruct H as (rest & l & Hrest & Hl & ->).
  inversion Hl as [|k ? l' ? Hk Hnil]; subst. inversion Hnil; subst.
  exists rest, k. auto.
Qed.

Lemma snoc_parts (rest : list Z) (k : Z) :
  take (length (rest ++ [k]) - 1) (rest ++ [k]) = rest /\
  nth_or0 (rest ++ [k]) (Z.of_nat (length (rest ++ [k])) - 1) = k.
Proof.
  rewrite length_app. simpl. split.
  - replace (length rest + 1 - 1)%nat with (length rest) by lia.
    apply take_app_length.
  - unfold nth_or0.
    replace (Z.to_nat (Z.of_nat (length rest + 1) - 1)) with (length rest) by lia.
    rewrite list_lookup_middle; reflexivity.
Qed.

Lemma diagonal_ok_inv (t v : Tensor) (offset dim1 dim2 : Z) :
  diagonal t offset dim1 dim2 = Ok v ->
  let d1 := wrap_total dim1 (dim t) in
  let d2 := wrap_total dim2 (dim t) in
  let ds := diag_size_of (nth_or0 (sizes t) d1) (nth_or0 (sizes t) d2) offset in
  0 <= d1 < dim t /\ 0 <= d2 < dim t /\ d1 <> d2 /\
  v = with_geometry t
        (if ds =? 0 then storage_offset t
         else if offset >=? 0
              then storage_offset t + offset * nth_or0 (strides t) d2
              else storage_offset t - offset * nth_or0 (strides t) d1)
        (delete (Z.to_nat (Z.min d1 d2))
           (delete (Z.to_nat (Z.max d1 d2)) (sizes t)) ++ [ds])
        (delete (Z.to_nat (Z.min d1 d2))
           (delete (Z.to_nat (Z.max d1 d2)) (strides t))
         ++ [nth_or0 (strides t) d1 + nth_or0 (strides t) d2]).
Proof.
  unfold diagonal. intros H. inv_ok.
  apply maybe_wrap_dim_ok in Ha. destruct Ha as (Hr1 & -> & Hd1).
  apply maybe_wrap_dim_ok in Ha0. destruct Ha0 as (Hr2 & -> & Hd2).
  apply negb_true_iff, Z.eqb_neq in Ha1.
  fold (wrap_total dim1 (dim t)) in *. fold (wrap_total dim2 (dim t)) in *.
  assert (Hdim : 0 <= dim t) by (unfold dim; lia).
  cbv zeta. split; [lia|]. split; [lia|]. split; [exact Ha1|].
  symmetry. exact H.
Qed.

Lemma two_axes (l : list Z) (lo hi : nat) :
  (lo < hi)%nat -> (hi < length l)%nat ->
  l = insert_at hi (nth_or0 l (Z.of_nat hi))
        (insert_at lo (nth_or0 l (Z.of_nat lo)) (delete lo (delete hi l))).
Proof.
  intros Hlt Hhi.
  assert (Hl_hi : l !! hi = Some (nth_or0 l (Z.of_nat hi))).
  { rewrite <- (Nat2Z.id hi) at 1. apply nth_or0_lookup_lt. lia. }
  assert (Hl_lo : l !! lo = Some (nth_or0 l (Z.of_nat lo))).
  { rewrite <- (Nat2Z.id lo) at 1. apply nth_or0_lookup_lt. lia. }
  rewrite (insert_at_delete lo).
  - rewrite (insert_at_delete hi); [reflexivity | exact Hl_hi].
  - rewrite list_lookup_delete_lt by lia. exact Hl_lo.
Qed.

Lemma length_delete2 (l : list Z) (lo hi : nat) :
  (lo < hi)%nat -> (hi < length l)%nat ->
  length (delete lo (delete hi l)) = (length l - 2)%nat.
Proof.
  intros Hlt Hhi.
  rewrite length_delete.
  - rewrite length_delete; [lia|]. apply lookup_lt_is_Some. lia.
  - apply lookup_lt_is_Some. rewrite length_delete; [lia|].
    apply lookup_lt_is_Some. lia.
Qed.

Lemma diagonal_embeds (t v : Tensor) (offset dim1 dim2 : Z) :
  wf t -> diagonal t offset dim1 dim2 = Ok v ->
  embeds t v (diagonal_coord (sizes t) offset dim1 dim2).
Proof.
  intros Hwf H. apply diagonal_ok_inv in H. cbv zeta in H.
  destruct H as (Hd1 & Hd2 & Hne & ->).
  intros j Hj. cbn [sizes with_geometry] in Hj.
  apply valid_index_snoc_inv in Hj. destruct Hj as (rest & k & -> & Hrest & Hk).
  unfold diagonal_coord. fold (dim t).
  destruct (snoc_parts rest k) as [-> ->].
  set (d1 := wrap_total dim1 (dim t)) in *.
  set (d2 := wrap_total dim2 (dim t)) in *.
  set (n1 := nth_or0 (sizes t) d1) in *.
  set (n2 := nth_or0 (sizes t) d2) in *.
  set (lo := Z.to_nat (Z.min d1 d2)). set (hi := Z.to_nat (Z.max d1 d2)).
  assert (Hlohi : (lo < hi)%nat) by (subst lo hi; lia).
  assert (Hhi : (hi < length (sizes t))%nat) by (subst hi; unfold dim in *; lia).
  set (i1 := if offset >=? 0 then k else k - offset).
  set (i2 := if offset >=? 0 then k + offset else k).
  assert (Hi1 : 0 <= i1 < n1).
  { subst i1. revert Hk. unfold diag_size_of.
    destruct (Z.geb_spec offset 0); lia. }
  assert (Hi2 : 0 <= i2 < n2).
  { subst i2. revert Hk. unfold diag_size_of.
    destruct (Z.geb_spec offset 0); lia. }
  assert (Hlen : length rest = length (delete lo (delete hi (strides t)))).
  { apply valid_index_length in Hrest. rewrite Hrest.
    rewrite !length_delete2 by (rewrite ?Hwf; lia).
    rewrite Hwf. reflexivity. }
  split.
  - rewrite (two_axes (sizes t) lo hi Hlohi Hhi) at 1.
    apply valid_index_insert_at; [|apply valid_index_insert_at; [|exact Hrest]].
    + subst hi lo. destruct (Z.ltb_spec d1 d2).
      * rewrite Z.max_r, Z2Nat.id by lia. exact Hi2.
      * rewrite Z.max_l, Z2Nat.id by lia. exact Hi1.
    + subst hi lo. destruct (Z.ltb_spec d1 d2).
      * rewrite Z.min_l, Z2Nat.id by lia. exact Hi1.
      * rewrite Z.min_r, Z2Nat.id by lia. exact Hi2.
  - unfold addr. cbn [storage_offset strides with_geometry].
    rewrite dot_app by exact Hlen. simpl dot at 2.
    assert (Hhi' : (hi < length (strides t))%nat) by (rewrite Hwf; exact Hhi).
    assert (Hdot : forall xh xl,
      dot (insert_at hi xh (insert_at lo xl rest)) (strides t)
      = xh * nth_or0 (strides t) (Z.of_nat hi)
        + (xl * nth_or0 (strides t) (Z.of_nat lo)
           + dot rest (delete lo (delete hi (strides t))))).
    { intros xh xl.
      rewrite (two_axes (strides t) lo hi Hlohi Hhi') at 1.
      rewrite dot_insert_at.
      - rewrite dot_insert_at by exact Hlen. reflexivity.
      - rewrite !length_insert_at. f_equal. exact Hlen. }
    rewrite Hdot.
    fold n1 n2.
    assert (Hds : (diag_size_of n1 n2 offset =? 0) = false).
    { apply Z.eqb_neq. lia. }
    rewrite Hds.
    subst hi lo i1 i2. destruct (Z.ltb_spec d1 d2); destruct (Z.geb_spec offset 0).
    all: rewrite ?Z.max_r, ?Z.min_l, ?Z.max_l, ?Z.min_r by lia.
    all: rewrite !Z2Nat.id by lia; lia.
Qed.

Lemma diagonal_coord_inj (t v : Tensor) (offset dim1 dim2 : Z)
  (j j' : list Z) :
  diagonal t offset dim1 dim2 = Ok v ->
  valid_index (sizes v) j -> valid_index (sizes v) j' ->
  diagonal_coord (sizes t) offset dim1 dim2 j
  = diagonal_coord (sizes t) offset dim1 dim2 j' ->
  j = j'.
Proof.
  intros H Hj Hj' Heq. apply diagonal_ok_inv in H. cbv zeta in H.
  destruct H as (Hd1 & Hd2 & Hne & ->). cbn [sizes with_geometry] in Hj, Hj'.
  apply valid_index_snoc_inv in Hj. destruct Hj as (rest & k & -> & Hrest & Hk).
  apply valid_index_snoc_inv in Hj'.
  destruct Hj' as (rest' & k' & -> & Hrest' & Hk').
  unfold diagonal_coord in Heq.
  destruct (snoc_parts rest k) as [E1 E2]. rewrite E1, E2 in Heq. clear E1 E2.
  destruct (snoc_parts rest' k') as [E1 E2]. rewrite E1, E2 in Heq. clear E1 E2.
  apply valid_index_length in Hrest, Hrest'.
  apply insert_at_eq_inv in Heq; [|rewrite !length_insert_at; congruence].
  destruct Heq as [Hx Heq].
  apply insert_at_eq_inv in Heq; [|congruence].
  destruct Heq as [Hy ->]. f_equal. f_equal.
  destruct (_ <? _); destruct (offset >=? 0); lia.
Qed.

Lemma diagonal_with_storage (s : list Z) (t : Tensor) (offset dim1 dim2 : Z) :
  diagonal (with_storage s t) offset dim1 dim2
  = map_result (with_storage s) (diagonal t offset dim1 dim2).
Proof.
  unfold diagonal. change (dim (with_storage s t)) with (dim t).
  cbn [sizes strides storage_offset with_storage].
  case_binds.
Qed.

Lemma diagonal_sizes (a a' v : Tensor) (offset dim1 dim2 : Z) :
  sizes a = sizes a' -> diagonal a offset dim1 dim2 = Ok v ->
  exists v', diagonal a' offset dim1 dim2 = Ok v' /\ sizes v' = sizes v.
Proof.
  intros Hsz H. unfold diagonal, dim in *. rewrite <- Hsz.
  transport_binds H. injection H as <-.
  eexists. split; reflexivity.
Qed.

Lemma diagonal_view_law (offset dim1 dim2 : Z) :
  view_law (fun t => diagonal t offset dim1 dim2)
           (fun sz => diagonal_coord sz offset dim1 dim2).
Proof.
  split.
  - intros. apply diagonal_with_storage.
  - intros. eapply diagonal_sizes; eauto.
  - intros. apply diagonal_embeds; assumption.
  - intros. eapply diagonal_coord_inj; eauto.
Qed.

Lemma main_diagonal_coord (k : Z) :
  diagonal_coord [4; 6] 0 0 1 [k] = [k; k].
Proof.
  unfold diagonal_coord, nth_or0, insert_at. cbn. rewrite Z.add_0_r.
  reflexivity.
Qed.

(** *** Permutations *)

Lemma wrap_dims_ok (dims ds : list Z) (n : Z) :
  wrap_dims dims n = Ok ds ->
  Forall2 (fun d w => c10.maybe_wrap_dim d n = Ok w) dims ds.
Proof.
  revert ds. induction dims as [|d dims IH]; intros ds H; simpl in H.
  - injection H as <-. constructor.
  - inv_ok. subst ds. constructor; [assumption | apply IH; assumption].
Qed.

Lemma wrap_dims_range (dims ds : list Z) (n : Z) :
  wrap_dims dims n = Ok ds -> Forall (fun w => 0 <= w < Z.max n 1) ds.
Proof.
  intros H. apply wrap_dims_ok in H.
  induction H as [|d w dims ds Hw _ IH]; constructor; [|exact IH].
  apply maybe_wrap_dim_ok in Hw. lia.
Qed.

Lemma wrap_dims_id (ds : list Z) (n : Z) :
  Forall (fun w => 0 <= w < n) ds -> wrap_dims ds n = Ok ds.
Proof.
  induction 1 as [|d ds Hd _ IH]; simpl; [reflexivity|].
  rewrite maybe_wrap_dim_nonneg by exact Hd. cbn [bind]. rewrite IH.
  reflexivity.
Qed.

(** The loop of [permute_inverse] in terms of the wrapped axes. *)
Lemma invert_dims_spec (dims ds : list Z) (n i : Z) (acc : list Z) :
  wrap_dims dims n = Ok ds ->
  NoDup ds ->
  Forall (fun w => 0 <= w < Z.of_nat (length acc)) ds ->
  exists dims_,
    invert_dims dims n i acc = Ok dims_ /\
    length dims_ = length acc /\
    (forall k d, ds !! k = Some d ->
                 dims_ !! Z.to_nat d = Some (i + Z.of_nat k)) /\
    (forall j, (forall d, d ∈ ds -> Z.to_nat d <> j) ->
               dims_ !! j = acc !! j).
Proof.
  revert ds i acc. induction dims as [|d dims IH]; intros ds i acc H Hnd Hr;
    simpl in H.
  - injection H as <-. exists acc. simpl. repeat split.
    + intros k d Hk. rewrite lookup_nil in Hk. discriminate.
  - inv_ok. subst ds. rename a into w, a0 into ds.
    apply list.NoDup_cons in Hnd. destruct Hnd as [Hnin Hnd].
    apply list.Forall_cons in Hr. destruct Hr as [Hw Hr].
    destruct (IH ds (i + 1) (<[Z.to_nat w := i]> acc) Ha0 Hnd)
      as (dims_ & Hinv & Hlen & Hhit & Hmiss).
    { rewrite length_insert. exact Hr. }
    exists dims_. simpl. rewrite Ha. cbn [bind]. rewrite Hinv.
    rewrite length_insert in Hlen.
    split; [reflexivity|]. split; [exact Hlen|]. split.
    + intros [|k] d' Hk; simpl in Hk.
      * injection Hk as <-. rewrite Hmiss.
        -- rewrite list_lookup_insert_eq by lia. f_equal. lia.
        -- intros d' Hd' Heq. apply Hnin.
           rewrite list.Forall_forall in Hr. specialize (Hr d' Hd').
           assert (d' = w) as -> by lia. exact Hd'.
      * rewrite (Hhit k d' Hk). f_equal. lia.
    + intros j Hj. rewrite Hmiss.
      * apply list_lookup_insert_ne. apply Hj. left.
      * intros d' Hd'. apply Hj. right. exact Hd'.
Qed.

Lemma permutation_onto (ds : list Z) (j : Z) :
  NoDup ds ->
  Forall (fun w => 0 <= w < Z.of_nat (length ds)) ds ->
  0 <= j < Z.of_nat (length ds) ->
  j ∈ ds.
Proof.
  intros Hnd Hr Hj.
  assert (Hperm : ds ≡ₚ seqZ 0 (Z.of_nat (length ds))).
  { apply submseteq_length_Permutation.
    - apply NoDup_submseteq; [exact Hnd|].
      intros x Hx. rewrite list.Forall_forall in Hr. apply elem_of_seqZ.
      specialize (Hr x Hx). lia.
    - rewrite length_seqZ. lia. }
  rewrite Hperm. apply elem_of_seqZ. lia.
Qed.

(** The inverse permutation built by [permute_inverse]. *)
Lemma invert_dims_permutation (dims ds : list Z) :
  wrap_dims dims (Z.of_nat (length dims)) = Ok ds ->
  NoDup ds ->
  exists dims_,
    invert_dims dims (Z.of_nat (length dims)) 0 (replicate (length dims) 0)
      = Ok dims_ /\
    length dims_ = length dims /\
    (forall k d, ds !! k = Some d ->
                 dims_ !! Z.to_nat d = Some (Z.of_nat k)) /\
    (forall j x, dims_ !! j = Some x ->
                 0 <= x /\ ds !! Z.to_nat x = Some (Z.of_nat j)).
Proof.
  intros Hw Hnd.
  pose proof (list.Forall2_length _ _ _ (wrap_dims_ok _ _ _ Hw)) as Hlen.
  assert (Hr : Forall (fun w => 0 <= w < Z.of_nat (length dims)) ds).
  { pose proof (wrap_dims_range _ _ _ Hw) as Hr.
    destruct ds as [|w ds]; [constructor|].
    eapply list.Forall_impl; [exact Hr|]. simpl. intros x Hx.
    rewrite Hlen in *. simpl in *. lia. }
  destruct (invert_dims_spec dims ds (Z.of_nat (length dims)) 0
              (replicate (length dims) 0) Hw Hnd)
    as (dims_ & Hinv & Hl & Hhit & _).
  { rewrite length_replicate. exact Hr. }
  rewrite length_replicate in Hl.
  exists dims_. split; [exact Hinv|]. split; [exact Hl|]. split.
  - intros k d Hk. rewrite (Hhit k d Hk). f_equal.
  - intros j x Hx. pose proof (lookup_lt_Some _ _ _ Hx) as Hj.
    assert (Hin : Z.of_nat j ∈ ds).
    { apply permutation_onto; [exact Hnd| |lia].
      rewrite <- Hlen. exact Hr. }
    apply list_elem_of_lookup in Hin. destruct Hin as [k Hk].
    pose proof (Hhit k _ Hk) as Hk'. rewrite Nat2Z.id in Hk'.
    rewrite Hx in Hk'. injection Hk' as ->.
    split; [lia|]. rewrite Z.add_0_l, Nat2Z.id. exact Hk.
Qed.

Lemma gather_lookup (l ds : list Z) (k : nat) :
  gather l ds !! k = nth_or0 l <$> ds !! k.
Proof. unfold gather. apply list_lookup_fmap. Qed.

(** Gathering along a permutation and then along its inverse restores
    the list. *)
Lemma gather_inverse (l p q : list Z) :
  length q = length l ->
  (forall j x, q !! j = Some x ->
               0 <= x /\ p !! Z.to_nat x = Some (Z.of_nat j)) ->
  gather (gather l p) q = l.
Proof.
  intros Hlen Hq. apply list_eq. intros j.
  rewrite gather_lookup.
  destruct (q !! j) as [x|] eqn:Hx; simpl.
  - destruct (Hq j x Hx) as [Hx0 Hp].
    unfold nth_or0 at 1. rewrite gather_lookup, Hp. simpl.
    unfold nth_or0. rewrite Nat2Z.id.
    pose proof (lookup_lt_Some _ _ _ Hx) as Hj.
    destruct (lookup_lt_is_Some_2 l j) as [y Hy]; [lia|].
    rewrite Hy. reflexivity.
  - apply lookup_ge_None in Hx. symmetry. apply lookup_ge_None. lia.
Qed.

Lemma permute_ok_inv (t y : Tensor) (dims : list Z) :
  permute t dims = Ok y ->
  exists ds,
    length dims = length (sizes t) /\
    wrap_dims dims (dim t) = Ok ds /\
    NoDup ds /\
    y = with_geometry t (storage_offset t)
          (gather (sizes t) ds) (gather (strides t) ds).
Proof.
  unfold permute. intros H. inv_ok.
  apply bool_decide_eq_true in Ha. apply bool_decide_eq_true in Ha1.
  exists a0. auto.
Qed.

Lemma permute_intro (t : Tensor) (dims ds : list Z) :
  length dims = length (sizes t) ->
  wrap_dims dims (dim t) = Ok ds ->
  NoDup ds ->
  permute t dims
  = Ok (with_geometry t (storage_offset t)
          (gather (sizes t) ds) (gather (strides t) ds)).
Proof.
  intros Hlen Hw Hnd. unfold permute.
  rewrite bool_decide_eq_true_2 by exact Hlen. cbn [check bind].
  rewrite Hw. cbn [bind].
  rewrite bool_decide_eq_true_2 by exact Hnd. reflexivity.
Qed.

Lemma length_gather (l ds : list Z) : length (gather l ds) = length ds.
Proof. unfold gather. apply length_map. Qed.

(** Two permutations [p] and [q] of the axes of [t], given by their
    wrapped entries, with [q] a right inverse of [p]: permuting by [p] and
    then by [q] gives back [t]. *)
Lemma permute_then_inverse (t : Tensor) (p q : list Z) :
  wf t ->
  length p = length (sizes t) ->
  length q = length (sizes t) ->
  Forall (fun w => 0 <= w < dim t) p ->
  NoDup p ->
  (forall j x, q !! j = Some x ->
               0 <= x /\ p !! Z.to_nat x = Some (Z.of_nat j)) ->
  exists t',
    permute t p = Ok t' /\ sizes t' = gather (sizes t) p /\
    permute t' q = Ok t.
Proof.
  intros Hwf Hp Hq Hr Hnd Hinv.
  eexists. split; [|split].
  - apply permute_intro; [exact Hp | apply wrap_dims_id; exact Hr | exact Hnd].
  - reflexivity.
  - rewrite (permute_intro _ q q).
    + cbn [with_geometry storage_offset sizes strides scalar_type storage].
      rewrite !gather_inverse; [|rewrite ?Hwf; assumption..].
      f_equal. destruct t. reflexivity.
    + cbn [sizes with_geometry]. rewrite length_gather. congruence.
    + apply wrap_dims_id. apply list.Forall_forall. intros x Hx.
      apply list_elem_of_lookup in Hx. destruct Hx as [j Hj].
      destruct (Hinv j x Hj) as [Hx0 Hpx].
      apply lookup_lt_Some in Hpx.
      unfold dim. cbn [sizes with_geometry]. rewrite length_gather. lia.
    + apply NoDup_alt. intros i j x Hi Hj.
      destruct (Hinv i x Hi) as [_ Hpi]. destruct (Hinv j x Hj) as [_ Hpj].
      rewrite Hpi in Hpj. injection Hpj as Hpj. lia.
Qed.

Lemma wrap_dims_range_strict (dims ds : list Z) :
  wrap_dims dims (Z.of_nat (length dims)) = Ok ds ->
  Forall (fun w => 0 <= w < Z.of_nat (length dims)) ds.
Proof.
  intros Hw.
  pose proof (list.Forall2_length _ _ _ (wrap_dims_ok _ _ _ Hw)) as Hlds.
  pose proof (wrap_dims_range _ _ _ Hw) as Hr.
  destruct ds as [|w ds]; [constructor|].
  eapply list.Forall_impl; [exact Hr|]. simpl. intros z Hz.
  rewrite Hlds in *. simpl length in *. lia.
Qed.

(** [permute_inverse] undoes [permute]. *)
Lemma permute_inverse_permute (base x y : Tensor) (dims : list Z) :
  wf x -> permute x dims = Ok y -> permute_inverse base y dims = Ok x.
Proof.
  intros Hwf H. apply permute_ok_inv in H.
  destruct H as (ds & Hlen & Hw & Hnd & ->).
  unfold dim in Hw. rewrite <- Hlen in Hw.
  destruct (invert_dims_permutation dims ds Hw Hnd)
    as (dims_ & Hinv & Hl & Hhit & Hback).
  unfold permute_inverse, permute_inverse_dims. cbv zeta.
  rewrite Hinv. cbn [bind].
  pose proof (list.Forall2_length _ _ _ (wrap_dims_ok _ _ _ Hw)) as Hlds.
  destruct (permute_then_inverse x ds dims_ Hwf) as (t' & Ht' & _ & Hback').
  - congruence.
  - congruence.
  - unfold dim. rewrite <- Hlen. apply wrap_dims_range_strict. exact Hw.
  - exact Hnd.
  - exact Hback.
  - rewrite (permute_intro x ds ds) in Ht'.
    + injection Ht' as <-. exact Hback'.
    + congruence.
    + apply wrap_dims_id. unfold dim. rewrite <- Hlen.
      apply wrap_dims_range_strict. exact Hw.
    + exact Hnd.
Qed.


(** *** Sums over coordinates *)

Lemma NoDup_all_indices (sz : list Z) : NoDup (all_indices sz).
Proof.
  induction sz as [|n sz IH]; simpl.
  - apply NoDup_singleton.
  - generalize (NoDup_seqZ 0 n). generalize (seqZ 0 n). intros l Hl.
    induction Hl as [|i l Hi Hl IHl]; simpl; [constructor|].
    apply list.NoDup_app. split; [|split].
    + apply (NoDup_fmap_2 (cons i)). exact IH.
    + intros idx H1 H2. apply list_elem_of_fmap in H1.
      destruct H1 as (idx' & -> & _).
      apply list_elem_of_In, in_flat_map in H2.
      destruct H2 as (i' & Hi' & H2).
      apply list_elem_of_In, list_elem_of_fmap in H2.
      destruct H2 as (idx'' & Heq & _). injection Heq as -> _.
      apply Hi. apply list_elem_of_In. exact Hi'.
    + exact IHl.
Qed.

Lemma filter_eq_singleton (l : list (list Z)) (x : list Z) :
  NoDup l -> x ∈ l -> filter (fun j => j = x) l = [x].
Proof.
  induction 1 as [|y l Hy Hnd IH]; intros Hx.
  - inversion Hx.
  - rewrite filter_cons. destruct (decide (y = x)) as [->|Hne].
    + f_equal. clear IH Hx. induction l as [|z l IHl]; [reflexivity|].
      rewrite filter_cons. destruct (decide (z = x)) as [->|_].
      * exfalso. apply Hy. left.
      * apply IHl.
        -- intros H. apply Hy. right. exact H.
        -- apply list.NoDup_cons in Hnd. tauto.
    + apply IH. apply list.elem_of_cons in Hx. destruct Hx; congruence.
Qed.

Lemma filter_ext_elem (P Q : list Z -> Prop) `{!forall x, Decision (P x)}
  `{!forall x, Decision (Q x)} (l : list (list Z)) :
  (forall x, x ∈ l -> (P x <-> Q x)) -> filter P l = filter Q l.
Proof.
  induction l as [|y l IH]; intros Hext; [reflexivity|].
  rewrite !filter_cons.
  assert (Hy : P y <-> Q y) by (apply Hext; left).
  rewrite IH by (intros x Hx; apply Hext; right; exact Hx).
  destruct (decide (P y)), (decide (Q y)); tauto || reflexivity.
Qed.

Lemma filter_all (P : list Z -> Prop) `{!forall x, Decision (P x)}
  (l : list (list Z)) :
  (forall x, x ∈ l -> P x) -> filter P l = l.
Proof.
  induction l as [|y l IH]; intros Hall; [reflexivity|].
  rewrite filter_cons, decide_True by (apply Hall; left).
  rewrite IH; [reflexivity|]. intros x Hx. apply Hall. right. exact Hx.
Qed.

Lemma keep_index_aligned (bsz al js : list Z) :
  Forall2 (fun i n => 0 <= i < n) js al ->
  length bsz = length al ->
  keep_index (reduce_mask bsz al) js
  = zip_with (fun b i => if b =? 1 then 0 else i) bsz js.
Proof.
  intros Hv. revert bsz. unfold keep_index, reduce_mask.
  induction Hv as [|i n js al Hi _ IH]; intros [|b bsz] Hlen;
    simpl in *; try discriminate; [reflexivity|].
  rewrite IH by lia. f_equal.
  destruct (Z.eqb_spec b 1); destruct (Z.eqb_spec n 1); simpl;
    try reflexivity; lia.
Qed.

Lemma keep_index_leading (k : nat) (rd : list bool) (j1 j2 : list Z) :
  length j1 = k ->
  keep_index (replicate k true ++ rd) (j1 ++ j2)
  = replicate k 0 ++ keep_index rd j2.
Proof.
  intros <-. unfold keep_index. induction j1 as [|i j1 IH]; simpl;
    [reflexivity|]. rewrite IH. reflexivity.
Qed.

Lemma reduced_sizes_aligned (bsz al : list Z) :
  Forall2 (fun b n => b = n \/ b = 1) bsz al ->
  zip_with (fun (r : bool) n => if r then 1 else n) (reduce_mask bsz al) al
  = bsz.
Proof.
  unfold reduce_mask. induction 1 as [|b n bsz al Hb _ IH]; simpl;
    [reflexivity|]. rewrite IH. f_equal.
  destruct (Z.eqb_spec b 1); destruct (Z.eqb_spec n 1); simpl; lia.
Qed.

Lemma reduced_sizes_leading (k : nat) (rd : list bool) (s1 s2 : list Z) :
  length s1 = k ->
  zip_with (fun (r : bool) n => if r then 1 else n)
           (replicate k true ++ rd) (s1 ++ s2)
  = replicate k 1
    ++ zip_with (fun (r : bool) n => if r then 1 else n) rd s2.
Proof.
  intros <-. induction s1 as [|i s1 IH]; simpl; [reflexivity|].
  rewrite IH. reflexivity.
Qed.

Lemma dot_leading_zeros (k : nat) (idx sz : list Z) :
  dot (replicate k 0 ++ idx) (contiguous_strides (replicate k 1 ++ sz))
  = dot idx (contiguous_strides sz).
Proof. induction k as [|k IH]; simpl; [reflexivity | rewrite IH; lia]. Qed.

Lemma numel_leading_ones (k : nat) (sz : list Z) :
  numel_of (replicate k 1 ++ sz) = numel_of sz.
Proof. induction k as [|k IH]; simpl; [reflexivity | rewrite IH; lia]. Qed.

Lemma valid_index_leading (k : nat) (sz idx : list Z) :
  valid_index sz idx ->
  valid_index (replicate k 1 ++ sz) (replicate k 0 ++ idx).
Proof.
  intros H. induction k as [|k IH]; simpl; [exact H|].
  constructor; [lia | exact IH].
Qed.

(** *** Contiguity and sum_to *)

Lemma dense_contiguous (sz : list Z) :
  Forall (fun n => 0 < n) sz ->
  dense_strides sz (contiguous_strides sz) = true.
Proof.
  induction 1 as [|n sz Hn Hsz IH]; simpl; [reflexivity|].
  rewrite IH, andb_true_r. apply orb_true_iff. right.
  apply Z.eqb_eq. apply stride_prod_numel. exact Hsz.
Qed.

Lemma numel_nonzero_pos (sz : list Z) :
  Forall (fun n => 0 <= n) sz -> numel_of sz <> 0 ->
  Forall (fun n => 0 < n) sz.
Proof.
  induction 1 as [|n sz Hn _ IH]; simpl; intros Hne; constructor.
  - destruct (Z.eq_dec n 0) as [->|]; [|lia]. lia.
  - apply IH. intros H0. rewrite H0 in Hne. lia.
Qed.

Lemma is_contiguous_materialize (sz : list Z) ty f :
  Forall (fun n => 0 <= n) sz ->
  is_contiguous (materialize sz ty f) = true.
Proof.
  intros Hsz. unfold is_contiguous, materialize. cbn [sizes strides].
  destruct (Z.eqb_spec (numel_of sz) 0) as [|Hne]; [reflexivity|].
  simpl. apply dense_contiguous. apply numel_nonzero_pos; assumption.
Qed.

Lemma infer_size_plain (shape : list Z) (numel : Z) :
  Forall (fun n => 0 <= n) shape ->
  numel = numel_of shape ->
  infer_size shape numel = Ok shape.
Proof.
  intros Hsh ->. unfold infer_size.
  assert (H1 : forallb (Z.leb (-1)) shape = true).
  { apply forallb_forall. intros x Hx. rewrite list.Forall_forall in Hsh.
    apply Z.leb_le. apply list_elem_of_In in Hx. specialize (Hsh x Hx). lia. }
  rewrite H1. cbn [check bind].
  assert (H2 : filter (eq (-1)) shape = []).
  { clear H1. induction Hsh as [|n sh Hn _ IH]; [reflexivity|].
    rewrite filter_cons, decide_False by lia. exact IH. }
  rewrite H2. cbn [length Nat.leb check bind].
  assert (H3 : filter (fun n => n <> -1) shape = shape).
  { clear H1 H2. induction Hsh as [|n sh Hn _ IH]; [reflexivity|].
    rewrite filter_cons, decide_True by lia. rewrite IH. reflexivity. }
  rewrite H3, Z.eqb_refl. cbn [length Nat.eqb orb check bind]. f_equal.
  generalize (numel_of shape / numel_of shape). intros q.
  clear H1 H2 H3. induction Hsh as [|n sh Hn _ IH]; [reflexivity|].
  simpl. rewrite IH. destruct (Z.eqb_spec n (-1)); [lia | reflexivity].
Qed.

Lemma get_sum_keepdim (t : Tensor) (rd : list bool) (idx : list Z) :
  valid_index
    (zip_with (fun (r : bool) n => if r then 1 else n) rd (sizes t)) idx ->
  get (sum_keepdim t rd) idx
  = sumZ (map (get t)
            (filter (fun j => keep_index rd j = idx)
                    (all_indices (sizes t)))).
Proof. intros H. unfold sum_keepdim. rewrite get_materialize by exact H. reflexivity. Qed.

Lemma keep_index_all_false (rd : list bool) (j : list Z) :
  existsb id rd = false -> length j = length rd -> keep_index rd j = j.
Proof.
  unfold keep_index. revert j. induction rd as [|r rd IH]; intros [|i j] Hex Hlen;
    simpl in *; try discriminate; [reflexivity|].
  apply orb_false_iff in Hex. destruct Hex as [Hr Hex]. unfold id in Hr. subst r.
  rewrite IH by (assumption || lia). reflexivity.
Qed.

Lemma reduced_sizes_all_false (rd : list bool) (sz : list Z) :
  existsb id rd = false -> length sz = length rd ->
  zip_with (fun (r : bool) n => if r then 1 else n) rd sz = sz.
Proof.
  revert sz. induction rd as [|r rd IH]; intros [|i j] Hex Hlen;
    simpl in *; try discriminate; [reflexivity|].
  apply orb_false_iff in Hex. destruct Hex as [Hr Hex]. unfold id in Hr. subst r.
  rewrite IH by (assumption || lia). reflexivity.
Qed.

(** The value of [sum_to] on an expansion of the target shape. *)
Lemma sum_to_spec (v : Tensor) (bsz : list Z) :
  expands_to bsz (sizes v) ->
  exists out,
    sum_to v bsz = Ok out /\
    sizes out = bsz /\
    forall idx, valid_index bsz idx ->
      get out idx
      = sumZ (map (get v)
                (filter (fun j => broadcast_coord bsz j = idx)
                        (all_indices (sizes v)))).
Proof.
  intros (Hle & Hal & Hnn).
  set (lead := (length (sizes v) - length bsz)%nat) in *.
  set (al := drop lead (sizes v)) in *.
  pose proof (list.Forall2_length _ _ _ Hal) as Hlal.
  assert (Hsplit : sizes v = take lead (sizes v) ++ al).
  { symmetry. apply take_drop. }
  assert (Hltake : length (take lead (sizes v)) = lead).
  { rewrite length_take. lia. }
  (* coordinates of [v] and the coordinate they contribute to *)
  assert (Hkeep : forall j, valid_index (sizes v) j ->
     keep_index (replicate lead true ++ reduce_mask bsz al) j
     = replicate lead 0 ++ broadcast_coord bsz j).
  { intros j Hj. pose proof (valid_index_length _ _ Hj) as Hlj.
    rewrite <- (take_drop lead j) at 1.
    rewrite keep_index_leading by (rewrite length_take; lia).
    f_equal. unfold broadcast_coord. rewrite Hlj. fold lead.
    apply keep_index_aligned; [|exact Hlal].
    unfold valid_index in Hj. apply Forall2_drop. exact Hj. }
  assert (Hout : zip_with (fun (r : bool) n => if r then 1 else n)
                   (replicate lead true ++ reduce_mask bsz al) (sizes v)
                 = replicate lead 1 ++ bsz).
  { rewrite Hsplit at 1. rewrite reduced_sizes_leading by exact Hltake.
    rewrite reduced_sizes_aligned by exact Hal. reflexivity. }
  assert (Hbnn : Forall (fun n => 0 <= n) bsz).
  { assert (Hann : Forall (fun n => 0 <= n) al).
    { subst al. apply Forall_drop. exact Hnn. }
    clear -Hal Hann. induction Hal as [|b n bsz al Hb _ IH]; constructor.
    - apply list.Forall_cons in Hann. destruct Hann as [Hn _]. lia.
    - apply IH. apply list.Forall_cons in Hann. tauto. }
  unfold sum_to. case_bool_decide as Hnil.
  { (* the base is a scalar *)
    subst bsz. exists (sum_all v). split; [reflexivity|]. split; [reflexivity|].
    intros idx Hidx. apply valid_index_nil_inv in Hidx. subst idx.
    unfold sum_all. rewrite get_materialize by constructor.
    rewrite filter_all; [reflexivity|]. intros j _. reflexivity. }
  assert (Hlead : dim v - Z.of_nat (length bsz) = Z.of_nat lead).
  { unfold dim. subst lead. lia. }
  rewrite Hlead. rewrite Nat2Z.id. fold al.
  change (zip_with (fun s n => (s =? 1) && negb (n =? 1)) bsz al)
    with (reduce_mask bsz al).
  set (rd := replicate lead true ++ reduce_mask bsz al) in *.
  destruct (Z.leb_spec 0 (Z.of_nat lead)); [|lia]. cbn [check bind].
  assert (Hlrd : length (sizes v) = length rd).
  { subst rd. rewrite length_app, length_replicate.
    unfold reduce_mask. rewrite length_zip_with. lia. }
  (* the reduced tensor, before the leading axes are dropped *)
  assert (Hred : exists t',
     (if existsb id rd then sum_keepdim v rd else v) = t' /\
     sizes t' = replicate lead 1 ++ bsz /\
     forall idx', valid_index (replicate lead 1 ++ bsz) idx' ->
       get t' idx'
       = sumZ (map (get v)
                 (filter (fun j => keep_index rd j = idx')
                         (all_indices (sizes v))))).
  { destruct (existsb id rd) eqn:Hex.
    - exists (sum_keepdim v rd). split; [reflexivity|]. split; [exact Hout|].
      intros idx' Hidx'. apply get_sum_keepdim. rewrite Hout. exact Hidx'.
    - exists v. split; [reflexivity|].
      assert (Hsz : sizes v = replicate lead 1 ++ bsz).
      { rewrite <- Hout. symmetry.
        apply reduced_sizes_all_false; [exact Hex | exact Hlrd]. }
      split; [exact Hsz|]. intros idx' Hidx'.
      rewrite (filter_ext_elem _ (fun j => j = idx')).
      + rewrite filter_eq_singleton.
        * simpl. lia.
        * apply NoDup_all_indices.
        * apply elem_of_all_indices. rewrite Hsz. exact Hidx'.
      + intros j Hj. apply elem_of_all_indices, valid_index_length in Hj.
        rewrite keep_index_all_false by congruence. reflexivity. }
  destruct Hred as (t' & Ht' & Hsz' & Hget'). rewrite Ht'.
  destruct (Z.ltb_spec 0 (Z.of_nat lead)) as [Hpos|Hzero].
  - (* leading axes were summed: they are dropped by a view *)
    assert (Hex : existsb id rd = true).
    { subst rd. destruct lead; [lia|]. reflexivity. }
    rewrite Hex in Ht'. subst t'.
    unfold view. rewrite Hsz', numel_leading_ones.
    rewrite infer_size_plain by (exact Hbnn || reflexivity). cbn [bind].
    unfold sum_keepdim at 1. rewrite is_contiguous_materialize.
    2:{ rewrite Hout. apply Forall_app. split; [|exact Hbnn].
        apply Forall_replicate. lia. }
    cbn [check bind]. eexists. split; [reflexivity|].
    split; [reflexivity|]. intros idx Hidx.
    rewrite (filter_ext_elem _
               (fun j => keep_index rd j = replicate lead 0 ++ idx)).
    + rewrite <- Hget' by (apply valid_index_leading; exact Hidx).
      unfold get, addr. cbn [storage storage_offset strides with_geometry].
      unfold sum_keepdim, materialize. cbn [storage storage_offset strides].
      rewrite Hout, dot_leading_zeros. reflexivity.
    + intros j Hj. apply elem_of_all_indices in Hj.
      rewrite (Hkeep j Hj). split; [intros ->; reflexivity|].
      intros Heq. apply app_inv_head in Heq. exact Heq.
  - (* no leading axes *)
    assert (lead = 0%nat) as Hl0 by lia. rewrite Hl0 in *. simpl in *.
    exists t'. split; [reflexivity|]. split; [exact Hsz'|].
    intros idx Hidx. rewrite (Hget' idx Hidx).
    f_equal. f_equal. apply filter_ext_elem.
    intros j Hj. apply elem_of_all_indices in Hj.
    rewrite (Hkeep j Hj). reflexivity.
Qed.

(** *** Transposition *)

Lemma lookup_swap (l : list Z) (i j : Z) (k : nat) :
  0 <= i < Z.of_nat (length l) -> 0 <= j < Z.of_nat (length l) ->
  swap l i j !! k
  = if decide (k = Z.to_nat i) then l !! Z.to_nat j
    else if decide (k = Z.to_nat j) then l !! Z.to_nat i
    else l !! k.
Proof.
  intros Hi Hj. unfold swap.
  destruct (decide (k = Z.to_nat i)) as [->|Hki].
  - rewrite list_lookup_insert_eq by (rewrite length_insert; lia).
    symmetry. apply nth_or0_lookup_lt. exact Hj.
  - rewrite list_lookup_insert_ne by congruence.
    destruct (decide (k = Z.to_nat j)) as [->|Hkj].
    + rewrite list_lookup_insert_eq by lia.
      symmetry. apply nth_or0_lookup_lt. exact Hi.
    + rewrite list_lookup_insert_ne by congruence. reflexivity.
Qed.

Lemma length_swap (l : list Z) (i j : Z) : length (swap l i j) = length l.
Proof. unfold swap. rewrite !length_insert. reflexivity. Qed.

Lemma swap_swap (l : list Z) (i j : Z) :
  0 <= i < Z.of_nat (length l) -> 0 <= j < Z.of_nat (length l) ->
  swap (swap l i j) i j = l.
Proof.
  intros Hi Hj. apply list_eq. intros k.
  rewrite lookup_swap by (rewrite length_swap; assumption).
  rewrite !lookup_swap by assumption.
  repeat case_decide; subst; try reflexivity; try congruence.
  all: try (exfalso; lia).
Qed.




Lemma transpose_ok_inv (t v : Tensor) (dim0 dim1 : Z) :
  transpose t dim0 dim1 = Ok v ->
  let d0 := wrap_total dim0 (dim t) in
  let d1 := wrap_total dim1 (dim t) in
  0 <= d0 < Z.max (dim t) 1 /\ 0 <= d1 < Z.max (dim t) 1 /\
  c10.maybe_wrap_dim dim0 (dim t) = Ok d0 /\
  c10.maybe_wrap_dim dim1 (dim t) = Ok d1 /\
  v = (if d0 =? d1 then t
       else with_geometry t (storage_offset t)
              (swap (sizes t) d0 d1) (swap (strides t) d0 d1)).
Proof.
  unfold transpose. intros H. inv_ok.
  pose proof Ha as Ha'. pose proof Ha0 as Ha0'.
  apply maybe_wrap_dim_ok in Ha. destruct Ha as (Hr0 & E0 & Hd0).
  apply maybe_wrap_dim_ok in Ha0. destruct Ha0 as (Hr1 & E1 & Hd1).
  cbv zeta. unfold wrap_total. rewrite <- E0, <- E1.
  split; [exact Hd0|]. split; [exact Hd1|]. split; [exact Ha'|].
  split; [exact Ha0'|].
  destruct (a =? a0); injection H as <-; reflexivity.
Qed.

(** Transposing twice gives back the tensor. *)
Lemma transpose_involutive (t v : Tensor) (dim0 dim1 : Z) :
  wf t -> transpose t dim0 dim1 = Ok v ->
  transpose v dim0 dim1 = Ok t /\
  sizes v = (if wrap_total dim0 (dim t) =? wrap_total dim1 (dim t)
             then sizes t
             else swap (sizes t) (wrap_total dim0 (dim t))
                       (wrap_total dim1 (dim t))).
Proof.
  intros Hwf H. apply transpose_ok_inv in H. cbv zeta in H.
  destruct H as (Hd0 & Hd1 & Hw0 & Hw1 & ->).
  set (d0 := wrap_total dim0 (dim t)) in *.
  set (d1 := wrap_total dim1 (dim t)) in *.
  destruct (Z.eqb_spec d0 d1) as [Heq|Hne].
  - split; [|reflexivity]. unfold transpose. rewrite Hw0, Hw1. cbn [bind].
    rewrite Heq, Z.eqb_refl. reflexivity.
  - split; [|reflexivity].
    assert (Hdim : 0 < dim t).
    { destruct (Z.lt_ge_cases 0 (dim t)); [assumption|]. lia. }
    unfold transpose.
    assert (Hd : dim (with_geometry t (storage_offset t)
                        (swap (sizes t) d0 d1) (swap (strides t) d0 d1))
                 = dim t).
    { unfold dim. cbn [sizes with_geometry]. rewrite length_swap. reflexivity. }
    rewrite Hd, Hw0, Hw1. cbn [bind].
    destruct (Z.eqb_spec d0 d1); [contradiction|].
    cbn [with_geometry sizes strides storage storage_offset scalar_type].
    unfold dim in *.
    rewrite !swap_swap by (rewrite ?Hwf; lia).
    f_equal. destruct t. reflexivity.
Qed.


(** *** squeeze and unsqueeze *)

Lemma unsqueeze_ok_inv (t v : Tensor) (d : Z) :
  unsqueeze t d = Ok v ->
  let d' := wrap_total d (dim t + 1) in
  0 <= d' <= dim t /\
  c10.maybe_wrap_dim d (dim t + 1) = Ok d' /\
  exists s,
    v = with_geometry t (storage_offset t)
          (insert_at (Z.to_nat d') 1 (sizes t))
          (insert_at (Z.to_nat d') s (strides t)).
Proof.
  unfold unsqueeze. intros H. inv_ok. pose proof Ha as Ha'.
  apply maybe_wrap_dim_ok in Ha. destruct Ha as (Hr & E & Hd).
  assert (Hdim : 0 <= dim t) by (unfold dim; lia).
  assert (Ew : a = wrap_total d (dim t + 1)).
  { rewrite E. unfold wrap_total. reflexivity. }
  cbv zeta. rewrite <- Ew. split; [lia|]. split; [exact Ha'|].
  eexists. symmetry. exact H.
Qed.

Lemma unsqueeze_intro (t : Tensor) (d : Z) :
  0 <= d <= dim t ->
  exists s,
    unsqueeze t d
    = Ok (with_geometry t (storage_offset t)
            (insert_at (Z.to_nat d) 1 (sizes t))
            (insert_at (Z.to_nat d) s (strides t))).
Proof.
  intros Hd. unfold unsqueeze.
  rewrite maybe_wrap_dim_nonneg by lia. cbn [bind]. eexists. reflexivity.
Qed.

Lemma squeeze_dim_ok_inv (t v : Tensor) (d : Z) :
  squeeze_dim t d = Ok v ->
  let d' := wrap_total d (dim t) in
  0 <= d' < Z.max (dim t) 1 /\
  c10.maybe_wrap_dim d (dim t) = Ok d' /\
  v = (if (dim t =? 0) || negb (nth_or0 (sizes t) d' =? 1) then t
       else with_geometry t (storage_offset t)
              (delete (Z.to_nat d') (sizes t))
              (delete (Z.to_nat d') (strides t))).
Proof.
  unfold squeeze_dim. intros H. inv_ok. pose proof Ha as Ha'.
  apply maybe_wrap_dim_ok in Ha. destruct Ha as (Hr & E & Hd).
  assert (Ew : a = wrap_total d (dim t)).
  { rewrite E. unfold wrap_total. reflexivity. }
  cbv zeta. rewrite <- Ew. split; [exact Hd|]. split; [exact Ha'|].
  destruct (_ || _); injection H as <-; reflexivity.
Qed.

Lemma nth_or0_insert_at (d : Z) (x : Z) (l : list Z) :
  0 <= d <= Z.of_nat (length l) -> nth_or0 (insert_at (Z.to_nat d) x l) d = x.
Proof.
  intros Hd. unfold nth_or0. rewrite lookup_insert_at by lia. reflexivity.
Qed.

(** A coordinate of a shape with an axis of size one at [d] is zero
    there. *)
Lemma valid_index_unit_axis (sz idx : list Z) (d : nat) :
  valid_index sz idx -> sz !! d = Some 1 -> idx !! d = Some 0.
Proof.
  intros Hv Hd.
  destruct (lookup_lt_is_Some_2 idx d) as [i Hi].
  { rewrite (valid_index_length _ _ Hv). eapply lookup_lt_Some. exact Hd. }
  pose proof (valid_index_lookup _ _ _ _ _ Hv Hd Hi). rewrite Hi. f_equal. lia.
Qed.

Lemma dot_delete_zero (d : nat) (idx st : list Z) :
  length idx = length st -> idx !! d = Some 0 ->
  dot (delete d idx) (delete d st) = dot idx st.
Proof.
  intros Hlen Hi.
  destruct (lookup_lt_is_Some_2 st d) as [s Hs].
  { rewrite <- Hlen. eapply lookup_lt_Some. exact Hi. }
  rewrite (dot_delete d idx st 0 s Hlen Hi Hs). lia.
Qed.

(** The element a coordinate of an unsqueezed tensor reads does not
    depend on the stride given to the new axis. *)
Lemma dot_unit_axis (d : nat) (j st : list Z) (s : Z) :
  length j = length st -> j !! d = Some 0 ->
  dot j (insert_at d s (delete d st)) = dot j st.
Proof.
  intros Hlen Hj.
  destruct (lookup_lt_is_Some_2 st d) as [s0 Hs].
  { rewrite <- Hlen. eapply lookup_lt_Some. exact Hj. }
  rewrite <- (insert_at_delete d 0 j Hj) at 1.
  rewrite dot_insert_at.
  - rewrite dot_delete_zero by assumption. lia.
  - rewrite !length_delete by eauto. lia.
Qed.

Lemma squeeze_index_spec (sz idx st : list Z) :
  valid_index sz idx -> length st = length sz ->
  valid_index (squeeze_geometry sz st).1 (squeeze_index sz idx) /\
  dot (squeeze_index sz idx) (squeeze_geometry sz st).2 = dot idx st.
Proof.
  intros Hv. revert st. induction Hv as [|i n idx sz Hi _ IH];
    intros [|s st] Hlen; simpl in *; try discriminate.
  - split; [constructor | reflexivity].
  - destruct (IH st ltac:(lia)) as [IH1 IH2].
    destruct (Z.eqb_spec n 1) as [->|Hne].
    + split; [exact IH1|]. rewrite IH2. assert (i = 0) as -> by lia. lia.
    + simpl. split; [constructor; assumption|]. rewrite IH2. reflexivity.
Qed.

(** The loop of [unsqueeze_to]: the axes [rest] remain to be visited, the
    tensor at hand has the axes [pre] already restored and the axes that
    [squeeze] kept of [rest]. *)
Lemma unsqueeze_to_loop_spec (rest : list Z) :
  forall (res : Tensor) (pre pre_st post_st st0 : list Z),
    length st0 = length rest ->
    length pre_st = length pre ->
    length post_st = length (squeeze_geometry rest st0).1 ->
    sizes res = pre ++ (squeeze_geometry rest st0).1 ->
    strides res = pre_st ++ post_st ->
    exists st_r,
      unsqueeze_to_loop rest (Z.of_nat (length pre)) res
      = Ok (with_geometry res (storage_offset res)
              (pre ++ rest) (pre_st ++ st_r)) /\
      length st_r = length rest /\
      squeeze_geometry rest st_r = ((squeeze_geometry rest st0).1, post_st).
Proof.
  induction rest as [|n rest IH];
    intros res pre pre_st post_st st0 Hst0 Hpre Hpost Hsz Hst.
  - destruct st0; [|discriminate]. simpl in *.
    destruct post_st; [|discriminate].
    exists []. split; [|split; reflexivity].
    rewrite <- Hsz, <- Hst. unfold with_geometry. destruct res; reflexivity.
  - destruct st0 as [|s0 st0]; [discriminate|]. simpl in Hst0.
    simpl squeeze_geometry in *. simpl unsqueeze_to_loop.
    destruct (Z.eqb_spec n 1) as [->|Hne].
    + (* an axis of size one is inserted *)
      destruct (unsqueeze_intro res (Z.of_nat (length pre))) as [s Hs].
      { unfold dim. rewrite Hsz, length_app. lia. }
      rewrite Hs. cbn [bind]. rewrite Nat2Z.id.
      set (res' := with_geometry res _ _ _).
      destruct (IH res' (pre ++ [1]) (pre_st ++ [s]) post_st st0)
        as (st_r & Hloop & Hlen & Hgeo).
      * lia.
      * rewrite !length_app. simpl. lia.
      * exact Hpost.
      * subst res'. cbn [sizes with_geometry]. rewrite Hsz.
        unfold insert_at. rewrite take_app_length, drop_app_length.
        rewrite <- app_assoc. reflexivity.
      * subst res'. cbn [strides with_geometry]. rewrite Hst.
        unfold insert_at. rewrite <- Hpre, take_app_length, drop_app_length.
        rewrite <- app_assoc. reflexivity.
      * exists (s :: st_r). split; [|split].
        -- rewrite length_app in Hloop. simpl in Hloop.
           replace (Z.of_nat (length pre) + 1)
             with (Z.of_nat (length pre + 1)) by lia.
           rewrite Hloop. subst res'. unfold with_geometry. simpl.
           rewrite <- !app_assoc. reflexivity.
        -- simpl. lia.
        -- simpl. exact Hgeo.
    + (* the axis was kept by squeeze *)
      cbn [bind]. simpl in Hsz, Hpost.
      destruct post_st as [|p post_st]; [discriminate|].
      destruct (IH res (pre ++ [n]) (pre_st ++ [p]) post_st st0)
        as (st_r & Hloop & Hlen & Hgeo).
      * lia.
      * rewrite !length_app. simpl. lia.
      * simpl in Hpost. lia.
      * rewrite Hsz, <- app_assoc. reflexivity.
      * rewrite Hst, <- app_assoc. reflexivity.
      * exists (p :: st_r). split; [|split].
        -- rewrite length_app in Hloop. simpl in Hloop.
           replace (Z.of_nat (length pre) + 1)
             with (Z.of_nat (length pre + 1)) by lia.
           rewrite Hloop. rewrite <- !app_assoc. reflexivity.
        -- simpl. lia.
        -- simpl. destruct (Z.eqb_spec n 1); [contradiction|].
           rewrite Hgeo. reflexivity.
Qed.

(** *** Every coordinate is read by a permutation *)







(** ** The round trip, operation by operation *)








(** [squeeze_inverse(base, v, dim)] at a wrapped axis [d] of a base that
    is not a scalar. *)
Lemma squeeze_inverse_dim_cases (a v : Tensor) (dim_ d : Z) :
  c10.maybe_wrap_dim dim_ (dim a) = Ok d ->
  squeeze_inverse_dim a v dim_
  = if (0 <? dim a) && (nth_or0 (sizes a) d =? 1)
    then unsqueeze v d else Ok v.
Proof.
  intros Hw. unfold squeeze_inverse_dim, unsqueeze_to_dim. fold (dim a).
  rewrite Hw. cbn [bind].
  apply maybe_wrap_dim_ok in Hw. destruct Hw as (_ & _ & Hd).
  destruct (Z.ltb_spec 0 (dim a)) as [Hpos|]; [|reflexivity].
  assert (Hd' : 0 <= d < dim a) by lia.
  rewrite (at_index_lookup _ _ _ (proj1 Hd')
             (nth_or0_lookup_lt (sizes a) d Hd')).
  reflexivity.
Qed.





Lemma size_wrapped (t : Tensor) (d : Z) :
  0 <= d < dim t -> size t d = Ok (nth_or0 (sizes t) d).
Proof.
  intros Hd. unfold size, c10.maybe_wrap_dim_gen.
  destruct (Z.leb_spec (dim t) 0); [lia|]. cbn [negb orb check bind].
  destruct (Z.ltb_spec d (- dim t)); [lia|].
  destruct (Z.gtb_spec d (dim t - 1)); [lia|]. cbn [negb orb check bind].
  destruct (Z.ltb_spec d 0); [lia|].
  apply at_index_lookup; [lia|]. apply nth_or0_lookup_lt. exact Hd.
Qed.

Lemma size_ok_inv (t : Tensor) (d n : Z) :
  0 <= d -> size t d = Ok n -> 0 <= d < dim t /\ n = nth_or0 (sizes t) d.
Proof.
  intros Hd0 H.
  assert (Hd : 0 <= d < dim t).
  { unfold size, c10.maybe_wrap_dim_gen in H. inv_ok.
    rewrite orb_false_r in Ha0. apply negb_true_iff, Z.leb_gt in Ha0.
    destruct (Z.leb_spec (dim t) 0); [lia|].
    apply negb_true_iff, orb_false_iff in Ha1. destruct Ha1 as [H1 H2].
    destruct (Z.gtb_spec d (dim t - 1)); [discriminate|]. lia. }
  split; [exact Hd|]. rewrite size_wrapped in H by exact Hd. congruence.
Qed.


Lemma split_end (n ss i : Z) :
  0 <= ss -> 0 < ss \/ n = 0 ->
  let num_splits :=
    if ss =? 0 then 1 else Z.max ((n + ss - 1) / ss) 1 in
  0 <= i < num_splits ->
  i * ss + (if i <? num_splits - 1 then ss
            else ss - (ss * num_splits - n))
  = Z.min n ((i + 1) * ss).
Proof.
  intros Hss Hn. cbv zeta.
  destruct (Z.eqb_spec ss 0) as [->|Hne].
  - intros Hi. assert (i = 0) as -> by lia.
    destruct (Z.ltb_spec 0 (1 - 1)); lia.
  - assert (Hpos : 0 < ss) by lia.
    pose proof (Z.mul_div_le (n + ss - 1) ss Hpos) as H1.
    pose proof (Z.mul_succ_div_gt (n + ss - 1) ss Hpos) as H2.
    set (q := (n + ss - 1) / ss) in *. intros Hi.
    destruct (Z.ltb_spec i (Z.max q 1 - 1)); nia.
Qed.

Lemma sumZ_take_nonneg (l : list Z) (k : nat) :
  Forall (fun x => 0 <= x) l -> 0 <= sumZ (take k l) <= sumZ l.
Proof.
  intros H. revert k. induction H as [|x l Hx _ IH]; intros [|k]; simpl.
  - lia.
  - lia.
  - assert (0 <= sumZ l) by (specialize (IH 0%nat); simpl in IH; lia). lia.
  - specialize (IH k). lia.
Qed.

Lemma at_index_ok_inv (l : list Z) (i x : Z) :
  c10.at_index l i = Ok x -> 0 <= i /\ l !! Z.to_nat i = Some x.
Proof.
  unfold c10.at_index. destruct (Z.ltb_spec i 0); [discriminate|].
  destruct (l !! Z.to_nat i); [|discriminate]. intros Hx. injection Hx as ->.
  split; [lia | reflexivity].
Qed.



(** *** view *)

Lemma numel_of_nonneg (sz : list Z) :
  Forall (fun n => 0 <= n) sz -> 0 <= numel_of sz.
Proof. induction 1 as [|n sz Hn _ IH]; simpl; [lia | nia]. Qed.

Lemma numel_of_inferred (q : Z) (shape : list Z) :
  numel_of (map (fun n => if n =? -1 then q else n) shape)
  = q ^ Z.of_nat (length (filter (eq (-1)) shape))
    * numel_of (filter (fun n => n <> -1) shape).
Proof.
  induction shape as [|n shape IH]; [reflexivity|].
  rewrite !filter_cons. cbn [map numel_of]. rewrite IH.
  destruct (Z.eqb_spec n (-1)) as [->|Hn].
  - rewrite decide_True by reflexivity.
    rewrite decide_False by (intros H; apply H; reflexivity).
    cbn [length]. rewrite Nat2Z.inj_succ, Z.pow_succ_r by lia. ring.
  - rewrite decide_False by (intros H; apply Hn; symmetry; exact H).
    rewrite decide_True by exact Hn.
    cbn [numel_of]. ring.
Qed.

Lemma inferred_nonneg (q : Z) (shape : list Z) :
  0 <= q -> forallb (Z.leb (-1)) shape = true ->
  Forall (fun n => 0 <= n)
         (map (fun n => if n =? -1 then q else n) shape).
Proof.
  intros Hq. induction shape as [|n shape IH]; simpl; intros H.
  - constructor.
  - apply andb_true_iff in H as [Hn H]. apply Z.leb_le in Hn.
    constructor; [|apply IH; exact H].
    destruct (Z.eqb_spec n (-1)); lia.
Qed.

Lemma filter_nonneg (shape : list Z) :
  forallb (Z.leb (-1)) shape = true ->
  Forall (fun n => 0 <= n) (filter (fun n => n <> -1) shape).
Proof.
  induction shape as [|n shape IH]; simpl; intros Hall.
  - constructor.
  - apply andb_true_iff in Hall as [Hn Hall]. apply Z.leb_le in Hn.
    rewrite filter_cons. destruct (decide (n <> -1)).
    + constructor; [lia | apply IH; exact Hall].
    + apply IH; exact Hall.
Qed.

(** A shape that [infer_size] accepts has no negative entry and as many
    elements as were asked for. *)
Lemma infer_size_ok_inv (shape : list Z) (numel : Z) (sz : list Z) :
  0 <= numel ->
  infer_size shape numel = Ok sz ->
  Forall (fun n => 0 <= n) sz /\ numel_of sz = numel.
Proof.
  intros Hnn H. unfold infer_size in H.
  apply bind_ok_inv in H as ([] & Hge & H). apply check_ok_inv in Hge.
  apply bind_ok_inv in H as ([] & Hinf & H). apply check_ok_inv in Hinf.
  apply bind_ok_inv in H as ([] & Hnum & H). apply check_ok_inv in Hnum.
  apply bind_ok_inv in H as ([] & Hdet & H). apply check_ok_inv in Hdet.
  injection H as <-.
  pose proof (filter_nonneg shape Hge) as Hf.
  apply numel_of_nonneg in Hf.
  set (newsize := numel_of (filter (fun n => n <> -1) shape)) in *.
  split.
  - apply inferred_nonneg; [|exact Hge].
    destruct (Z.eq_dec newsize 0) as [->|Hne].
    + rewrite Z.div_0_r. lia.
    + apply Z.div_pos; lia.
  - rewrite numel_of_inferred. fold newsize.
    apply Nat.leb_le in Hinf.
    destruct (length (filter (eq (-1)) shape)) as [|[|k]] eqn:Hk; [| |lia].
    + cbn [Nat.eqb andb orb] in Hnum. rewrite orb_false_r in Hnum.
      apply Z.eqb_eq in Hnum. simpl. lia.
    + cbn [Nat.eqb orb] in Hdet.
      apply negb_true_iff, Z.eqb_neq in Hdet.
      change (Z.of_nat 1) with 1. rewrite Z.pow_1_r.
      apply orb_true_iff in Hnum as [Hnum | Hnum].
      * apply Z.eqb_eq in Hnum. rewrite Hnum, Z_div_same_full by exact Hdet.
        lia.
      * apply andb_true_iff in Hnum as [_ Hmod]. apply Z.eqb_eq in Hmod.
        rewrite Z.mul_comm. symmetry.
        apply Z_div_exact_full_2; assumption.
Qed.

(** Under the layout test the strides address as row-major ones do. *)
Lemma dense_dot (sz st j : list Z) :
  length st = length sz ->
  dense_strides sz st = true ->
  valid_index sz j ->
  dot j st = dot j (contiguous_strides sz).
Proof.
  intros Hlen Hd Hj. revert st Hlen Hd.
  induction Hj as [|i n j sz Hi Hj IH]; intros st Hlen Hd; [reflexivity|].
  destruct st as [|s st]; [discriminate Hlen|].
  simpl in Hd. apply andb_true_iff in Hd as [Hs Hd].
  simpl. rewrite (IH st) by (simpl in Hlen; lia || exact Hd). f_equal.
  apply orb_true_iff in Hs as [Hs | Hs].
  - apply Z.eqb_eq in Hs. assert (i = 0) as -> by lia. lia.
  - apply Z.eqb_eq in Hs. rewrite Hs.
    rewrite stride_prod_numel; [reflexivity|].
    eapply valid_index_sizes_pos. exact Hj.
Qed.

Lemma contiguous_dot (t : Tensor) (j : list Z) :
  wf t -> is_contiguous t = true -> valid_index (sizes t) j ->
  dot j (strides t) = dot j (contiguous_strides (sizes t)).
Proof.
  intros Hwf Hc Hj. apply dense_dot; [exact Hwf | | exact Hj].
  unfold is_contiguous in Hc. apply orb_true_iff in Hc as [Hz | Hd];
    [|exact Hd].
  apply Z.eqb_eq in Hz. pose proof (ravel_lt_numel _ _ Hj). lia.
Qed.


Lemma is_contiguous_row_major (t : Tensor) (off : Z) (sz : list Z) :
  Forall (fun n => 0 <= n) sz ->
  is_contiguous (with_geometry t off sz (contiguous_strides sz)) = true.
Proof.
  intros Hsz. unfold is_contiguous, with_geometry. cbn [sizes strides].
  destruct (Z.eqb_spec (numel_of sz) 0) as [|Hne]; [reflexivity|].
  simpl. apply dense_contiguous. apply numel_nonzero_pos; assumption.
Qed.

Lemma view_ok_inv (t : Tensor) (shape : list Z) (v : Tensor) :
  view t shape = Ok v ->
  exists sz, infer_size shape (numel_of (sizes t)) = Ok sz /\
             is_contiguous t = true /\
             v = with_geometry t (storage_offset t) sz
                   (contiguous_strides sz).
Proof.
  unfold view. intros H.
  apply bind_ok_inv in H as (sz & Hsz & H).
  apply bind_ok_inv in H as ([] & Hc & H). apply check_ok_inv in Hc.
  injection H as <-. exists sz. repeat split; assumption.
Qed.


(** *** _neg_view and _reshape_alias *)

Lemma lookup_map_opp (s : list Z) (i : nat) :
  map Z.opp s !! i = option_map Z.opp (s !! i).
Proof.
  revert i. induction s as [|x s IH]; intros [|i]; simpl;
    try reflexivity. apply IH.
Qed.

Lemma read_map_opp (s : list Z) (k : Z) :
  read (map Z.opp s) k = - read s k.
Proof.
  unfold read. destruct (k <? 0); [reflexivity|].
  rewrite lookup_map_opp. destruct (s !! Z.to_nat k); reflexivity.
Qed.

Lemma get_neg_view (t : Tensor) (idx : list Z) :
  get (_neg_view t) idx = - get t idx.
Proof. unfold get, addr, _neg_view. simpl. apply read_map_opp. Qed.

Lemma neg_ok (t : Tensor) :
  scalar_type t <> Bool ->
  neg t
  = Ok (materialize (sizes t) (scalar_type t) (fun idx => - get t idx)).
Proof.
  intros H. unfold neg. destruct (scalar_type t); try reflexivity.
  exfalso. apply H. reflexivity.
Qed.



(** ** Properties of the specification *)




(** The law fails for unfold as well, even when the view is not mutated:
    the windows of two positions of the base 1, 2, 3 overlap at the
    middle position, which the inverse returns doubled. *)
Lemma round_trip_fails_for_unfold :
  exists b a' b'',
    forward (Unfold 0 2 1) (tensor_of [3] [1; 2; 3]) = Ok b /\
    inverse (Unfold 0 2 1) (tensor_of [3] [1; 2; 3]) b = Ok a' /\
    forward (Unfold 0 2 1) a' = Ok b'' /\
    get a' [1] = 4 /\ get b'' [0; 1] = 4 /\ get b [0; 1] = 2 /\
    ~ tensor_eq b'' b.
Proof.
  eexists. eexists. eexists.
  split; [vm_compute; reflexivity|].
  split; [vm_compute; reflexivity|].
  split; [vm_compute; reflexivity|].
  split; [reflexivity|]. split; [reflexivity|]. split; [reflexivity|].
  intros [_ H]. specialize (H [0; 1]).
  assert (Hv : valid_index [2; 2] [0; 1]).
  { constructor; [lia|]. constructor; [lia | constructor]. }
  specialize (H Hv). vm_compute in H. discriminate H.
Qed.

(** Without its side condition the law fails for _reshape_alias: on a
    base of shape (2,3) laid out column by column, a request with that
    shape and those strides, and a contiguous mutated view holding
    10 .. 15, the inverse reads the buffer of the mutated view through
    the strides of the base, and the replay returns 12 where the mutated
    view holds 11. *)
Lemma round_trip_fails_for_reshape_alias :
  exists b a' b'',
    forward (ReshapeAlias [2; 3] [1; 2])
      (mkTensor (seqZ 0 6) 0 [2; 3] [1; 2] Float) = Ok b /\
    sizes (tensor_of [2; 3] [10; 11; 12; 13; 14; 15]) = sizes b /\
    inverse (ReshapeAlias [2; 3] [1; 2])
      (mkTensor (seqZ 0 6) 0 [2; 3] [1; 2] Float)
      (tensor_of [2; 3] [10; 11; 12; 13; 14; 15]) = Ok a' /\
    forward (ReshapeAlias [2; 3] [1; 2]) a' = Ok b'' /\
    get b'' [0; 1] = 12 /\
    get (tensor_of [2; 3] [10; 11; 12; 13; 14; 15]) [0; 1] = 11 /\
    ~ tensor_eq b'' (tensor_of [2; 3] [10; 11; 12; 13; 14; 15]).
Proof.
  eexists. eexists. eexists.
  split; [reflexivity|]. split; [reflexivity|].
  split; [reflexivity|]. split; [reflexivity|].
  split; [reflexivity|]. split; [reflexivity|].
  intros [_ H]. specialize (H [0; 1]).
  assert (Hv : valid_index [2; 3] [0; 1]).
  { constructor; [lia|]. constructor; [lia | constructor]. }
  specialize (H Hv). vm_compute in H. discriminate H.
Qed.

(** Without its side condition the law fails for _neg_view: the inverse
    negates the mutated view, and negation is rejected on a Bool
    tensor. *)
Lemma round_trip_fails_for_bool_neg_view :
  exists b,
    forward NegView (mkTensor [1; 0] 0 [2] [1] Bool) = Ok b /\
    sizes (mkTensor [0; 1] 0 [2] [1] Bool) = sizes b /\
    inverse NegView (mkTensor [1; 0] 0 [2] [1] Bool)
      (mkTensor [0; 1] 0 [2] [1] Bool) = Err CheckFailed.
Proof. eexists. repeat split; reflexivity. Qed.

(** C2 (as amended).  Permutation inverse.  For a valid axis permutation
    [dims], whose wrapped entries are [ds], [permute_inverse] builds
    [dims_] with [dims_[ds[i]] = i] for every [i] and returns
    [v.permute(dims_)]; applied to [x.permute(dims)] with the same [dims]
    it gives back [x], axis order, strides and storage. *)
Theorem permute_inverse_inverts_permute (base x y : Tensor)
  (dims ds : list Z) :
  wf x ->
  wrap_dims dims (Z.of_nat (length dims)) = Ok ds ->
  NoDup ds ->
  exists dims_,
    invert_dims dims (Z.of_nat (length dims)) 0 (replicate (length dims) 0)
      = Ok dims_ /\
    (forall i d, ds !! i = Some d ->
                 dims_ !! Z.to_nat d = Some (Z.of_nat i)) /\
    (forall v, permute_inverse base v dims = permute v dims_) /\
    (permute x dims = Ok y -> permute_inverse base y dims = Ok x).
Proof.
  intros Hwf Hw Hnd.
  destruct (invert_dims_permutation dims ds Hw Hnd)
    as (dims_ & Hinv & _ & Hhit & _).
  exists dims_. split; [exact Hinv|]. split; [exact Hhit|]. split.
  - intros v. unfold permute_inverse, permute_inverse_dims. cbv zeta.
    rewrite Hinv. reflexivity.
  - intros Hperm. apply permute_inverse_permute; assumption.
Qed.

(** The theorem at a tensor of shape (2,3,4) and the rotation
    [dims = (1, -1, 0)]. *)
Lemma permute_inverse_inverts_permute_witness :
  exists dims_,
    invert_dims [1; -1; 0] 3 0 [0; 0; 0] = Ok dims_ /\
    (forall i d, [1; 2; 0] !! i = Some d ->
                 dims_ !! Z.to_nat d = Some (Z.of_nat i)) /\
    (forall v, permute_inverse (arange [2; 3; 4]) v [1; -1; 0]
               = permute v dims_) /\
    (permute (arange [2; 3; 4]) [1; -1; 0]
       = Ok (mkTensor (seqZ 0 24) 0 [3; 4; 2] [4; 1; 12] Float) ->
     permute_inverse (arange [2; 3; 4])
       (mkTensor (seqZ 0 24) 0 [3; 4; 2] [4; 1; 12] Float) [1; -1; 0]
     = Ok (arange [2; 3; 4])).
Proof.
  apply (permute_inverse_inverts_permute (arange [2; 3; 4]) (arange [2; 3; 4])
           (mkTensor (seqZ 0 24) 0 [3; 4; 2] [4; 1; 12] Float)
           [1; -1; 0] [1; 2; 0]).
  - reflexivity.
  - reflexivity.
  - apply (bool_decide_unpack _). vm_compute. exact I.
Defined.

(** C2 as stated fails: applying [permute_inverse] twice with the
    rotation [dims = (1, 2, 0)] to a tensor of shape (2,3,4) gives shape
    (3,4,2), not the original axis order. *)
Lemma permute_inverse_twice_counterexample :
  exists y z,
    permute_inverse (arange [2; 3; 4]) (arange [2; 3; 4]) [1; 2; 0] = Ok y /\
    permute_inverse (arange [2; 3; 4]) y [1; 2; 0] = Ok z /\
    sizes z = [3; 4; 2] /\
    sizes z <> sizes (arange [2; 3; 4]).
Proof.
  eexists. eexists.
  split; [vm_compute; reflexivity|].
  split; [vm_compute; reflexivity|].
  split; [reflexivity|]. discriminate.
Qed.

(** C3.  Partition offsets.  With [d] the wrapped axis and [dim_size]
    its size in [base], [split_inverse] scatters the mutated view over
    the slice [[idx * split_size, min(dim_size, (idx + 1) * split_size))]
    with step one, and [split_with_sizes_inverse] over the slice that
    starts at the sum of the sizes before [idx] and ends at
    [min(dim_size, start + split_sizes[idx])], whenever these offsets fit
    [int64_t].  For an axis of size ten, [split_size = 3] gives the
    slices [0,3), [3,6), [6,9), [9,10) and the sizes (2, 5, 4) give
    [0,2), [2,7), [7,10). *)
Theorem partition_offsets (base v base10 : Tensor)
  (idx split_size dim_ d dim_size s : Z) (split_sizes : list Z) :
  c10.maybe_wrap_dim dim_ (Z.of_nat (length (sizes base))) = Ok d ->
  size base d = Ok dim_size ->
  c10.int64_range (idx * split_size) ->
  c10.int64_range ((idx + 1) * split_size) ->
  0 <= idx ->
  split_sizes !! Z.to_nat idx = Some s ->
  (forall k, (k <= S (Z.to_nat idx))%nat ->
             c10.int64_range (sumZ (take k split_sizes))) ->
  sizes base10 = [10] ->
  split_inverse base v idx split_size dim_
    = slice_scatter base v d
        (Some (idx * split_size))
        (Some (Z.min dim_size ((idx + 1) * split_size))) 1 /\
  split_with_sizes_inverse base v idx split_sizes dim_
    = slice_scatter base v d
        (Some (sumZ (take (Z.to_nat idx) split_sizes)))
        (Some (Z.min dim_size (sumZ (take (Z.to_nat idx) split_sizes) + s)))
        1 /\
  (split_inverse base10 v 0 3 0
     = slice_scatter base10 v 0 (Some 0) (Some 3) 1 /\
   split_inverse base10 v 1 3 0
     = slice_scatter base10 v 0 (Some 3) (Some 6) 1 /\
   split_inverse base10 v 2 3 0
     = slice_scatter base10 v 0 (Some 6) (Some 9) 1 /\
   split_inverse base10 v 3 3 0
     = slice_scatter base10 v 0 (Some 9) (Some 10) 1) /\
  (split_with_sizes_inverse base10 v 0 [2; 5; 4] 0
     = slice_scatter base10 v 0 (Some 0) (Some 2) 1 /\
   split_with_sizes_inverse base10 v 1 [2; 5; 4] 0
     = slice_scatter base10 v 0 (Some 2) (Some 7) 1 /\
   split_with_sizes_inverse base10 v 2 [2; 5; 4] 0
     = slice_scatter base10 v 0 (Some 7) (Some 10) 1).
Proof.
  intros Hd Hsize Hr1 Hr2 Hidx Hs Hsum H10.
  split; [|split; [|split]].
  - unfold split_inverse. rewrite Hd. cbn [bind]. rewrite Hsize. cbn [bind].
    unfold c10.mul64, c10.add64.
    rewrite (wrap64_id (idx * split_size)) by exact Hr1.
    replace (idx * split_size + split_size) with ((idx + 1) * split_size)
      by lia.
    rewrite wrap64_id by exact Hr2. rewrite clip_min. reflexivity.
  - unfold split_with_sizes_inverse. rewrite Hd. cbn [bind].
    rewrite Hsize. cbn [bind]. rewrite split_start_spec.
    + cbn [bind]. rewrite (at_index_lookup _ _ _ Hidx Hs). cbn [bind].
      replace (idx - 0) with idx by lia. rewrite Z.add_0_l.
      unfold c10.add64. rewrite wrap64_id.
      * rewrite clip_min. reflexivity.
      * rewrite <- (sumZ_take_S _ _ _ Hs). apply Hsum. lia.
    + lia.
    + apply lookup_lt_Some in Hs. lia.
    + intros k Hk. rewrite Z.add_0_l. apply Hsum. lia.
  - unfold split_inverse, size, ATen.dim. rewrite H10.
    repeat split; reflexivity.
  - unfold split_with_sizes_inverse, size, ATen.dim. rewrite H10.
    repeat split; reflexivity.
Qed.

(** The theorem at a base of shape (10): the last part of a split by
    three and the last of the sizes (2, 5, 4, 1) taken at index 2. *)
Lemma partition_offsets_witness :
  split_inverse (arange [10]) (tensor_of [1] [7]) 3 3 0
    = slice_scatter (arange [10]) (tensor_of [1] [7]) 0 (Some 9) (Some 10) 1 /\
  split_with_sizes_inverse (arange [10]) (tensor_of [1] [7]) 2 [2; 5; 4] 0
    = slice_scatter (arange [10]) (tensor_of [1] [7]) 0 (Some 7) (Some 10) 1.
Proof.
  pose proof (partition_offsets (arange [10]) (tensor_of [1] [7])
                (arange [10]) 3 3 0 0 10 1 [2; 5; 4; 1]) as H.
  destruct H as (H1 & _ & _ & H2).
  - reflexivity.
  - reflexivity.
  - unfold c10.int64_range. lia.
  - unfold c10.int64_range. lia.
  - lia.
  - reflexivity.
  - intros k Hk. unfold c10.int64_range.
    do 5 (destruct k as [|k]; [simpl; lia|]). simpl in Hk. lia.
  - reflexivity.
  - split; [exact H1 | apply H2].
Defined.

(** C4.  Broadcast-expansion inverse.  When the shape of the mutated
    view [v] is an expansion of the shape of [base], [expand_inverse]
    returns a tensor of exactly the shape of [base] whose element at each
    coordinate is the sum of the elements of [v] at the coordinates that
    are broadcast copies of it: the axes [v] has in addition are summed
    away, and the axes where [base] has size one are summed and kept with
    size one.  For shapes (1,5) and (3,5) each element is the sum of the
    three copies. *)
Theorem expand_inverse_sums (base v : Tensor) (size_ : list Z)
  (implicit : bool) :
  expands_to (sizes base) (sizes v) ->
  exists out,
    expand_inverse base v size_ implicit = Ok out /\
    sizes out = sizes base /\
    (forall idx, valid_index (sizes base) idx ->
       get out idx
       = sumZ (map (get v)
                 (filter (fun j => broadcast_coord (sizes base) j = idx)
                         (all_indices (sizes v))))) /\
    (sizes base = [1; 5] -> sizes v = [3; 5] ->
     forall c, 0 <= c < 5 ->
       get out [0; c] = get v [0; c] + get v [1; c] + get v [2; c]).
Proof.
  intros Hexp.
  destruct (sum_to_spec v (sizes base) Hexp) as (out & Hout & Hsz & Hget).
  exists out. split; [exact Hout|]. split; [exact Hsz|]. split; [exact Hget|].
  intros Hb Hv c Hc. rewrite Hb, Hv in Hget.
  rewrite Hget by (constructor; [lia | constructor; [lia | constructor]]).
  assert (Hcases : c = 0 \/ c = 1 \/ c = 2 \/ c = 3 \/ c = 4) by lia.
  destruct Hcases as [-> | [-> | [-> | [-> | ->]]]].
  all: match goal with
       | |- sumZ (map _ ?l) = _ =>
           let l' := eval vm_compute in l in
           change l with l'
       end; simpl; lia.
Qed.

(** The theorem at a base of shape (1,5) and a view of shape (3,5). *)
Lemma expand_inverse_sums_witness :
  exists out,
    expand_inverse (arange [1; 5]) (arange [3; 5]) [3; 5] false = Ok out /\
    sizes out = sizes (arange [1; 5]) /\
    (forall idx, valid_index (sizes (arange [1; 5])) idx ->
       get out idx
       = sumZ (map (get (arange [3; 5]))
                 (filter
                    (fun j => broadcast_coord (sizes (arange [1; 5])) j = idx)
                    (all_indices (sizes (arange [3; 5])))))) /\
    (sizes (arange [1; 5]) = [1; 5] -> sizes (arange [3; 5]) = [3; 5] ->
     forall c, 0 <= c < 5 ->
       get out [0; c]
       = get (arange [3; 5]) [0; c] + get (arange [3; 5]) [1; c]
         + get (arange [3; 5]) [2; c]).
Proof.
  apply (expand_inverse_sums (arange [1; 5]) (arange [3; 5]) [3; 5] false).
  unfold expands_to. simpl. split; [lia|]. split.
  - constructor; [right; reflexivity|].
    constructor; [left; reflexivity | constructor].
  - repeat constructor; lia.
Defined.

Section WithKernels.
Context `{K : Kernels}.

(** C5.  Unsupported paths.  [_fw_primal_inverse], [as_strided_inverse]
    and the six sparse accessors fail with an internal assertion for
    every input and never return a tensor. *)
Theorem unsupported_paths_fail (base mutated_view : Tensor) (level : Z)
  (size_ stride : list Z) (storage_offset : option Z) :
  fails_internally (_fw_primal_inverse base mutated_view level) /\
  fails_internally
    (as_strided_inverse base mutated_view size_ stride storage_offset) /\
  fails_internally (_indices_inverse base mutated_view) /\
  fails_internally (_values_inverse base mutated_view) /\
  fails_internally (indices_inverse base mutated_view) /\
  fails_internally (values_inverse base mutated_view) /\
  fails_internally (crow_indices_inverse base mutated_view) /\
  fails_internally (col_indices_inverse base mutated_view).
Proof.
  repeat split; try (eexists; reflexivity); intros r; discriminate.
Qed.

(** C7.  Identity-shaped inverses.  Each of the six inverses is the
    stated transform of the mutated view, and two calls that differ only
    in the base return the same. *)
Theorem identity_shaped_inverses (base base' v : Tensor) :
  (view_as_real_inverse base v = view_as_complex v /\
   view_as_complex_inverse base v
     = (let! r := resolve_conj v in view_as_real r) /\
   _conj_inverse base v = conj v /\
   _neg_view_inverse base v = neg v /\
   detach_inverse base v = Ok v /\
   alias_inverse base v = Ok v) /\
  (view_as_real_inverse base v = view_as_real_inverse base' v /\
   view_as_complex_inverse base v = view_as_complex_inverse base' v /\
   _conj_inverse base v = _conj_inverse base' v /\
   _neg_view_inverse base v = _neg_view_inverse base' v /\
   detach_inverse base v = detach_inverse base' v /\
   alias_inverse base v = alias_inverse base' v).
Proof. repeat split. Qed.

End WithKernels.

(** C6.  Squeeze with an axis.  [squeeze_inverse(base, v, dim)] wraps
    [dim] against the rank of [base]; it returns [v.unsqueeze(d)] when
    the size of [base] at the wrapped axis [d] is one and [v] itself
    otherwise, and it raises what the wrapping raises. *)
Theorem squeeze_inverse_dim_conditional (base v : Tensor) (dim_ : Z) :
  match c10.maybe_wrap_dim dim_ (Z.of_nat (length (sizes base))) with
  | Ok d =>
      if bool_decide (sizes base !! Z.to_nat d = Some 1)
      then squeeze_inverse_dim base v dim_ = unsqueeze v d
      else squeeze_inverse_dim base v dim_ = Ok v
  | Err e => squeeze_inverse_dim base v dim_ = Err e
  end.
Proof.
  unfold squeeze_inverse_dim, unsqueeze_to_dim.
  destruct (c10.maybe_wrap_dim dim_ _) as [d|e] eqn:Hd; [|reflexivity].
  cbn [bind]. apply maybe_wrap_dim_ok in Hd. destruct Hd as (_ & _ & Hd).
  destruct (Z.ltb_spec 0 (Z.of_nat (length (sizes base)))) as [Hlen|Hlen].
  - destruct (sizes base !! Z.to_nat d) as [x|] eqn:Hx.
    + rewrite (at_index_lookup _ _ _ (proj1 Hd) Hx). cbn [bind].
      case_bool_decide as Hx1.
      * injection Hx1 as ->. reflexivity.
      * destruct (Z.eqb_spec x 1); [congruence | reflexivity].
    + apply lookup_ge_None in Hx. lia.
  - case_bool_decide as Hx1; [|reflexivity].
    apply lookup_lt_Some in Hx1. lia.
Qed.

(** C8.  Diagonal scatter.  For a base of shape (4,6) and a patch [d]
    of four elements, [diagonal_inverse(base, d, 0, 0, 1)] returns a
    tensor of shape (4,6) whose four main-diagonal elements are those of
    [d] and whose twenty other elements are those of [base]. *)
Theorem diagonal_scatter_frame (base d : Tensor) :
  sizes base = [4; 6] -> sizes d = [4] ->
  exists r,
    diagonal_inverse base d 0 0 1 = Ok r /\
    sizes r = [4; 6] /\
    (forall i, 0 <= i < 4 -> get r [i; i] = get d [i]) /\
    (forall i j, 0 <= i < 4 -> 0 <= j < 6 -> i <> j ->
                 get r [i; j] = get base [i; j]) /\
    length (filter (fun idx => nth_or0 idx 0 = nth_or0 idx 1)
                   (all_indices [4; 6])) = 4%nat /\
    length (filter (fun idx => nth_or0 idx 0 <> nth_or0 idx 1)
                   (all_indices [4; 6])) = 20%nat.
Proof.
  intros Hb Hd.
  assert (Hdiag : exists b, diagonal base 0 0 1 = Ok b /\ sizes b = [4]).
  { unfold diagonal, ATen.dim. rewrite Hb. cbn. eexists.
    split; reflexivity. }
  destruct Hdiag as (b & Hdiag & Hbs).
  destruct (scatter_through_spec _ _ base d b (diagonal_view_law 0 0 1) Hdiag)
    as (r & v' & Hr & Hsz & _ & _ & Hget & Hframe).
  { congruence. }
  exists r. split; [exact Hr|]. split; [congruence|].
  rewrite Hb, Hbs in *. split; [|split; [|split]].
  - intros i Hi. rewrite <- (Hget [i]).
    + rewrite main_diagonal_coord. reflexivity.
    + constructor; [lia | constructor].
  - intros i j Hi Hj Hne. apply Hframe.
    + constructor; [lia|]. constructor; [lia | constructor].
    + intros k Hk. inversion Hk as [|k0 ? ks ? _ Hnil]; subst.
      inversion Hnil; subst. rewrite main_diagonal_coord.
      intros Heq. injection Heq as -> ->. apply Hne. reflexivity.
  - reflexivity.
  - reflexivity.
Qed.

(** The theorem at the base [0 .. 23] of shape (4,6) and the patch
    100, 101, 102, 103. *)
Lemma diagonal_scatter_frame_witness :
  exists r,
    diagonal_inverse (arange [4; 6]) (tensor_of [4] [100; 101; 102; 103])
      0 0 1 = Ok r /\
    sizes r = [4; 6] /\
    (forall i, 0 <= i < 4 ->
       get r [i; i] = get (tensor_of [4] [100; 101; 102; 103]) [i]) /\
    (forall i j, 0 <= i < 4 -> 0 <= j < 6 -> i <> j ->
                 get r [i; j] = get (arange [4; 6]) [i; j]) /\
    length (filter (fun idx => nth_or0 idx 0 = nth_or0 idx 1)
                   (all_indices [4; 6])) = 4%nat /\
    length (filter (fun idx => nth_or0 idx 0 <> nth_or0 idx 1)
                   (all_indices [4; 6])) = 20%nat.
Proof.
  apply (diagonal_scatter_frame (arange [4; 6])
           (tensor_of [4] [100; 101; 102; 103])).
  - reflexivity.
  - reflexivity.
Defined.

(** C9.  Scalar base.  When [base] has rank zero,
    [squeeze_inverse(base, v, dim)] returns [v] unchanged for every [dim]
    the wrapping accepts against rank zero, which are [-1] and [0]. *)
Theorem squeeze_inverse_scalar_base (base v : Tensor) (dim_ d : Z) :
  sizes base = [] ->
  c10.maybe_wrap_dim dim_ 0 = Ok d ->
  squeeze_inverse_dim base v dim_ = Ok v /\ (dim_ = -1 \/ dim_ = 0).
Proof.
  intros Hsz Hd. split.
  - unfold squeeze_inverse_dim, unsqueeze_to_dim.
    rewrite Hsz. simpl length. change (Z.of_nat 0) with 0. rewrite Hd.
    reflexivity.
  - apply maybe_wrap_dim_ok in Hd. lia.
Qed.

(** The theorem at a scalar base and [dim = -1]. *)
Lemma squeeze_inverse_scalar_base_witness :
  squeeze_inverse_dim (tensor_of [] [5]) (tensor_of [] [9]) (-1)
    = Ok (tensor_of [] [9]) /\ (-1 = -1 \/ -1 = 0).
Proof.
  apply (squeeze_inverse_scalar_base (tensor_of [] [5]) (tensor_of [] [9])
           (-1) 0).
  - reflexivity.
  - reflexivity.
Defined.

(** C10.  Mirrored arguments.  [expand_inverse], the shape overload of
    [view_inverse] and [_reshape_alias_inverse] return the same for every
    value of the mirrored forward arguments, and for any two bases of
    equal sizes and strides. *)
Theorem mirrored_arguments_ignored (base base' v : Tensor)
  (size_ size' stride stride' : list Z) (implicit implicit' : bool) :
  sizes base = sizes base' ->
  strides base = strides base' ->
  expand_inverse base v size_ implicit
    = expand_inverse base' v size' implicit' /\
  view_inverse base v size_ = view_inverse base' v size' /\
  _reshape_alias_inverse base v size_ stride
    = _reshape_alias_inverse base' v size' stride'.
Proof.
  intros Hsz Hst.
  unfold expand_inverse, view_inverse, _reshape_alias_inverse.
  rewrite Hsz, Hst. repeat split.
Qed.

(** The theorem at two bases of shape (1,5) with different content and
    two different sets of mirrored arguments. *)
Lemma mirrored_arguments_ignored_witness :
  expand_inverse (arange [1; 5]) (arange [3; 5]) [3; 5] false
    = expand_inverse (tensor_of [1; 5] [9; 9; 9; 9; 9]) (arange [3; 5])
        [7] true /\
  view_inverse (arange [1; 5]) (arange [3; 5]) [3; 5]
    = view_inverse (tensor_of [1; 5] [9; 9; 9; 9; 9]) (arange [3; 5]) [7] /\
  _reshape_alias_inverse (arange [1; 5]) (arange [3; 5]) [3; 5] [5; 1]
    = _reshape_alias_inverse (tensor_of [1; 5] [9; 9; 9; 9; 9])
        (arange [3; 5]) [7] [1].
Proof.
  apply (mirrored_arguments_ignored (arange [1; 5])
           (tensor_of [1; 5] [9; 9; 9; 9; 9]) (arange [3; 5])).
  - reflexivity.
  - reflexivity.
Defined.

(** ** Further properties of the inverses *)

(** *** The permutation helper *)

Lemma maybe_wrap_dim_err (dim_ n : Z) (e : Error) :
  c10.maybe_wrap_dim dim_ n = Err e -> e = IndexError.
Proof.
  unfold c10.maybe_wrap_dim, c10.maybe_wrap_dim_gen.
  rewrite orb_true_r. cbn [check bind].
  destruct (negb _); cbn [check bind]; [discriminate|].
  intros H. injection H as <-. reflexivity.
Qed.

Lemma invert_dims_out_of_range (dims : list Z) (n i : Z) (acc : list Z) :
  0 < n ->
  Exists (fun d => d < - n \/ n <= d) dims ->
  invert_dims dims n i acc = Err IndexError.
Proof.
  intros Hn Hex. revert i acc.
  induction dims as [|d rest IH]; intros i acc;
    [apply Exists_nil in Hex; destruct Hex|].
  simpl. destruct (c10.maybe_wrap_dim d n) as [w|e] eqn:Hw; cbn [bind].
  - apply List.Exists_cons in Hex. destruct Hex as [Hd|Hrest].
    + apply maybe_wrap_dim_ok in Hw. lia.
    + apply IH. exact Hrest.
  - apply maybe_wrap_dim_err in Hw. rewrite Hw. reflexivity.
Qed.

(** X1.  [permute_inverse] wraps every entry of [dims] against
    [dims.size()]: when some entry lies outside [[-n, n)] for
    [n = dims.size()] the call raises the index error of the wrapping,
    whatever the tensors are. *)
Theorem permute_inverse_rejects_out_of_range (base v : Tensor)
  (dims : list Z) :
  Exists (fun d => d < - Z.of_nat (length dims) \/ Z.of_nat (length dims) <= d)
         dims ->
  permute_inverse base v dims = Err IndexError.
Proof.
  intros Hex. unfold permute_inverse, permute_inverse_dims. cbv zeta.
  rewrite invert_dims_out_of_range; [reflexivity | | exact Hex].
  destruct dims; [apply Exists_nil in Hex; destruct Hex | simpl length; lia].
Qed.

(** The theorem at [dims = (0, 2)]. *)
Lemma permute_inverse_rejects_out_of_range_witness :
  permute_inverse (arange [2; 3]) (arange [3; 2]) [0; 2] = Err IndexError.
Proof.
  apply (permute_inverse_rejects_out_of_range (arange [2; 3]) (arange [3; 2])
           [0; 2]).
  apply List.Exists_cons_tl. apply List.Exists_cons_hd. simpl. lia.
Defined.

(** The loop of [permute_inverse] on any axes that wrap: the last
    position naming an axis wins, an axis that is not named keeps its
    initial entry. *)
Lemma invert_dims_last_write (dims : list Z) :
  forall (ds : list Z) (n i : Z) (acc : list Z),
    wrap_dims dims n = Ok ds ->
    Forall (fun w => 0 <= w < Z.of_nat (length acc)) ds ->
    exists dims_,
      invert_dims dims n i acc = Ok dims_ /\
      length dims_ = length acc /\
      (forall k w, ds !! k = Some w ->
                   (forall k', (k < k')%nat -> ds !! k' <> Some w) ->
                   dims_ !! Z.to_nat w = Some (i + Z.of_nat k)) /\
      (forall j, (forall w, w ∈ ds -> Z.to_nat w <> j) ->
                 dims_ !! j = acc !! j).
Proof.
  induction dims as [|d rest IH]; intros ds n i acc Hw Hr.
  - injection Hw as <-. exists acc. split; [reflexivity|].
    split; [reflexivity|]. split; [intros k w Hk; discriminate Hk|].
    reflexivity.
  - simpl in Hw. inv_ok. subst ds. rename a into w0, a0 into ds'.
    apply list.Forall_cons in Hr. destruct Hr as [Hw0 Hr].
    destruct (IH ds' n (i + 1) (<[Z.to_nat w0 := i]> acc) Ha0)
      as (dims_ & Hinv & Hlen & Hhit & Hkeep).
    { rewrite length_insert. exact Hr. }
    exists dims_. simpl. rewrite Ha. cbn [bind].
    split; [exact Hinv|]. rewrite length_insert in Hlen.
    split; [exact Hlen|]. split.
    + intros [|k] w Hk Hlast.
      * injection Hk as <-. rewrite Hkeep.
        -- rewrite list_lookup_insert_eq by lia. f_equal. lia.
        -- intros w Hin Heq. apply list_elem_of_lookup in Hin.
           destruct Hin as [k' Hk'].
           rewrite list.Forall_forall in Hr.
           assert (Hwr := Hr w (list_elem_of_lookup_2 _ _ _ Hk')).
           assert (w = w0) as -> by lia.
           apply (Hlast (S k')); [lia | exact Hk'].
      * rewrite (Hhit k w Hk).
        -- f_equal. lia.
        -- intros k' Hlt. apply (Hlast (S k')). lia.
    + intros j Hj. rewrite Hkeep.
      * apply list_lookup_insert_ne. apply Hj. left.
      * intros w Hin. apply Hj. right. exact Hin.
Qed.

Lemma wrap_dims_length (dims ds : list Z) (n : Z) :
  wrap_dims dims n = Ok ds -> length ds = length dims.
Proof.
  intros H. apply wrap_dims_ok in H. symmetry.
  eapply list.Forall2_length. exact H.
Qed.

(** X2.  [permute_inverse] does not check that [dims] is a permutation.
    Whenever every entry wraps, the loop builds a list [dims_] of the
    length of [dims] in which an axis named several times maps to the
    last position that names it and an axis never named maps to 0, and
    the call is [v.permute(dims_)]. *)
Theorem permute_inverse_last_write_wins (base : Tensor) (dims ds : list Z) :
  wrap_dims dims (Z.of_nat (length dims)) = Ok ds ->
  exists dims_,
    length dims_ = length dims /\
    (forall v, permute_inverse base v dims = permute v dims_) /\
    (forall k w, ds !! k = Some w ->
                 (forall k', (k < k')%nat -> ds !! k' <> Some w) ->
                 dims_ !! Z.to_nat w = Some (Z.of_nat k)) /\
    (forall j, (j < length dims)%nat ->
               (forall w, w ∈ ds -> Z.to_nat w <> j) ->
               dims_ !! j = Some 0).
Proof.
  intros Hw.
  pose proof (wrap_dims_length _ _ _ Hw) as Hlen.
  destruct (invert_dims_last_write dims ds (Z.of_nat (length dims)) 0
              (replicate (length dims) 0) Hw)
    as (dims_ & Hinv & Hl & Hhit & Hkeep).
  { rewrite length_replicate.
    destruct dims as [|d0 dims']; [injection Hw as <-; constructor|].
    eapply list.Forall_impl; [apply (wrap_dims_range _ _ _ Hw)|].
    intros w Hr. simpl in Hr. simpl length. lia. }
  rewrite length_replicate in Hl.
  exists dims_. split; [exact Hl|]. split; [|split].
  - intros v. unfold permute_inverse, permute_inverse_dims. cbv zeta.
    rewrite Hinv. reflexivity.
  - intros k w Hk Hlast. rewrite (Hhit k w Hk Hlast). f_equal.
  - intros j Hj Hno. rewrite (Hkeep j Hno).
    apply lookup_replicate_2. exact Hj.
Qed.

(** The theorem at [dims = (0, -3, 1)], which names axis 0 twice. *)
Lemma permute_inverse_last_write_wins_witness :
  exists dims_,
    length dims_ = 3%nat /\
    (forall v, permute_inverse (arange [2]) v [0; -3; 1] = permute v dims_) /\
    (forall k w, [0; 0; 1] !! k = Some w ->
                 (forall k', (k < k')%nat -> [0; 0; 1] !! k' <> Some w) ->
                 dims_ !! Z.to_nat w = Some (Z.of_nat k)) /\
    (forall j, (j < 3)%nat ->
               (forall w, w ∈ [0; 0; 1] -> Z.to_nat w <> j) ->
               dims_ !! j = Some 0).
Proof.
  apply (permute_inverse_last_write_wins (arange [2]) [0; -3; 1] [0; 0; 1]).
  reflexivity.
Defined.

(** X3.  Inverting twice.  For a valid axis permutation [dims] with
    wrapped entries [ds], running the loop of [permute_inverse] on the
    list [dims_] it built for [dims] gives back [ds]:
    [permute_inverse(base, v, dims_)] is [v.permute(ds)]. *)
Theorem invert_dims_involutive (dims ds : list Z) :
  wrap_dims dims (Z.of_nat (length dims)) = Ok ds ->
  NoDup ds ->
  exists dims_,
    invert_dims dims (Z.of_nat (length dims)) 0 (replicate (length dims) 0)
      = Ok dims_ /\
    invert_dims dims_ (Z.of_nat (length dims_)) 0
      (replicate (length dims_) 0) = Ok ds /\
    forall base v, permute_inverse base v dims_ = permute v ds.
Proof.
  intros Hw Hnd.
  pose proof (wrap_dims_length _ _ _ Hw) as Hlen.
  destruct (invert_dims_permutation dims ds Hw Hnd)
    as (dims_ & Hinv & Hl & Hhit & Hback).
  assert (Hr : Forall (fun x => 0 <= x < Z.of_nat (length dims_)) dims_).
  { apply list.Forall_forall. intros x Hx.
    apply list_elem_of_lookup in Hx. destruct Hx as [j Hj].
    destruct (Hback j x Hj) as [H0 Hds].
    apply lookup_lt_Some in Hds. lia. }
  assert (Hnd' : NoDup dims_).
  { apply NoDup_alt. intros i j x Hi Hj.
    destruct (Hback i x Hi) as [_ Hpi]. destruct (Hback j x Hj) as [_ Hpj].
    rewrite Hpi in Hpj. injection Hpj as Hpj. lia. }
  pose proof (wrap_dims_id dims_ _ Hr) as Hw'.
  destruct (invert_dims_permutation dims_ dims_ Hw' Hnd')
    as (dd & Hinv' & Hl' & Hhit' & _).
  assert (Hdd : dd = ds).
  { apply list_eq. intros j.
    destruct (ds !! j) as [w|] eqn:Hj.
    - pose proof (Hhit j w Hj) as Hd.
      pose proof (Hhit' _ _ Hd) as Hdd.
      rewrite Nat2Z.id in Hdd. rewrite Hdd. f_equal.
      pose proof (wrap_dims_range _ _ _ Hw) as Hrange.
      rewrite list.Forall_forall in Hrange.
      pose proof (Hrange w (list_elem_of_lookup_2 _ _ _ Hj)). lia.
    - apply lookup_ge_None in Hj. apply lookup_ge_None. lia. }
  exists dims_. split; [exact Hinv|]. rewrite <- Hdd.
  split; [exact Hinv'|].
  intros base v. unfold permute_inverse, permute_inverse_dims. cbv zeta.
  rewrite Hinv'. reflexivity.
Qed.

(** The theorem at the rotation [dims = (1, -1, 0)]. *)
Lemma invert_dims_involutive_witness :
  exists dims_,
    invert_dims [1; -1; 0] 3 0 [0; 0; 0] = Ok dims_ /\
    invert_dims dims_ (Z.of_nat (length dims_)) 0
      (replicate (length dims_) 0) = Ok [1; 2; 0] /\
    forall base v, permute_inverse base v dims_ = permute v [1; 2; 0].
Proof.
  apply (invert_dims_involutive [1; -1; 0] [1; 2; 0]).
  - reflexivity.
  - apply (bool_decide_unpack _). vm_compute. exact I.
Defined.

(** *** The unmutated view restores the base *)

(** A lawful view reads the storage of its argument. *)
Lemma view_law_storage op e (t v : Tensor) :
  view_law op e -> op t = Ok v -> storage v = storage t.
Proof.
  intros L H.
  pose proof (vl_storage _ _ L (storage t) t) as Hs.
  assert (Ht : with_storage (storage t) t = t) by (destruct t; reflexivity).
  rewrite Ht, H in Hs. cbn [map_result] in Hs. injection Hs as Hs.
  rewrite Hs. reflexivity.
Qed.

(** Scattering the unmutated view of a base into the base restores the
    base. *)
Lemma scatter_restores op e (a b : Tensor) :
  view_law op e -> wf a -> op a = Ok b ->
  exists r, scatter_through op a b = Ok r /\ tensor_eq r a.
Proof.
  intros L Hwf Hop.
  destruct (scatter_through_spec op e a b b L Hop eq_refl)
    as (r & v' & Hr & Hsr & _ & _ & Hget & Hframe).
  exists r. split; [exact Hr|]. split; [exact Hsr|].
  intros idx Hidx. rewrite Hsr in Hidx.
  destruct (decide (Exists (fun j => e (sizes a) j = idx)
                           (all_indices (sizes b)))) as [Hex|Hno].
  - apply list.Exists_exists in Hex. destruct Hex as (j & Hj & Hej).
    apply elem_of_all_indices in Hj.
    rewrite <- Hej, (Hget j Hj).
    destruct (vl_embeds _ _ L a b Hwf Hop j Hj) as [_ Ha].
    unfold get. rewrite Ha, (view_law_storage op e a b L Hop). reflexivity.
  - apply Hframe; [exact Hidx|]. intros j Hj Hej. apply Hno.
    apply list.Exists_exists. exists j. split; [|exact Hej].
    apply elem_of_all_indices. exact Hj.
Qed.

Lemma squeeze_geometry_lengths (sz st : list Z) :
  length st = length sz ->
  length (squeeze_geometry sz st).2 = length (squeeze_geometry sz st).1.
Proof.
  revert st. induction sz as [|n sz IH]; intros [|s st] Hlen;
    simpl in *; try discriminate; [reflexivity|].
  destruct (n =? 1); simpl; rewrite IH by lia; reflexivity.
Qed.

Lemma squeeze_restores (a : Tensor) :
  wf a ->
  exists a', squeeze_inverse a (squeeze a) = Ok a' /\ tensor_eq a' a.
Proof.
  intros Hwf.
  destruct (unsqueeze_to_loop_spec (sizes a) (squeeze a) [] []
              (strides (squeeze a)) (strides a))
    as (st_r & Hloop & Hlen & Hgeo).
  - exact Hwf.
  - reflexivity.
  - unfold squeeze. cbn [strides with_geometry].
    apply squeeze_geometry_lengths. exact Hwf.
  - reflexivity.
  - reflexivity.
  - simpl in Hloop. eexists. split; [exact Hloop|].
    split; [reflexivity|].
    intros idx Hidx. cbn [sizes with_geometry] in Hidx.
    destruct (squeeze_index_spec (sizes a) idx (strides a) Hidx Hwf)
      as [_ Hd].
    destruct (squeeze_index_spec (sizes a) idx st_r Hidx Hlen) as [_ Hd'].
    rewrite Hgeo in Hd'. cbn [snd] in Hd'.
    unfold squeeze in Hd'. cbn [strides with_geometry] in Hd'.
    unfold get, addr, squeeze.
    cbn [storage storage_offset strides with_geometry].
    rewrite <- Hd', Hd. reflexivity.
Qed.

Lemma squeeze_dim_restores (dim_ : Z) (a b : Tensor) :
  wf a -> squeeze_dim a dim_ = Ok b ->
  exists a', squeeze_inverse_dim a b dim_ = Ok a' /\ tensor_eq a' a.
Proof.
  intros Hwf Hfwd.
  apply squeeze_dim_ok_inv in Hfwd. cbv zeta in Hfwd.
  destruct Hfwd as (Hd & Hw & Hb).
  set (d := wrap_total dim_ (dim a)) in *.
  rewrite (squeeze_inverse_dim_cases a b dim_ d Hw).
  destruct (Z.eqb_spec (dim a) 0) as [H0|H0].
  - destruct (Z.ltb_spec 0 (dim a)); [lia|]. cbn [andb orb] in *.
    subst b. exists a. split; [reflexivity | apply tensor_eq_refl].
  - destruct (Z.ltb_spec 0 (dim a)) as [Hpos|]; [|unfold dim in *; lia].
    cbn [andb orb] in *.
    destruct (Z.eqb_spec (nth_or0 (sizes a) d) 1) as [H1|H1];
      cbn [negb] in Hb.
    + assert (Hd' : 0 <= d < dim a) by lia.
      pose proof (nth_or0_lookup_lt (sizes a) d Hd') as Hl.
      rewrite H1 in Hl.
      assert (Hdb : dim b = dim a - 1).
      { subst b. unfold dim. cbn [sizes with_geometry].
        rewrite length_delete by (rewrite Hl; eauto). unfold dim in Hd'. lia. }
      destruct (unsqueeze_intro b d) as [s Hs]; [lia|].
      rewrite Hs. eexists. split; [reflexivity|].
      assert (Hsz : insert_at (Z.to_nat d) 1 (sizes b) = sizes a).
      { subst b. cbn [sizes with_geometry]. apply insert_at_delete. exact Hl. }
      split; [cbn [sizes with_geometry]; exact Hsz|].
      intros idx Hidx. cbn [sizes with_geometry] in Hidx. rewrite Hsz in Hidx.
      unfold get, addr. subst b.
      cbn [storage storage_offset strides with_geometry]. f_equal. f_equal.
      apply dot_unit_axis.
      * rewrite Hwf. apply valid_index_length. exact Hidx.
      * eapply valid_index_unit_axis; [exact Hidx | exact Hl].
    + subst b. exists a. split; [reflexivity | apply tensor_eq_refl].
Qed.

Lemma unsqueeze_restores (dim_ : Z) (a b : Tensor) :
  wf a -> unsqueeze a dim_ = Ok b -> unsqueeze_inverse a b dim_ = Ok a.
Proof.
  intros Hwf Hfwd.
  apply unsqueeze_ok_inv in Hfwd. cbv zeta in Hfwd.
  destruct Hfwd as (Hd & Hw & s & Hb).
  set (d := wrap_total dim_ (dim a + 1)) in *.
  assert (Hdb : dim b = dim a + 1).
  { subst b. unfold dim. cbn [sizes with_geometry].
    rewrite length_insert_at. lia. }
  assert (Hone : nth_or0 (sizes b) d = 1).
  { subst b. cbn [sizes with_geometry]. apply nth_or0_insert_at.
    unfold dim in Hd. lia. }
  unfold unsqueeze_inverse, squeeze_dim. rewrite Hdb, Hw. cbn [bind].
  destruct (Z.eqb_spec (dim a + 1) 0); [unfold dim in *; lia|].
  rewrite Hone. cbn [orb negb Z.eqb]. subst b.
  cbn [sizes strides storage_offset with_geometry].
  rewrite !delete_insert_at by (unfold dim in Hd; rewrite ?Hwf; lia).
  destruct a. reflexivity.
Qed.

Lemma view_restores (shape : list Z) (a b : Tensor) :
  wf a -> Forall (fun n => 0 <= n) (sizes a) ->
  view a shape = Ok b ->
  exists a', view_inverse a b shape = Ok a' /\ tensor_eq a' a.
Proof.
  intros Hwf Hnn Hfwd.
  apply view_ok_inv in Hfwd as (sz & Hinf & Hca & ->).
  destruct (infer_size_ok_inv _ _ _ (numel_of_nonneg _ Hnn) Hinf)
    as [Hsznn Hnum].
  unfold view_inverse, view. cbn [sizes with_geometry].
  rewrite infer_size_plain by (exact Hnn || exact Hnum). cbn [bind].
  rewrite is_contiguous_row_major by exact Hsznn. cbn [check bind].
  eexists. split; [reflexivity|]. split; [reflexivity|].
  intros idx Hidx. cbn [sizes with_geometry] in Hidx.
  unfold get, addr. cbn [storage storage_offset strides with_geometry].
  rewrite (contiguous_dot a idx Hwf Hca Hidx). reflexivity.
Qed.

Lemma unbind_as_select (i dim_ : Z) (a b : Tensor) :
  unbind_at a i dim_ = Ok b ->
  exists d,
    select a d i = Ok b /\
    forall v, unbind_inverse a v i dim_
              = scatter_through (fun t => select t d i) a v.
Proof.
  intros Hfwd. unfold unbind_at in Hfwd. inv_ok.
  rename a0 into d. exists d. split; [exact Hfwd|].
  intros v. unfold unbind_inverse. fold (dim a). rewrite Ha. reflexivity.
Qed.

Lemma split_as_slice (i ss dim_ : Z) (a b : Tensor) :
  c10.int64_range ((i + 1) * ss) ->
  split_at a i ss dim_ = Ok b ->
  exists d start end_,
    slice a d start end_ 1 = Ok b /\
    forall v, split_inverse a v i ss dim_
              = scatter_through (fun t => slice t d start end_ 1) a v.
Proof.
  intros Hrange Hfwd. unfold split_at in Hfwd. inv_ok.
  rename a0 into d, a1 into n.
  pose proof (maybe_wrap_dim_ok _ _ _ Ha) as (_ & _ & Hd).
  destruct (size_ok_inv a d n (proj1 Hd) Ha0) as [Hd' Hn].
  apply Z.leb_le in Ha1.
  apply orb_true_iff in Ha2.
  assert (Hss : 0 < ss \/ n = 0).
  { destruct Ha2 as [H|H]; [left; apply Z.ltb_lt | right; apply Z.eqb_eq];
      exact H. }
  apply andb_true_iff in Ha3. destruct Ha3 as [Hi0 Hi1].
  apply Z.leb_le in Hi0. apply Z.ltb_lt in Hi1.
  pose proof (split_end n ss i Ha1 Hss ltac:(split; assumption)) as Hend.
  cbv zeta in Hend. rewrite Hend in Hfwd.
  exists d, (Some (i * ss)), (Some (Z.min n ((i + 1) * ss))).
  split; [exact Hfwd|].
  intros v. unfold split_inverse. fold (dim a). rewrite Ha. cbn [bind].
  rewrite Ha0. cbn [bind]. unfold c10.mul64, c10.add64.
  assert (Hr0 : c10.int64_range (i * ss)).
  { unfold c10.int64_range in *. nia. }
  rewrite (wrap64_id (i * ss)) by exact Hr0.
  replace (i * ss + ss) with ((i + 1) * ss) by lia.
  rewrite wrap64_id by exact Hrange. rewrite clip_min. reflexivity.
Qed.

Lemma split_with_sizes_as_slice (i : Z) (split_sizes : list Z) (dim_ : Z)
  (a b : Tensor) :
  c10.int64_range (sumZ split_sizes) ->
  split_with_sizes_at a i split_sizes dim_ = Ok b ->
  exists d start end_,
    slice a d start end_ 1 = Ok b /\
    forall v, split_with_sizes_inverse a v i split_sizes dim_
              = scatter_through (fun t => slice t d start end_ 1) a v.
Proof.
  intros Hrange Hfwd. unfold split_with_sizes_at in Hfwd. inv_ok.
  rename a0 into d, a1 into n, a4 into s.
  pose proof (maybe_wrap_dim_ok _ _ _ Ha) as (_ & _ & Hd).
  destruct (size_ok_inv a d n (proj1 Hd) Ha0) as [Hd' Hn].
  assert (Hnn : Forall (fun x => 0 <= x) split_sizes).
  { apply list.Forall_forall. intros x Hx.
    rewrite forallb_forall in Ha1. apply Z.leb_le. apply Ha1.
    apply list_elem_of_In. exact Hx. }
  apply Z.eqb_eq in Ha2.
  destruct (at_index_ok_inv _ _ _ Ha3) as [Hi0 Hs].
  set (start := sumZ (take (Z.to_nat i) split_sizes)) in *.
  assert (Hnext : sumZ (take (S (Z.to_nat i)) split_sizes) = start + s).
  { apply sumZ_take_S. exact Hs. }
  assert (Hsums : forall k, c10.int64_range (sumZ (take k split_sizes))).
  { intros k. pose proof (sumZ_take_nonneg split_sizes k Hnn).
    unfold c10.int64_range in *. lia. }
  exists d, (Some start), (Some (start + s)). split; [exact Hfwd|].
  intros v. unfold split_with_sizes_inverse. fold (dim a).
  rewrite Ha. cbn [bind]. rewrite Ha0. cbn [bind].
  rewrite split_start_spec.
  - cbn [bind]. rewrite Ha3. cbn [bind].
    replace (i - 0) with i by lia. rewrite Z.add_0_l. fold start.
    unfold c10.add64. rewrite wrap64_id by (rewrite <- Hnext; apply Hsums).
    rewrite clip_min.
    pose proof (sumZ_take_nonneg split_sizes (S (Z.to_nat i)) Hnn).
    rewrite Z.min_r by lia. reflexivity.
  - lia.
  - apply lookup_lt_Some in Hs. lia.
  - intros k Hk. rewrite Z.add_0_l. apply Hsums.
Qed.

(** X4.  The property of the note on view inverses: with
    [b = view1(a, args)] unmutated, [a_copy = view1_inverse(a, b, args)]
    succeeds and equals [a], same shape and same element at every
    coordinate.  It holds for permute, transpose, t, both squeeze
    overloads, unsqueeze, select, slice, unbind, split, split_with_sizes,
    diagonal, view(shape), _reshape_alias, _neg_view, detach and alias,
    under the side conditions of [representable]. *)
Theorem unmutated_view_restores_base (op : ViewOp) (a b : Tensor) :
  reduces op = false ->
  representable op a b ->
  wf a ->
  forward op a = Ok b ->
  exists a_copy, inverse op a b = Ok a_copy /\ tensor_eq a_copy a.
Proof.
  intros Hred Hrep Hwf Hfwd.
  destruct op; simpl in Hfwd, Hrep |- *; try discriminate Hred.
  - exists a. split; [|apply tensor_eq_refl].
    apply permute_inverse_permute; assumption.
  - exists a. split; [|apply tensor_eq_refl].
    apply (transpose_involutive a b dim0 dim1 Hwf Hfwd).
  - exists a. split; [|apply tensor_eq_refl].
    unfold t, t_inverse in *. inv_ok.
    assert (Hdb : dim b = dim a).
    { destruct (transpose_involutive _ _ _ _ Hwf Hfwd) as [_ Hs].
      unfold dim. rewrite Hs.
      destruct (_ =? _); [reflexivity | rewrite length_swap; reflexivity]. }
    unfold t. rewrite Hdb, Ha. cbn [check bind].
    apply (transpose_involutive a b _ _ Hwf Hfwd).
  - injection Hfwd as <-. apply squeeze_restores. exact Hwf.
  - apply squeeze_dim_restores; assumption.
  - exists a. split; [|apply tensor_eq_refl].
    apply unsqueeze_restores; assumption.
  - exact (scatter_restores _ _ a b (select_view_law _ _) Hwf Hfwd).
  - exact (scatter_restores _ _ a b (slice_view_law _ _ _ _) Hwf Hfwd).
  - destruct (unbind_as_select _ _ _ _ Hfwd) as (d & Hsel & Hinv).
    rewrite Hinv.
    exact (scatter_restores _ _ a b (select_view_law _ _) Hwf Hsel).
  - destruct (split_as_slice _ _ _ _ _ Hrep Hfwd)
      as (d & st & en & Hsl & Hinv).
    rewrite Hinv.
    exact (scatter_restores _ _ a b (slice_view_law _ _ _ _) Hwf Hsl).
  - destruct (split_with_sizes_as_slice _ _ _ _ _ Hrep Hfwd)
      as (d & st & en & Hsl & Hinv).
    rewrite Hinv.
    exact (scatter_restores _ _ a b (slice_view_law _ _ _ _) Hwf Hsl).
  - exact (scatter_restores _ _ a b (diagonal_view_law _ _ _) Hwf Hfwd).
  - destruct Hrep as [Hnn _]. apply view_restores; assumption.
  - injection Hfwd as <-. exists a. split; [reflexivity|apply tensor_eq_refl].
  - injection Hfwd as <-. exists a. split; [reflexivity|apply tensor_eq_refl].
  - injection Hfwd as <-. unfold _neg_view_inverse.
    rewrite neg_ok by exact Hrep. eexists. split; [reflexivity|].
    split; [reflexivity|]. intros idx Hidx.
    cbn [sizes _neg_view materialize] in Hidx.
    rewrite get_materialize by exact Hidx. rewrite get_neg_view. lia.
  - injection Hfwd as <-. exists a. split; [|apply tensor_eq_refl].
    unfold _reshape_alias_inverse, _reshape_alias. destruct a. reflexivity.
Qed.

(** The theorem at the main diagonal of a base of shape (2,3). *)
Lemma unmutated_view_restores_base_witness :
  exists a_copy,
    inverse (Diagonal 0 0 1) (arange [2; 3])
      (mkTensor (seqZ 0 6) 0 [2] [4] Float) = Ok a_copy /\
    tensor_eq a_copy (arange [2; 3]).
Proof.
  apply (unmutated_view_restores_base (Diagonal 0 0 1) (arange [2; 3])
           (mkTensor (seqZ 0 6) 0 [2] [4] Float)).
  - reflexivity.
  - exact I.
  - reflexivity.
  - reflexivity.
Defined.

(** X5.  The inverses that only change geometry give back the base
    handle itself, storage, offset and strides included, when applied to
    the unmutated view: [transpose_inverse], [t_inverse] and
    [unsqueeze_inverse] for any [base] argument, and
    [_reshape_alias_inverse] for the base the view was taken of. *)
Theorem geometry_inverses_return_base (base a : Tensor) :
  wf a ->
  (forall dim0 dim1 b,
     transpose a dim0 dim1 = Ok b ->
     transpose_inverse base b dim0 dim1 = Ok a) /\
  (forall b, t a = Ok b -> t_inverse base b = Ok a) /\
  (forall dim_ b,
     unsqueeze a dim_ = Ok b -> unsqueeze_inverse base b dim_ = Ok a) /\
  (forall size_ stride b,
     _reshape_alias a size_ stride = Ok b ->
     _reshape_alias_inverse a b size_ stride = Ok a).
Proof.
  intros Hwf. split; [|split; [|split]].
  - intros dim0 dim1 b Hfwd.
    apply (transpose_involutive a b dim0 dim1 Hwf Hfwd).
  - intros b Hfwd. unfold t, t_inverse in *. inv_ok.
    assert (Hdb : dim b = dim a).
    { destruct (transpose_involutive _ _ _ _ Hwf Hfwd) as [_ Hs].
      unfold dim. rewrite Hs.
      destruct (_ =? _); [reflexivity | rewrite length_swap; reflexivity]. }
    unfold t. rewrite Hdb, Ha. cbn [check bind].
    apply (transpose_involutive a b _ _ Hwf Hfwd).
  - intros dim_ b Hfwd. apply (unsqueeze_restores dim_ a b Hwf Hfwd).
  - intros size_ stride b Hfwd. injection Hfwd as <-.
    unfold _reshape_alias_inverse, _reshape_alias. destruct a. reflexivity.
Qed.

(** The theorem at a base of shape (2,3). *)
Lemma geometry_inverses_return_base_witness :
  (forall dim0 dim1 b,
     transpose (arange [2; 3]) dim0 dim1 = Ok b ->
     transpose_inverse (arange [1]) b dim0 dim1 = Ok (arange [2; 3])) /\
  (forall b, t (arange [2; 3]) = Ok b ->
             t_inverse (arange [1]) b = Ok (arange [2; 3])) /\
  (forall dim_ b,
     unsqueeze (arange [2; 3]) dim_ = Ok b ->
     unsqueeze_inverse (arange [1]) b dim_ = Ok (arange [2; 3])) /\
  (forall size_ stride b,
     _reshape_alias (arange [2; 3]) size_ stride = Ok b ->
     _reshape_alias_inverse (arange [2; 3]) b size_ stride
     = Ok (arange [2; 3])).
Proof.
  apply (geometry_inverses_return_base (arange [1]) (arange [2; 3])).
  reflexivity.
Defined.

(** *** The inverse of squeeze *)

Lemma squeeze_geometry_insert_unit (d : nat) :
  forall (sz st : list Z) (s : Z),
    (d <= length sz)%nat -> length st = length sz ->
    squeeze_geometry (insert_at d 1 sz) (insert_at d s st)
    = squeeze_geometry sz st.
Proof.
  induction d as [|d IH]; intros sz st s Hd Hlen.
  - unfold insert_at. simpl. reflexivity.
  - destruct sz as [|n sz]; [simpl in Hd; lia|].
    destruct st as [|s0 st]; [discriminate Hlen|].
    change (insert_at (S d) 1 (n :: sz)) with (n :: insert_at d 1 sz).
    change (insert_at (S d) s (s0 :: st)) with (s0 :: insert_at d s st).
    simpl. rewrite IH by (simpl in *; lia). reflexivity.
Qed.

Lemma lookup_insert_at_lt {A : Type} (d p : nat) (x : A) (l : list A) :
  (p < d)%nat -> (d <= length l)%nat -> insert_at d x l !! p = l !! p.
Proof.
  intros Hp Hd. unfold insert_at.
  rewrite lookup_app_l by (rewrite length_take; lia).
  apply lookup_take_lt. exact Hp.
Qed.

Lemma unsqueeze_nonneg_inv (t v : Tensor) (d : Z) :
  0 <= d -> unsqueeze t d = Ok v ->
  d <= dim t /\
  exists s,
    v = with_geometry t (storage_offset t)
          (insert_at (Z.to_nat d) 1 (sizes t))
          (insert_at (Z.to_nat d) s (strides t)).
Proof.
  intros Hd H. apply unsqueeze_ok_inv in H. cbv zeta in H.
  unfold wrap_total in H. destruct (Z.ltb_spec d 0); [lia|].
  destruct H as (Hr & _ & s & Hv). split; [lia|]. exists s. exact Hv.
Qed.

(** The loop of [unsqueeze_to]: what it keeps of its argument. *)
Lemma unsqueeze_to_loop_inv (rest : list Z) :
  forall (dim_ : Z) (res r : Tensor),
    0 <= dim_ -> wf res ->
    unsqueeze_to_loop rest dim_ res = Ok r ->
    storage r = storage res /\
    storage_offset r = storage_offset res /\
    scalar_type r = scalar_type res /\
    wf r /\
    length (sizes r)
    = (length (sizes res) + length (filter (eq 1%Z) rest))%nat /\
    squeeze_geometry (sizes r) (strides r)
    = squeeze_geometry (sizes res) (strides res) /\
    (forall p, (p < Z.to_nat dim_)%nat -> sizes r !! p = sizes res !! p) /\
    (forall k, rest !! k = Some 1 ->
               sizes r !! (Z.to_nat dim_ + k)%nat = Some 1).
Proof.
  induction rest as [|n rest IH]; intros dim_ res r Hd Hwf Hloop.
  - injection Hloop as <-. repeat split; try reflexivity; try exact Hwf.
    + simpl. lia.
    + intros k Hk. discriminate Hk.
  - simpl in Hloop. apply bind_ok_inv in Hloop as (res' & Hres' & Hloop).
    destruct (Z.eqb_spec n 1) as [->|Hn].
    + destruct (unsqueeze_nonneg_inv _ _ _ Hd Hres') as (Hle & s & Hgeo).
      assert (Hdl : (Z.to_nat dim_ <= length (sizes res))%nat)
        by (unfold dim in Hle; lia).
      assert (Hwf' : wf res').
      { subst res'. unfold wf. cbn [sizes strides with_geometry].
        rewrite !length_insert_at. f_equal. exact Hwf. }
      destruct (IH (dim_ + 1) res' r ltac:(lia) Hwf' Hloop)
        as (H1 & H2 & H3 & H4 & H5 & H6 & H7 & H8).
      assert (Hs' : sizes res' = insert_at (Z.to_nat dim_) 1 (sizes res)).
      { subst res'. reflexivity. }
      split; [rewrite H1; subst res'; reflexivity|].
      split; [rewrite H2; subst res'; reflexivity|].
      split; [rewrite H3; subst res'; reflexivity|].
      split; [exact H4|].
      split.
      { rewrite H5, Hs', length_insert_at, filter_cons.
        rewrite decide_True by reflexivity. simpl. lia. }
      split.
      { rewrite H6. subst res'. cbn [sizes strides with_geometry].
        apply squeeze_geometry_insert_unit; [exact Hdl | exact Hwf]. }
      split.
      { intros p Hp. rewrite H7 by lia. rewrite Hs'.
        apply lookup_insert_at_lt; [exact Hp | exact Hdl]. }
      intros [|k] Hk.
      * rewrite Nat.add_0_r, H7 by lia. rewrite Hs'.
        apply lookup_insert_at. exact Hdl.
      * replace (Z.to_nat dim_ + S k)%nat
          with (Z.to_nat (dim_ + 1) + k)%nat by lia.
        apply H8. exact Hk.
    + injection Hres' as <-.
      destruct (IH (dim_ + 1) res r ltac:(lia) Hwf Hloop)
        as (H1 & H2 & H3 & H4 & H5 & H6 & H7 & H8).
      repeat split; try assumption.
      * rewrite H5, filter_cons.
        rewrite decide_False by (intros Heq; apply Hn; symmetry; exact Heq).
        reflexivity.
      * intros p Hp. apply H7. lia.
      * intros [|k] Hk; [injection Hk as Hk; contradiction|].
        replace (Z.to_nat dim_ + S k)%nat
          with (Z.to_nat (dim_ + 1) + k)%nat by lia.
        apply H8. exact Hk.
Qed.

(** X6.  What [squeeze_inverse(base, v)] returns: a view of [v] (same
    storage and offset) with one more axis for every axis of size one of
    [base], of size one at each such position, and whose squeeze is the
    squeeze of [v]. *)
Theorem squeeze_inverse_inserts_unit_axes (base v r : Tensor) :
  wf v ->
  squeeze_inverse base v = Ok r ->
  storage r = storage v /\
  storage_offset r = storage_offset v /\
  length (sizes r)
  = (length (sizes v) + length (filter (eq 1%Z) (sizes base)))%nat /\
  (forall k, sizes base !! k = Some 1 -> sizes r !! k = Some 1) /\
  squeeze r = squeeze v.
Proof.
  intros Hwf Hr. unfold squeeze_inverse, unsqueeze_to in Hr.
  destruct (unsqueeze_to_loop_inv (sizes base) 0 v r ltac:(lia) Hwf Hr)
    as (H1 & H2 & H3 & _ & H5 & H6 & _ & H8).
  split; [exact H1|]. split; [exact H2|]. split; [exact H5|].
  split; [intros k Hk; apply (H8 k Hk)|].
  unfold squeeze, with_geometry. rewrite H1, H2, H3, H6. reflexivity.
Qed.

(** The theorem at a base of shape (1,2,1) and a view of shape (2). *)
Lemma squeeze_inverse_inserts_unit_axes_witness :
  storage (mkTensor [5; 6] 0 [1; 2; 1] [2; 1; 1] Float)
    = storage (tensor_of [2] [5; 6]) /\
  storage_offset (mkTensor [5; 6] 0 [1; 2; 1] [2; 1; 1] Float)
    = storage_offset (tensor_of [2] [5; 6]) /\
  length (sizes (mkTensor [5; 6] 0 [1; 2; 1] [2; 1; 1] Float)) = 3%nat /\
  (forall k, sizes (arange [1; 2; 1]) !! k = Some 1 ->
             sizes (mkTensor [5; 6] 0 [1; 2; 1] [2; 1; 1] Float) !! k
             = Some 1) /\
  squeeze (mkTensor [5; 6] 0 [1; 2; 1] [2; 1; 1] Float)
  = squeeze (tensor_of [2] [5; 6]).
Proof.
  apply (squeeze_inverse_inserts_unit_axes (arange [1; 2; 1])
           (tensor_of [2] [5; 6])).
  - reflexivity.
  - reflexivity.
Defined.

Lemma unsqueeze_too_far (t : Tensor) (d : Z) :
  dim t < d -> unsqueeze t d = Err IndexError.
Proof.
  intros Hd. unfold unsqueeze.
  destruct (c10.maybe_wrap_dim d (dim t + 1)) as [w|e] eqn:Hw; cbn [bind].
  - apply maybe_wrap_dim_ok in Hw. unfold dim in *. lia.
  - apply maybe_wrap_dim_err in Hw as ->. reflexivity.
Qed.

(** The loop of [unsqueeze_to] succeeds exactly when every insertion
    position exists. *)
Lemma unsqueeze_to_loop_succeeds (rest : list Z) :
  forall (dim_ : Z) (res : Tensor),
    0 <= dim_ ->
    ((exists r, unsqueeze_to_loop rest dim_ res = Ok r) <->
     (forall k, rest !! k = Some 1 ->
        dim_ + Z.of_nat (length (filter (fun n => n <> 1) (take k rest)))
        <= dim res)) /\
    (forall e, unsqueeze_to_loop rest dim_ res = Err e -> e = IndexError).
Proof.
  induction rest as [|n rest IH]; intros dim_ res Hd.
  - split; [|intros e He; discriminate He].
    split; [intros _ k Hk; discriminate Hk | intros _; eexists; reflexivity].
  - simpl unsqueeze_to_loop. destruct (Z.eqb_spec n 1) as [->|Hn].
    + destruct (Z.le_gt_cases dim_ (dim res)) as [Hle|Hgt].
      * destruct (unsqueeze_intro res dim_ ltac:(lia)) as [s Hs].
        rewrite Hs. cbn [bind].
        set (res' := with_geometry res _ _ _).
        assert (Hdr : dim res' = dim res + 1).
        { unfold dim, res'. cbn [sizes with_geometry].
          rewrite length_insert_at. lia. }
        destruct (IH (dim_ + 1) res' ltac:(lia)) as [Hiff Herr].
        split; [|exact Herr]. rewrite Hiff, Hdr. split.
        -- intros H [|k] Hk; [simpl; lia|].
           specialize (H k Hk). simpl take. rewrite filter_cons.
           rewrite decide_False by (intros Hne; apply Hne; reflexivity).
           lia.
        -- intros H k Hk. specialize (H (S k) Hk). simpl take in H.
           rewrite filter_cons in H.
           rewrite decide_False in H by (intros Hne; apply Hne; reflexivity).
           lia.
      * rewrite unsqueeze_too_far by lia. cbn [bind].
        split; [|intros e He; injection He as <-; reflexivity].
        split; [intros [r Hr]; discriminate Hr|].
        intros H. specialize (H 0%nat eq_refl). simpl in H. lia.
    + cbn [bind]. destruct (IH (dim_ + 1) res ltac:(lia)) as [Hiff Herr].
      split; [|exact Herr]. rewrite Hiff. split.
      * intros H [|k] Hk; [injection Hk as Hk; contradiction|].
        specialize (H k Hk). simpl take. rewrite filter_cons.
        rewrite decide_True by exact Hn. simpl length. lia.
      * intros H k Hk. specialize (H (S k) Hk). simpl take in H.
        rewrite filter_cons in H. rewrite decide_True in H by exact Hn.
        simpl length in H. lia.
Qed.

(** X7.  [squeeze_inverse(base, v)] succeeds exactly when, for every
    axis [k] of [base] of size one, [v] has at least as many axes as
    [base] has axes of another size before [k]; it can only fail with the
    index error of [unsqueeze]. *)
Theorem squeeze_inverse_succeeds_iff (base v : Tensor) :
  ((exists r, squeeze_inverse base v = Ok r) <->
   (forall k, sizes base !! k = Some 1 ->
      (length (filter (fun n : Z => n <> 1%Z) (take k (sizes base)))
       <= length (sizes v))%nat)) /\
  (forall e, squeeze_inverse base v = Err e -> e = IndexError).
Proof.
  unfold squeeze_inverse, unsqueeze_to.
  destruct (unsqueeze_to_loop_succeeds (sizes base) 0 v ltac:(lia))
    as [Hiff Herr].
  split; [|exact Herr]. rewrite Hiff. unfold dim.
  split; intros H k Hk; specialize (H k Hk); lia.
Qed.

(** *** The scatter inverses *)

(** X8.  [unbind_inverse(base, v, i, dim)] is
    [select_inverse(base, v, dim, i)] on every input, failures included:
    wrapping [dim] before the scatter changes nothing. *)
Theorem unbind_inverse_is_select_inverse (base v : Tensor) (i dim_ : Z) :
  unbind_inverse base v i dim_ = select_inverse base v dim_ i.
Proof.
  unfold unbind_inverse, select_inverse, select_scatter, scatter_through.
  fold (dim base).
  assert (Hdc : dim (clone base) = dim base) by reflexivity.
  destruct (c10.maybe_wrap_dim dim_ (dim base)) as [d|e] eqn:Hw; cbn [bind].
  - assert (Hsel : select (clone base) d i = select (clone base) dim_ i).
    { unfold select. rewrite Hdc.
      destruct (Z.eqb_spec (dim base) 0) as [H0|H0];
        cbn [negb check bind]; [reflexivity|].
      rewrite Hw. apply maybe_wrap_dim_ok in Hw.
      rewrite maybe_wrap_dim_nonneg by (unfold dim in *; lia).
      reflexivity. }
    rewrite Hsel. reflexivity.
  - pose proof (maybe_wrap_dim_err _ _ _ Hw) as ->.
    unfold select. rewrite Hdc.
    destruct (Z.eqb_spec (dim base) 0) as [H0|H0];
      cbn [negb check bind]; [reflexivity|].
    rewrite Hw. reflexivity.
Qed.

Lemma sumZ_replicate (k : nat) (x : Z) : sumZ (replicate k x) = Z.of_nat k * x.
Proof. induction k as [|k IH]; simpl; [reflexivity | rewrite IH; lia]. Qed.

(** X9.  On [k] parts of the same size [ss],
    [split_with_sizes_inverse] at part [i] is [split_inverse] with
    [split_size = ss] at part [i], as long as the offsets fit
    [int64_t]. *)
Theorem split_with_uniform_sizes (base v : Tensor) (i ss dim_ : Z) (k : nat) :
  0 <= i < Z.of_nat k ->
  0 <= ss ->
  c10.int64_range ((i + 1) * ss) ->
  split_with_sizes_inverse base v i (replicate k ss) dim_
  = split_inverse base v i ss dim_.
Proof.
  intros Hi Hss Hrange.
  unfold split_with_sizes_inverse, split_inverse.
  destruct (c10.maybe_wrap_dim dim_ _) as [d|e]; cbn [bind]; [|reflexivity].
  destruct (size base d) as [n|e]; cbn [bind]; [|reflexivity].
  assert (Htake : forall j, (j <= S (Z.to_nat i))%nat ->
            sumZ (take j (replicate k ss)) = Z.of_nat j * ss).
  { intros j Hj. rewrite take_replicate, sumZ_replicate.
    rewrite Nat.min_l by lia. reflexivity. }
  rewrite split_start_spec.
  - cbn [bind]. replace (i - 0) with i by lia. rewrite Z.add_0_l.
    rewrite Htake by lia. rewrite Z2Nat.id by lia.
    rewrite (at_index_lookup _ i ss) by
      (try lia; apply lookup_replicate_2; lia).
    cbn [bind]. unfold c10.mul64, c10.add64.
    assert (Hr0 : c10.int64_range (i * ss)).
    { unfold c10.int64_range in *. nia. }
    rewrite (wrap64_id (i * ss)) by exact Hr0. reflexivity.
  - lia.
  - rewrite length_replicate. lia.
  - intros j Hj. rewrite Z.add_0_l, Htake by lia.
    unfold c10.int64_range in *. nia.
Qed.

(** The theorem at four parts of size three and a base of shape (10). *)
Lemma split_with_uniform_sizes_witness :
  split_with_sizes_inverse (arange [10]) (tensor_of [3] [7; 8; 9]) 1
    (replicate 4 3) 0
  = split_inverse (arange [10]) (tensor_of [3] [7; 8; 9]) 1 3 0.
Proof.
  apply (split_with_uniform_sizes (arange [10]) (tensor_of [3] [7; 8; 9])
           1 3 0 4).
  - lia.
  - lia.
  - unfold c10.int64_range. lia.
Defined.

Lemma select_outcome_by_sizes (a a' : Tensor) (d index : Z) :
  sizes a = sizes a' ->
  map_result sizes (select a d index) = map_result sizes (select a' d index).
Proof.
  intros H. unfold select, dim. rewrite H. case_binds.
Qed.

Lemma slice_outcome_by_sizes (a a' : Tensor) (d : Z) (start end_ : option Z)
  (step : Z) :
  sizes a = sizes a' ->
  map_result sizes (slice a d start end_ step)
  = map_result sizes (slice a' d start end_ step).
Proof.
  intros H. unfold slice, dim. rewrite H. case_binds.
Qed.

Lemma diagonal_outcome_by_sizes (a a' : Tensor) (offset dim1 dim2 : Z) :
  sizes a = sizes a' ->
  map_result sizes (diagonal a offset dim1 dim2)
  = map_result sizes (diagonal a' offset dim1 dim2).
Proof.
  intros H. unfold diagonal, dim. rewrite H. case_binds.
Qed.

(** The outcome of a scatter kernel, read off the outcome of the view it
    writes through. *)
Lemma scatter_through_outcome op (base v : Tensor) :
  (forall a a', sizes a = sizes a' ->
                map_result sizes (op a) = map_result sizes (op a')) ->
  match op base with
  | Err e => scatter_through op base v = Err e
  | Ok b =>
      if bool_decide (sizes b = sizes v)
      then exists r, scatter_through op base v = Ok r /\ sizes r = sizes base
      else scatter_through op base v = Err CheckFailed
  end.
Proof.
  intros Hop. unfold scatter_through.
  assert (Hc : sizes (clone base) = sizes base) by reflexivity.
  pose proof (Hop (clone base) base Hc) as Hsame.
  destruct (op base) as [b|e]; destruct (op (clone base)) as [vv|e'];
    cbn [map_result] in Hsame; try discriminate Hsame; cbn [bind].
  - injection Hsame as Hsame. rewrite Hsame.
    case_bool_decide; cbn [check bind]; [|reflexivity].
    eexists. split; reflexivity.
  - injection Hsame as ->. reflexivity.
Qed.

Lemma scatter_through_ok_inv op (base v r : Tensor) :
  (forall a a', sizes a = sizes a' ->
                map_result sizes (op a) = map_result sizes (op a')) ->
  scatter_through op base v = Ok r ->
  exists b, op base = Ok b /\ sizes v = sizes b.
Proof.
  intros Hop Hr. pose proof (scatter_through_outcome op base v Hop) as H.
  destruct (op base) as [b|e]; [|congruence].
  exists b. split; [reflexivity|].
  case_bool_decide; [congruence | congruence].
Qed.

(** X11.  The elements of [select_inverse(base, v, dim, index)]: with
    [d] and [i] the wrapped axis and position, the result has the shape
    of [base], holds [v] at the coordinates whose entry at [d] is [i] and
    [base] at all the others. *)
Theorem select_inverse_elements (base v r : Tensor) (dim_ index : Z) :
  select_inverse base v dim_ index = Ok r ->
  let d := wrap_total dim_ (dim base) in
  let i := wrap_total index (nth_or0 (sizes base) d) in
  sizes r = sizes base /\
  forall idx, valid_index (sizes base) idx ->
    get r idx
    = if nth_or0 idx d =? i then get v (delete (Z.to_nat d) idx)
      else get base idx.
Proof.
  intros Hr d i.
  destruct (scatter_through_ok_inv (fun t => select t dim_ index) base v r)
    as (b & Hb & Hsz); [intros a a'; apply select_outcome_by_sizes
                       | exact Hr |].
  destruct (scatter_through_spec _ _ base v b (select_view_law dim_ index)
              Hb Hsz)
    as (r' & _ & Hr' & Hsr & _ & _ & Hget & Hframe).
  change (select_inverse base v dim_ index) with
    (scatter_through (fun t => select t dim_ index) base v) in Hr.
  rewrite Hr in Hr'. injection Hr' as <-.
  split; [exact Hsr|].
  pose proof (select_ok_inv _ _ _ _ Hb) as Hinv. cbv zeta in Hinv.
  fold d in Hinv. fold i in Hinv. destruct Hinv as (Hd & Hi & Hbgeo).
  assert (Hbs : sizes b = delete (Z.to_nat d) (sizes base)).
  { rewrite Hbgeo. reflexivity. }
  assert (Hcoord : forall j, select_coord (sizes base) dim_ index j
                             = insert_at (Z.to_nat d) i j) by reflexivity.
  intros idx Hidx.
  assert (Hlen : length idx = length (sizes base)).
  { apply valid_index_length. exact Hidx. }
  assert (Hdl : (Z.to_nat d < length idx)%nat) by (unfold dim in Hd; lia).
  pose proof (nth_or0_lookup_lt idx d ltac:(lia)) as Hx.
  destruct (Z.eqb_spec (nth_or0 idx d) i) as [Heq|Hne].
  - rewrite <- (Hget (delete (Z.to_nat d) idx)).
    + rewrite Hcoord, insert_at_delete by (rewrite <- Heq; exact Hx).
      reflexivity.
    + rewrite Hbs. apply valid_index_delete. exact Hidx.
  - apply Hframe; [exact Hidx|]. intros j Hj Hej.
    rewrite Hcoord in Hej. apply Hne.
    assert (Hjl : (Z.to_nat d <= length j)%nat).
    { apply valid_index_length in Hj. rewrite Hbs in Hj.
      rewrite Hj, length_delete by (apply lookup_lt_is_Some; lia). lia. }
    pose proof (lookup_insert_at (Z.to_nat d) i j Hjl) as Hl.
    rewrite Hej, Hx in Hl. injection Hl as Hl. exact Hl.
Qed.

(** The theorem at a base of shape (2,3), [dim = -2] and [index = -1]. *)
Lemma select_inverse_elements_witness :
  sizes (tensor_of [2; 3] [0; 1; 2; 7; 8; 9]) = [2; 3] /\
  forall idx, valid_index [2; 3] idx ->
    get (tensor_of [2; 3] [0; 1; 2; 7; 8; 9]) idx
    = if nth_or0 idx 0 =? 1
      then get (tensor_of [3] [7; 8; 9]) (delete 0%nat idx)
      else get (arange [2; 3]) idx.
Proof.
  apply (select_inverse_elements (arange [2; 3]) (tensor_of [3] [7; 8; 9])
           (tensor_of [2; 3] [0; 1; 2; 7; 8; 9]) (-2) (-1)).
  reflexivity.
Defined.

(** X12.  The elements of
    [slice_inverse(base, v, dim, start, end, step)]: with [d] the wrapped
    axis and [[lo, hi)] the clamped bounds, the result has the shape of
    [base], holds [v[(x - lo) / step]] at the coordinates whose entry [x]
    at [d] lies in [[lo, hi)] at a multiple of [step] from [lo], and
    [base] at all the others. *)
Theorem slice_inverse_elements (base v r : Tensor) (dim_ : Z)
  (start end_ : option Z) (step : Z) :
  slice_inverse base v dim_ start end_ step = Ok r ->
  let d := wrap_total dim_ (dim base) in
  let b := slice_bounds (nth_or0 (sizes base) d) start end_ in
  sizes r = sizes base /\
  forall idx, valid_index (sizes base) idx ->
    get r idx
    = if (b.1 <=? nth_or0 idx d) && (nth_or0 idx d <? b.2)
         && ((nth_or0 idx d - b.1) mod step =? 0)
      then get v (<[Z.to_nat d := (nth_or0 idx d - b.1) / step]> idx)
      else get base idx.
Proof.
  intros Hr d b.
  destruct (scatter_through_ok_inv
              (fun t => slice t dim_ start end_ step) base v r)
    as (vb & Hb & Hsz); [intros a a'; apply slice_outcome_by_sizes
                        | exact Hr |].
  destruct (scatter_through_spec _ _ base v vb
              (slice_view_law dim_ start end_ step) Hb Hsz)
    as (r' & _ & Hr' & Hsr & _ & _ & Hget & Hframe).
  change (slice_inverse base v dim_ start end_ step) with
    (scatter_through (fun t => slice t dim_ start end_ step) base v) in Hr.
  rewrite Hr in Hr'. injection Hr' as <-.
  split; [exact Hsr|].
  pose proof (slice_ok_inv _ _ _ _ _ _ Hb) as Hinv. cbv zeta in Hinv.
  fold d in Hinv. fold b in Hinv. destruct Hinv as (Hd & Hstep & Hgeo).
  assert (Hbs : sizes vb
                = <[Z.to_nat d := (b.2 - b.1 + step - 1) / step]> (sizes base)).
  { rewrite Hgeo. reflexivity. }
  assert (Hcoord : forall j, slice_coord (sizes base) dim_ start end_ step j
                    = <[Z.to_nat d := b.1 + nth_or0 j d * step]> j)
    by reflexivity.
  intros idx Hidx.
  assert (Hlen : length idx = length (sizes base)).
  { apply valid_index_length. exact Hidx. }
  assert (Hdl : (Z.to_nat d < length idx)%nat) by (unfold dim in Hd; lia).
  pose proof (nth_or0_lookup_lt idx d ltac:(lia)) as Hx.
  set (x := nth_or0 idx d) in *.
  assert (Hsd : vb.(sizes) !! Z.to_nat d
                = Some ((b.2 - b.1 + step - 1) / step)).
  { rewrite Hbs. apply list_lookup_insert_eq. lia. }
  destruct ((b.1 <=? x) && (x <? b.2) && ((x - b.1) mod step =? 0))
    eqn:Hin.
  - apply andb_true_iff in Hin. destruct Hin as [Hin Hmod].
    apply andb_true_iff in Hin. destruct Hin as [Hlo Hhi].
    apply Z.leb_le in Hlo. apply Z.ltb_lt in Hhi. apply Z.eqb_eq in Hmod.
    set (q := (x - b.1) / step).
    assert (Hq : x - b.1 = step * q).
    { apply Z_div_exact_full_2; [lia | exact Hmod]. }
    assert (Hq0 : 0 <= q) by (apply Z.div_pos; lia).
    assert (Hq1 : q < (b.2 - b.1 + step - 1) / step).
    { assert (q + 1 <= (b.2 - b.1 + step - 1) / step); [|lia].
      apply Z.div_le_lower_bound; [lia | nia]. }
    rewrite <- (Hget (<[Z.to_nat d := q]> idx)).
    + assert (Hn : nth_or0 (<[Z.to_nat d := q]> idx) d = q).
      { unfold nth_or0. rewrite list_lookup_insert_eq by lia. reflexivity. }
      rewrite Hcoord, Hn, list_insert_insert_eq.
      replace (b.1 + q * step) with x by lia.
      rewrite list_insert_id by exact Hx. reflexivity.
    + rewrite Hbs. apply Forall2_insert; [exact Hidx | lia].
  - apply Hframe; [exact Hidx|]. intros j Hj Hej.
    rewrite Hcoord in Hej.
    assert (Hjl : length j = length idx).
    { rewrite <- Hej, length_insert. reflexivity. }
    pose proof (nth_or0_lookup_lt j d ltac:(lia)) as Hjd.
    pose proof (valid_index_lookup _ _ _ _ _ Hj Hsd Hjd) as Hrange.
    assert (Hxe : x = b.1 + nth_or0 j d * step).
    { assert (Hl : idx !! Z.to_nat d = Some (b.1 + nth_or0 j d * step)).
      { rewrite <- Hej. apply list_lookup_insert_eq. lia. }
      rewrite Hx in Hl. injection Hl as Hl. exact Hl. }
    pose proof (slice_steps (b.2 - b.1) step (nth_or0 j d) Hstep Hrange)
      as Hlt.
    assert (Hmod : (x - b.1) mod step = 0).
    { replace (x - b.1) with (nth_or0 j d * step) by lia.
      apply Z.mod_mul. lia. }
    destruct (Z.leb_spec b.1 x); [|nia].
    destruct (Z.ltb_spec x b.2); [|lia].
    rewrite Hmod in Hin. discriminate Hin.
Qed.

(** The theorem at a base of shape (5), [start = 1] and [step = 2]. *)
Lemma slice_inverse_elements_witness :
  sizes (tensor_of [5] [0; 7; 2; 8; 4]) = [5] /\
  forall idx, valid_index [5] idx ->
    get (tensor_of [5] [0; 7; 2; 8; 4]) idx
    = if (1 <=? nth_or0 idx 0) && (nth_or0 idx 0 <? 5)
         && ((nth_or0 idx 0 - 1) mod 2 =? 0)
      then get (tensor_of [2] [7; 8]) (<[0%nat := (nth_or0 idx 0 - 1) / 2]> idx)
      else get (arange [5]) idx.
Proof.
  apply (slice_inverse_elements (arange [5]) (tensor_of [2] [7; 8])
           (tensor_of [5] [0; 7; 2; 8; 4]) 0 (Some 1) None 2).
  reflexivity.
Defined.

Lemma matrix_diagonal_coord (m n offset k : Z) :
  diagonal_coord [m; n] offset 0 1 [k]
  = [if offset >=? 0 then k else k - offset;
     if offset >=? 0 then k + offset else k].
Proof. reflexivity. Qed.

(** X13.  The elements of [diagonal_inverse(base, v, offset, 0, 1)] on
    a matrix of any shape (m,n) and for any offset: the result has shape
    (m,n), holds [v[min(i, j)]] at the coordinates [(i, j)] with
    [j - i = offset] and [base] at all the others. *)
Theorem diagonal_inverse_matrix (base v r : Tensor) (m n offset : Z) :
  sizes base = [m; n] ->
  diagonal_inverse base v offset 0 1 = Ok r ->
  sizes r = [m; n] /\
  forall i j, 0 <= i < m -> 0 <= j < n ->
    get r [i; j]
    = if j - i =? offset then get v [Z.min i j] else get base [i; j].
Proof.
  intros Hsb Hr.
  destruct (scatter_through_ok_inv
              (fun t => diagonal t offset 0 1) base v r)
    as (b & Hb & Hsz); [intros a a'; apply diagonal_outcome_by_sizes
                       | exact Hr |].
  destruct (scatter_through_spec _ _ base v b
              (diagonal_view_law offset 0 1) Hb Hsz)
    as (r' & _ & Hr' & Hsr & _ & _ & Hget & Hframe).
  change (diagonal_inverse base v offset 0 1) with
    (scatter_through (fun t => diagonal t offset 0 1) base v) in Hr.
  rewrite Hr in Hr'. injection Hr' as <-.
  rewrite Hsb in *. split; [exact Hsr|].
  assert (Hbs : sizes b = [diag_size_of m n offset]).
  { apply diagonal_ok_inv in Hb. cbv zeta in Hb.
    destruct Hb as (_ & _ & _ & ->). unfold dim. rewrite Hsb. reflexivity. }
  rewrite Hbs in *.
  intros i j Hi Hj.
  assert (Hv : valid_index [m; n] [i; j]).
  { constructor; [lia|]. constructor; [lia | constructor]. }
  destruct (Z.eqb_spec (j - i) offset) as [Heq|Hne].
  - rewrite <- (Hget [Z.min i j]).
    + rewrite matrix_diagonal_coord.
      f_equal. destruct (Z.geb_spec offset 0); (f_equal; [lia | f_equal; lia]).
    + constructor; [|constructor]. unfold diag_size_of.
      destruct (Z.geb_spec offset 0); lia.
  - apply Hframe; [exact Hv|]. intros k Hk.
    inversion Hk as [|k0 ? ks ? _ Hnil]; subst. inversion Hnil; subst.
    rewrite matrix_diagonal_coord. intros Hc. injection Hc as Hi' Hj'.
    destruct (Z.geb_spec offset 0); lia.
Qed.

(** The theorem at a base of shape (2,3) and [offset = 1]. *)
Lemma diagonal_inverse_matrix_witness :
  sizes (tensor_of [2; 3] [0; 50; 2; 3; 4; 60]) = [2; 3] /\
  forall i j, 0 <= i < 2 -> 0 <= j < 3 ->
    get (tensor_of [2; 3] [0; 50; 2; 3; 4; 60]) [i; j]
    = if j - i =? 1 then get (tensor_of [2] [50; 60]) [Z.min i j]
      else get (arange [2; 3]) [i; j].
Proof.
  apply (diagonal_inverse_matrix (arange [2; 3]) (tensor_of [2] [50; 60])
           (tensor_of [2; 3] [0; 50; 2; 3; 4; 60]) 2 3 1).
  - reflexivity.
  - reflexivity.
Defined.

Lemma by_sizes_ok op (a a' v : Tensor) :
  (forall a a', sizes a = sizes a' ->
                map_result sizes (op a) = map_result sizes (op a')) ->
  sizes a = sizes a' -> op a = Ok v ->
  exists v', op a' = Ok v' /\ sizes v' = sizes v.
Proof.
  intros Hop Hsz Hv. pose proof (Hop a a' Hsz) as H. rewrite Hv in H.
  destruct (op a') as [v'|e]; [|discriminate H].
  injection H as H. exists v'. split; [reflexivity | congruence].
Qed.

(** Writing a region twice: the second patch is what remains. *)
Lemma scatter_overwrite op e (base v1 v2 r1 r12 : Tensor) :
  view_law op e ->
  (forall a a', sizes a = sizes a' ->
                map_result sizes (op a) = map_result sizes (op a')) ->
  scatter_through op base v1 = Ok r1 ->
  scatter_through op r1 v2 = Ok r12 ->
  exists r2, scatter_through op base v2 = Ok r2 /\ tensor_eq r12 r2.
Proof.
  intros L Hop H1 H12.
  destruct (scatter_through_ok_inv op base v1 r1 Hop H1) as (b & Hb & Hs1).
  destruct (scatter_through_ok_inv op r1 v2 r12 Hop H12) as (b1 & Hb1 & Hs2).
  destruct (scatter_through_spec op e base v1 b L Hb Hs1)
    as (r1' & _ & Hr1' & Hsr1 & _ & _ & _ & Hframe1).
  rewrite H1 in Hr1'. injection Hr1' as <-.
  destruct (by_sizes_ok op r1 base b1 Hop Hsr1 Hb1) as (b' & Hb' & Hsb').
  rewrite Hb in Hb'. injection Hb' as <-.
  destruct (scatter_through_spec op e r1 v2 b1 L Hb1 Hs2)
    as (r12' & _ & Hr12' & Hsr12 & _ & _ & Hget12 & Hframe12).
  rewrite H12 in Hr12'. injection Hr12' as <-.
  destruct (scatter_through_spec op e base v2 b L Hb ltac:(congruence))
    as (r2 & _ & Hr2 & Hsr2 & _ & _ & Hget2 & Hframe2).
  exists r2. split; [exact Hr2|]. split; [congruence|].
  intros idx Hidx. rewrite Hsr12, Hsr1 in Hidx. rewrite Hsr1 in *.
  rewrite <- Hsb' in *.
  destruct (decide (Exists (fun j => e (sizes base) j = idx)
                           (all_indices (sizes b)))) as [Hex|Hno].
  - apply list.Exists_exists in Hex. destruct Hex as (j & Hj & Hej).
    apply elem_of_all_indices in Hj.
    rewrite <- Hej, (Hget12 j Hj), (Hget2 j Hj). reflexivity.
  - assert (Hout : forall j, valid_index (sizes b) j ->
                             e (sizes base) j <> idx).
    { intros j Hj Hej. apply Hno. apply list.Exists_exists. exists j.
      split; [apply elem_of_all_indices; exact Hj | exact Hej]. }
    rewrite (Hframe12 idx Hidx Hout), (Hframe1 idx Hidx Hout),
      (Hframe2 idx Hidx Hout). reflexivity.
Qed.

(** X14.  Writing the same region twice.  For [select_inverse],
    [slice_inverse] and [diagonal_inverse], applying the inverse with
    patch [v1] and then, to the result, with patch [v2] and the same
    arguments equals applying it once with [v2]. *)
Theorem scatter_inverse_last_write_wins (base v1 v2 r1 r12 : Tensor) :
  (forall dim_ index,
     select_inverse base v1 dim_ index = Ok r1 ->
     select_inverse r1 v2 dim_ index = Ok r12 ->
     exists r2, select_inverse base v2 dim_ index = Ok r2 /\
                tensor_eq r12 r2) /\
  (forall dim_ start end_ step,
     slice_inverse base v1 dim_ start end_ step = Ok r1 ->
     slice_inverse r1 v2 dim_ start end_ step = Ok r12 ->
     exists r2, slice_inverse base v2 dim_ start end_ step = Ok r2 /\
                tensor_eq r12 r2) /\
  (forall offset dim1 dim2,
     diagonal_inverse base v1 offset dim1 dim2 = Ok r1 ->
     diagonal_inverse r1 v2 offset dim1 dim2 = Ok r12 ->
     exists r2, diagonal_inverse base v2 offset dim1 dim2 = Ok r2 /\
                tensor_eq r12 r2).
Proof.
  split; [|split].
  - intros dim_ index.
    apply (scatter_overwrite _ _ base v1 v2 r1 r12
             (select_view_law dim_ index)).
    intros a a'. apply select_outcome_by_sizes.
  - intros dim_ start end_ step.
    apply (scatter_overwrite _ _ base v1 v2 r1 r12
             (slice_view_law dim_ start end_ step)).
    intros a a'. apply slice_outcome_by_sizes.
  - intros offset dim1 dim2.
    apply (scatter_overwrite _ _ base v1 v2 r1 r12
             (diagonal_view_law offset dim1 dim2)).
    intros a a'. apply diagonal_outcome_by_sizes.
Qed.

(** The theorem at row 0 of a base of shape (2,2). *)
Lemma scatter_inverse_last_write_wins_witness :
  exists r2,
    select_inverse (arange [2; 2]) (tensor_of [2] [8; 9]) 0 0 = Ok r2 /\
    tensor_eq (tensor_of [2; 2] [8; 9; 2; 3]) r2.
Proof.
  apply (proj1 (scatter_inverse_last_write_wins (arange [2; 2])
                  (tensor_of [2] [6; 7]) (tensor_of [2] [8; 9])
                  (tensor_of [2; 2] [6; 7; 2; 3])
                  (tensor_of [2; 2] [8; 9; 2; 3])) 0 0).
  - reflexivity.
  - reflexivity.
Defined.

(** Writes through two views that read no common coordinate commute. *)
Lemma scatter_commute op1 e1 op2 e2 (base v1 v2 r1 r12 : Tensor) :
  view_law op1 e1 -> view_law op2 e2 ->
  (forall a a', sizes a = sizes a' ->
                map_result sizes (op1 a) = map_result sizes (op1 a')) ->
  (forall a a', sizes a = sizes a' ->
                map_result sizes (op2 a) = map_result sizes (op2 a')) ->
  (forall b1 b2 j1 j2,
     op1 base = Ok b1 -> op2 base = Ok b2 ->
     valid_index (sizes b1) j1 -> valid_index (sizes b2) j2 ->
     e1 (sizes base) j1 <> e2 (sizes base) j2) ->
  scatter_through op1 base v1 = Ok r1 ->
  scatter_through op2 r1 v2 = Ok r12 ->
  exists r2 r21,
    scatter_through op2 base v2 = Ok r2 /\
    scatter_through op1 r2 v1 = Ok r21 /\
    tensor_eq r12 r21.
Proof.
  intros L1 L2 Hop1 Hop2 Hdis H1 H12.
  destruct (scatter_through_ok_inv op1 base v1 r1 Hop1 H1) as (b1 & Hb1 & Hs1).
  destruct (scatter_through_spec op1 e1 base v1 b1 L1 Hb1 Hs1)
    as (r1' & _ & Hr1' & Hsr1 & _ & _ & Hget1 & Hframe1).
  rewrite H1 in Hr1'. injection Hr1' as <-.
  destruct (scatter_through_ok_inv op2 r1 v2 r12 Hop2 H12)
    as (c2 & Hc2 & Hs2).
  destruct (by_sizes_ok op2 r1 base c2 Hop2 Hsr1 Hc2) as (b2 & Hb2 & Hsb2).
  destruct (scatter_through_spec op2 e2 r1 v2 c2 L2 Hc2 Hs2)
    as (r12' & _ & Hr12' & Hsr12 & _ & _ & Hget12 & Hframe12).
  rewrite H12 in Hr12'. injection Hr12' as <-.
  destruct (scatter_through_spec op2 e2 base v2 b2 L2 Hb2 ltac:(congruence))
    as (r2 & _ & Hr2 & Hsr2 & _ & _ & Hget2 & Hframe2).
  destruct (by_sizes_ok op1 base r2 b1 Hop1 (eq_sym Hsr2) Hb1)
    as (c1 & Hc1 & Hsc1).
  destruct (scatter_through_spec op1 e1 r2 v1 c1 L1 Hc1 ltac:(congruence))
    as (r21 & _ & Hr21 & Hsr21 & _ & _ & Hget21 & Hframe21).
  exists r2, r21. split; [exact Hr2|]. split; [exact Hr21|].
  split; [congruence|].
  intros idx Hidx. rewrite Hsr12, Hsr1 in Hidx.
  rewrite Hsr1 in *. rewrite Hsr2 in *. rewrite Hsc1 in *.
  rewrite <- Hsb2 in *.
  destruct (decide (Exists (fun j => e2 (sizes base) j = idx)
                           (all_indices (sizes b2)))) as [Hex|Hno].
  - apply list.Exists_exists in Hex. destruct Hex as (j2 & Hj2 & Hej).
    apply elem_of_all_indices in Hj2.
    rewrite <- Hej, (Hget12 j2 Hj2).
    rewrite Hframe21.
    + apply eq_sym, Hget2. exact Hj2.
    + rewrite Hej. exact Hidx.
    + intros j1 Hj1. apply (Hdis b1 b2 j1 j2 Hb1 Hb2 Hj1 Hj2).
  - assert (Hout : forall j, valid_index (sizes b2) j ->
                             e2 (sizes base) j <> idx).
    { intros j Hj Hej. apply Hno. apply list.Exists_exists. exists j.
      split; [apply elem_of_all_indices; exact Hj | exact Hej]. }
    rewrite (Hframe12 idx Hidx Hout).
    destruct (decide (Exists (fun j => e1 (sizes base) j = idx)
                             (all_indices (sizes b1)))) as [Hex1|Hno1].
    + apply list.Exists_exists in Hex1. destruct Hex1 as (j1 & Hj1 & Hej).
      apply elem_of_all_indices in Hj1.
      rewrite <- Hej, (Hget1 j1 Hj1), (Hget21 j1 Hj1). reflexivity.
    + assert (Hout1 : forall j, valid_index (sizes b1) j ->
                                e1 (sizes base) j <> idx).
      { intros j Hj Hej. apply Hno1. apply list.Exists_exists. exists j.
        split; [apply elem_of_all_indices; exact Hj | exact Hej]. }
      rewrite (Hframe1 idx Hidx Hout1), (Hframe21 idx Hidx Hout1),
        (Hframe2 idx Hidx Hout). reflexivity.
Qed.

(** X15.  Writes at two different positions of the same axis commute:
    [select_inverse] with [(v1, index1)] followed by [(v2, index2)]
    equals the two calls in the other order, which succeed as well. *)
Theorem select_inverse_commutes (base v1 v2 r1 r12 : Tensor)
  (dim_ index1 index2 : Z) :
  let n := nth_or0 (sizes base) (wrap_total dim_ (dim base)) in
  wrap_total index1 n <> wrap_total index2 n ->
  select_inverse base v1 dim_ index1 = Ok r1 ->
  select_inverse r1 v2 dim_ index2 = Ok r12 ->
  exists r2 r21,
    select_inverse base v2 dim_ index2 = Ok r2 /\
    select_inverse r2 v1 dim_ index1 = Ok r21 /\
    tensor_eq r12 r21.
Proof.
  intros n Hne H1 H12.
  apply (scatter_commute _ _ _ _ base v1 v2 r1 r12
           (select_view_law dim_ index1) (select_view_law dim_ index2));
    try assumption.
  - intros a a'. apply select_outcome_by_sizes.
  - intros a a'. apply select_outcome_by_sizes.
  - intros b1 b2 j1 j2 Hb1 Hb2 Hj1 Hj2 Heq.
    pose proof (select_ok_inv _ _ _ _ Hb1) as Hi1. cbv zeta in Hi1.
    destruct Hi1 as (Hd & _ & Hg1).
    assert (Hl1 : (Z.to_nat (wrap_total dim_ (dim base)) <= length j1)%nat).
    { apply valid_index_length in Hj1. rewrite Hg1 in Hj1.
      cbn [sizes with_geometry] in Hj1.
      rewrite Hj1, length_delete
        by (apply lookup_lt_is_Some; unfold dim in *; lia).
      unfold dim in *. lia. }
    pose proof (select_ok_inv _ _ _ _ Hb2) as Hi2. cbv zeta in Hi2.
    destruct Hi2 as (_ & _ & Hg2).
    assert (Hl2 : (Z.to_nat (wrap_total dim_ (dim base)) <= length j2)%nat).
    { apply valid_index_length in Hj2. rewrite Hg2 in Hj2.
      cbn [sizes with_geometry] in Hj2.
      rewrite Hj2, length_delete
        by (apply lookup_lt_is_Some; unfold dim in *; lia).
      unfold dim in *. lia. }
    unfold select_coord in Heq. cbv zeta in Heq. fold (dim base) in Heq.
    pose proof (lookup_insert_at _ (wrap_total index1 n) j1 Hl1) as E1.
    pose proof (lookup_insert_at _ (wrap_total index2 n) j2 Hl2) as E2.
    fold n in Heq. rewrite Heq, E2 in E1. injection E1 as E1.
    apply Hne. symmetry. exact E1.
Qed.

(** The theorem at rows [-2] and [1] of a base of shape (2,2). *)
Lemma select_inverse_commutes_witness :
  exists r2 r21,
    select_inverse (arange [2; 2]) (tensor_of [2] [8; 9]) 0 1 = Ok r2 /\
    select_inverse r2 (tensor_of [2] [6; 7]) 0 (-2) = Ok r21 /\
    tensor_eq (tensor_of [2; 2] [6; 7; 8; 9]) r21.
Proof.
  apply (select_inverse_commutes (arange [2; 2]) (tensor_of [2] [6; 7])
           (tensor_of [2] [8; 9]) (tensor_of [2; 2] [6; 7; 2; 3])
           (tensor_of [2; 2] [6; 7; 8; 9]) 0 (-2) 1).
  - discriminate.
  - reflexivity.
  - reflexivity.
Defined.

Lemma scatter_through_sizes op (base v r : Tensor) :
  scatter_through op base v = Ok r -> sizes r = sizes base.
Proof.
  unfold scatter_through. intros H. inv_ok. subst r. reflexivity.
Qed.

Lemma size_by_sizes (t t' : Tensor) (d : Z) :
  sizes t = sizes t' -> size t d = size t' d.
Proof. intros H. unfold size, dim. rewrite H. reflexivity. Qed.

(** [split_inverse] as a scatter through the slice of its part. *)
Lemma split_inverse_unfold (base t v : Tensor) (i ss dim_ d n : Z) :
  sizes t = sizes base ->
  c10.maybe_wrap_dim dim_ (Z.of_nat (length (sizes base))) = Ok d ->
  size base d = Ok n ->
  c10.int64_range (i * ss) -> c10.int64_range ((i + 1) * ss) ->
  split_inverse t v i ss dim_
  = scatter_through
      (fun x => slice x d (Some (i * ss)) (Some (Z.min n ((i + 1) * ss))) 1)
      t v.
Proof.
  intros Hsz Hd Hn Hr0 Hr1. unfold split_inverse.
  rewrite Hsz, Hd. cbn [bind]. rewrite (size_by_sizes t base d Hsz), Hn.
  cbn [bind]. unfold c10.mul64, c10.add64.
  rewrite (wrap64_id (i * ss)) by exact Hr0.
  replace (i * ss + ss) with ((i + 1) * ss) by lia.
  rewrite wrap64_id by exact Hr1. rewrite clip_min. reflexivity.
Qed.

(** The positions of part [i] of a split. *)
Lemma split_part_bounds (n ss i : Z) :
  0 < ss -> 0 <= i -> c10.int64_range ((i + 1) * ss) ->
  let b := slice_bounds n (Some (i * ss)) (Some (Z.min n ((i + 1) * ss))) in
  b.1 < b.2 -> b.1 = i * ss /\ b.2 <= (i + 1) * ss.
Proof.
  intros Hss Hi Hr. unfold slice_bounds, INT64_MAX, c10.int64_range in *.
  assert (H0 : 0 <= i * ss) by nia.
  replace ((i + 1) * ss) with (i * ss + ss) in * by lia.
  generalize dependent (i * ss). intros p Hr H0.
  change (2 ^ 63) with 9223372036854775808 in *.
  cbn [from_option]. unfold id.
  set (e := Z.min n (p + ss)).
  destruct (Z.eqb_spec p (9223372036854775808 - 1)); [lia|].
  destruct (Z.ltb_spec p 0); [lia|].
  destruct (Z.ltb_spec e 0); destruct (Z.geb_spec p n);
    repeat match goal with
           | |- context [?a <? ?b] => destruct (Z.ltb_spec a b)
           | |- context [?a >=? ?b] => destruct (Z.geb_spec a b)
           end; cbn [fst snd]; lia.
Qed.

Lemma split_part_position (base b : Tensor) (d n ss i : Z) (j : list Z) :
  0 < ss -> 0 <= i -> c10.int64_range ((i + 1) * ss) ->
  0 <= d < dim base -> n = nth_or0 (sizes base) d ->
  slice base d (Some (i * ss)) (Some (Z.min n ((i + 1) * ss))) 1 = Ok b ->
  valid_index (sizes b) j ->
  exists x,
    slice_coord (sizes base) d (Some (i * ss))
      (Some (Z.min n ((i + 1) * ss))) 1 j !! Z.to_nat d = Some x /\
    i * ss <= x < (i + 1) * ss.
Proof.
  intros Hss Hi Hr Hd Hn Hb Hj.
  pose proof (slice_ok_inv _ _ _ _ _ _ Hb) as Hinv. cbv zeta in Hinv.
  assert (Hw : wrap_total d (dim base) = d).
  { unfold wrap_total. destruct (Z.ltb_spec d 0); lia. }
  rewrite Hw, <- Hn in Hinv. destruct Hinv as (_ & _ & Hgeo).
  set (bd := slice_bounds n (Some (i * ss))
               (Some (Z.min n ((i + 1) * ss)))) in *.
  assert (Hsd : sizes b !! Z.to_nat d = Some (bd.2 - bd.1)).
  { rewrite Hgeo. cbn [sizes with_geometry].
    rewrite list_lookup_insert_eq by (unfold dim in Hd; lia).
    f_equal. rewrite Z.div_1_r. lia. }
  assert (Hjl : length j = length (sizes base)).
  { apply valid_index_length in Hj. rewrite Hj, Hgeo.
    cbn [sizes with_geometry]. apply length_insert. }
  pose proof (nth_or0_lookup_lt j d ltac:(unfold dim in Hd; lia)) as Hjd.
  pose proof (valid_index_lookup _ _ _ _ _ Hj Hsd Hjd) as Hrange.
  destruct (split_part_bounds n ss i Hss Hi Hr) as [Hb1 Hb2];
    [fold bd; lia|]. fold bd in Hb1, Hb2.
  exists (bd.1 + nth_or0 j d * 1). split.
  - unfold slice_coord. cbv zeta. fold (dim base). rewrite Hw, <- Hn.
    fold bd. apply list_lookup_insert_eq. unfold dim in Hd. lia.
  - lia.
Qed.

(** X16.  Two different parts of a split can be written back in either
    order: [split_inverse] at part [i] followed by part [j] equals the
    two calls in the other order, for a positive [split_size] and
    offsets that fit [int64_t]. *)
Theorem split_inverse_parts_commute (base v1 v2 r1 r12 : Tensor)
  (ss dim_ i j : Z) :
  0 < ss -> 0 <= i -> 0 <= j -> i <> j ->
  c10.int64_range ((i + 1) * ss) -> c10.int64_range ((j + 1) * ss) ->
  split_inverse base v1 i ss dim_ = Ok r1 ->
  split_inverse r1 v2 j ss dim_ = Ok r12 ->
  exists r2 r21,
    split_inverse base v2 j ss dim_ = Ok r2 /\
    split_inverse r2 v1 i ss dim_ = Ok r21 /\
    tensor_eq r12 r21.
Proof.
  intros Hss Hi Hj Hij Hri Hrj H1 H12.
  assert (Hri0 : c10.int64_range (i * ss))
    by (unfold c10.int64_range in *; nia).
  assert (Hrj0 : c10.int64_range (j * ss))
    by (unfold c10.int64_range in *; nia).
  pose proof H1 as H1'. unfold split_inverse in H1'.
  apply bind_ok_inv in H1' as (d & Hd & H1').
  apply bind_ok_inv in H1' as (n & Hn & _).
  pose proof (maybe_wrap_dim_ok _ _ _ Hd) as (_ & _ & Hdr).
  destruct (size_ok_inv base d n (proj1 Hdr) Hn) as [Hd' Hnn].
  rewrite (split_inverse_unfold base base v1 i ss dim_ d n eq_refl Hd Hn
             Hri0 Hri) in H1.
  pose proof (scatter_through_sizes _ _ _ _ H1) as Hs1.
  rewrite (split_inverse_unfold base r1 v2 j ss dim_ d n Hs1 Hd Hn
             Hrj0 Hrj) in H12.
  destruct (scatter_commute _ _ _ _ base v1 v2 r1 r12
              (slice_view_law d (Some (i * ss))
                 (Some (Z.min n ((i + 1) * ss))) 1)
              (slice_view_law d (Some (j * ss))
                 (Some (Z.min n ((j + 1) * ss))) 1))
    as (r2 & r21 & Hr2 & Hr21 & Heq); try assumption.
  - intros a a'. apply slice_outcome_by_sizes.
  - intros a a'. apply slice_outcome_by_sizes.
  - intros b1 b2 j1 j2 Hb1 Hb2 Hj1 Hj2 Hc.
    destruct (split_part_position base b1 d n ss i j1 Hss Hi Hri Hd' Hnn
                Hb1 Hj1) as (x1 & Hx1 & Hr1).
    destruct (split_part_position base b2 d n ss j j2 Hss Hj Hrj Hd' Hnn
                Hb2 Hj2) as (x2 & Hx2 & Hr2').
    rewrite Hc, Hx2 in Hx1. injection Hx1 as ->. nia.
  - exists r2, r21.
    pose proof (scatter_through_sizes _ _ _ _ Hr2) as Hs2.
    rewrite (split_inverse_unfold base base v2 j ss dim_ d n eq_refl Hd Hn
               Hrj0 Hrj).
    rewrite (split_inverse_unfold base r2 v1 i ss dim_ d n Hs2 Hd Hn
               Hri0 Hri).
    split; [exact Hr2|]. split; [exact Hr21 | exact Heq].
Qed.

(** The theorem at parts 0 and 2 of a base of shape (5) split by two. *)
Lemma split_inverse_parts_commute_witness :
  exists r2 r21,
    split_inverse (arange [5]) (tensor_of [1] [9]) 2 2 0 = Ok r2 /\
    split_inverse r2 (tensor_of [2] [7; 8]) 0 2 0 = Ok r21 /\
    tensor_eq (tensor_of [5] [7; 8; 2; 3; 9]) r21.
Proof.
  apply (split_inverse_parts_commute (arange [5]) (tensor_of [2] [7; 8])
           (tensor_of [1] [9]) (tensor_of [5] [7; 8; 2; 3; 4])
           (tensor_of [5] [7; 8; 2; 3; 9]) 2 0 0 2).
  - lia.
  - lia.
  - lia.
  - lia.
  - unfold c10.int64_range. lia.
  - unfold c10.int64_range. lia.
  - reflexivity.
  - reflexivity.
Defined.

(** *** Expansion *)

Lemma existsb_reduce_same (sz : list Z) :
  existsb id (zip_with (fun s n => (s =? 1) && negb (n =? 1)) sz sz) = false.
Proof.
  induction sz as [|n sz IH]; simpl; [reflexivity|].
  rewrite IH. destruct (n =? 1); reflexivity.
Qed.

(** X17.  When the mutated view has the shape of a base that is not a
    scalar, nothing was broadcast and [expand_inverse] returns the
    mutated view itself. *)
Theorem expand_inverse_same_shape (base v : Tensor) (size_ : list Z)
  (implicit : bool) :
  sizes v = sizes base -> sizes base <> [] ->
  expand_inverse base v size_ implicit = Ok v.
Proof.
  intros Hsz Hne. unfold expand_inverse, sum_to.
  rewrite bool_decide_eq_false_2 by exact Hne.
  unfold dim. rewrite Hsz, Z.sub_diag. cbn [Z.leb check bind].
  change (Z.to_nat 0) with 0%nat. rewrite drop_0.
  cbn [replicate app]. rewrite existsb_reduce_same. reflexivity.
Qed.

(** The theorem at a base and a view of shape (2,3). *)
Lemma expand_inverse_same_shape_witness :
  expand_inverse (arange [2; 3]) (tensor_of [2; 3] [9; 8; 7; 6; 5; 4])
    [2; 3] false
  = Ok (tensor_of [2; 3] [9; 8; 7; 6; 5; 4]).
Proof.
  apply (expand_inverse_same_shape (arange [2; 3])
           (tensor_of [2; 3] [9; 8; 7; 6; 5; 4]) [2; 3] false).
  - reflexivity.
  - discriminate.
Defined.
